(** * dice-embeddings: knowledge-graph preprocessing and filtered ranking

    A shallow embedding of [core/knowledge_graph.py] (class [KG]) and of the
    evaluation part of [executer.py] (class [Execute]).

    - A pandas/dask frame of string triples is a list of rows, in row order.
    - An indexed split (numpy array with three columns) is a list of rows of
      integers.
    - A Python dict is a [gmap]; a pandas frame holding a vocabulary is the
      list of its (index, value) rows.
    - Methods that mutate [self], write files, print progress or raise are
      functions in a state-and-error monad over a [world]: the files on disk
      and the chronological list of the steps taken. *)

From stdpp Require Import gmap strings list fin_maps sorting.
From Stdlib Require QArith.

Module KnowledgeGraph.

(** ** Data *)

Inductive split := Train | Valid | Test.

(** One row of a three-column table ([subject], [relation], [object]). *)
Record triple (A : Type) := Triple { subject : A; relation : A; object : A }.
Arguments Triple {A} _ _ _.
Arguments subject {A} _.
Arguments relation {A} _.
Arguments object {A} _.

Abbreviation frame := (list (triple string)).
Abbreviation ndarray := (list (triple Z)).

(** The three splits held by a [KG] object; valid and test may be [None]. *)
Record splits (A : Type) := Splits {
  train_set : A;
  valid_set : option A;
  test_set : option A
}.
Arguments Splits {A} _ _ _.
Arguments train_set {A} _.
Arguments valid_set {A} _.
Arguments test_set {A} _.

(** A pandas frame with one integer column indexed by strings
    ([entity_to_idx], [relation_to_idx] before [to_dict]). *)
Abbreviation mapping_frame := (list (string * Z)).

(** The evaluation multi-maps. *)
Record eval_vocab := EvalVocab {
  er_vocab : gmap (Z * Z) (gset Z);
  re_vocab : gmap (Z * Z) (gset Z);
  ee_vocab : gmap (Z * Z) (gset Z);
  domain_constraints_per_rel : gmap Z (gset Z);
  range_constraints_per_rel : gmap Z (gset Z)
}.

(** The attributes of a constructed [KG] that the rest of the program reads. *)
Record KG := MkKG {
  num_entities : nat;
  num_relations : nat;
  entity_to_idx : gmap string Z;
  relation_to_idx : gmap string Z;
  data : splits ndarray;
  evaluation : option eval_vocab
}.

(** The arguments of [KG.__init__]. *)
Record args := Args {
  data_dir : option string;
  deserialize_flag : option string;
  multi_cores_at_preprocessing : bool;
  add_reciprical : bool;
  eval_model : bool;
  read_only_few : option nat;
  sample_triples_ratio : option QArith_base.Q;
  path_for_serialization : option string;
  add_noise_rate : option QArith_base.Q;
  min_freq_for_vocab : option Z;
  entity_to_idx_arg : option mapping_frame;
  relation_to_idx_arg : option mapping_frame
}.

(** ** Effects *)

Inductive exn :=
  | TypeError
  | AttributeError
  | AssertionError (msg : string)
  | KeyError (key : string)
  | FileNotFoundError (path : string)
  | ValueError (msg : string).

(** What a parquet file holds. *)
Inductive table :=
  | StrTriples (rows : frame)
  | IdxTriples (rows : ndarray)
  | Mapping (column : string) (rows : mapping_frame).

(** The steps of a run, in the order they are taken. *)
Inductive step :=
  | load_data (path : string)
  | reciprocal (s : split)
  | noisy_triples
  | drop_infrequent
  | concat_for_index (df_str_kg : frame)
  | index (s : split) (input : frame)
  | sanity_checking (s : split) (input : ndarray) (ne nr : nat)
  | to_parquet_step (path : string)
  | read_parquet_step (path : string).

Record world := World { files : gmap string table; steps : list step }.

Definition M (A : Type) : Type := world → (exn + A) * world.

Definition ret {A} (a : A) : M A := λ w, (inr a, w).

Definition bind {A B} (m : M A) (f : A → M B) : M B :=
  λ w, match m w with
       | (inl e, w') => (inl e, w')
       | (inr a, w') => f a w'
       end.

Definition raise {A} (e : exn) : M A := λ w, (inl e, w).

Definition emit (s : step) : M unit :=
  λ w, (inr (), World (files w) (steps w ++ [s])).

#[global] Instance M_ret : MRet M := @ret.
#[global] Instance M_bind : MBind M := λ A B f m, bind m f.

(** [assert c, msg] *)
Definition assert (c : bool) (msg : string) : M unit :=
  if c then ret () else raise (AssertionError msg).

(** [a + b] on strings where [a] may be [None]: Python raises [TypeError]. *)
Definition str_add (a : option string) (b : string) : M string :=
  match a with
  | Some s => ret (s +:+ b)
  | None => raise TypeError
  end.

(** [df.to_parquet(path)]. *)
Definition to_parquet (t : table) (path : string) : M unit :=
  λ w, (inr (), World (<[path := t]> (files w)) (steps w ++ [to_parquet_step path])).

(** [read_parquet(path)]: a missing file is a [FileNotFoundError]. *)
Definition read_parquet (path : string) : M table :=
  λ w, match files w !! path with
       | Some t => (inr t, World (files w) (steps w ++ [read_parquet_step path]))
       | None => (inl (FileNotFoundError path), w)
       end.

(** [try: m except FileNotFoundError: h]. *)
Definition try_except_FileNotFoundError {A} (m : M A) (h : M A) : M A :=
  λ w, match m w with
       | (inl (FileNotFoundError _), w') => h w'
       | r => r
       end.

(** ** pandas and numpy primitives *)

(** [pd.unique]: the distinct values in order of first appearance (a scan
    that remembers the values seen so far). *)
Fixpoint unique_from (seen : gset string) (l : list string) : list string :=
  match l with
  | [] => []
  | x :: l' =>
      if decide (x ∈ seen) then unique_from seen l'
      else x :: unique_from ({[x]} ∪ seen) l'
  end.

Definition pd_unique (l : list string) : list string := unique_from ∅ l.

(** [np.arange(n)]. *)
Definition arange (n : nat) : list Z := Z.of_nat <$> seq 0 n.

(** [ndarray.ravel('K')] of a two-column array reads the cells in memory
    order: row after row for a C-contiguous array, column after column for a
    Fortran-contiguous one (which is what pandas hands out as [.values] of a
    single-dtype block). *)
Inductive mem_order := C_contiguous | F_contiguous.

Definition ravel_K (o : mem_order) (cells : list (string * string)) : list string :=
  match o with
  | C_contiguous => flat_map (λ r, [r.1; r.2]) cells
  | F_contiguous => cells.*1 ++ cells.*2
  end.

(** [Series.value_counts()]: each distinct value with its number of
    occurrences (pandas orders the result by count; only the pairs matter
    here). *)
Definition occurrences (x : string) (l : list string) : nat :=
  length (filter (λ y, y = x) l).

Definition value_counts (l : list string) : list (string * nat) :=
  (λ x, (x, occurrences x l)) <$> pd_unique l.

(** [DataFrame.to_dict()[column]]: a later row wins over an earlier one with
    the same index. *)
Definition to_dict (df : mapping_frame) : gmap string Z :=
  list_to_map (reverse df).

(** [pd.DataFrame(data=np.arange(len(ordered_list)), index=ordered_list)]. *)
Definition mapping_of (ordered_list : list string) : mapping_frame :=
  zip ordered_list (arange (length ordered_list)).

(** [pd.concat(x)] for [x = [train] + [valid]? + [test]?]. *)
Definition concat_splits {A} (d : splits (list A)) : list A :=
  train_set d ++ default [] (valid_set d) ++ default [] (test_set d).

(** ** Collaborators that are not part of this file's sources *)

(** Modelled from the spec: [index_triples] (module [static_funcs]) replaces
    each string by its id in the relevant vocabulary; a string absent from
    the vocabulary is a hard error, never a dropped or null row. *)
Definition lookup_id (vocab : gmap string Z) (x : string) : M Z :=
  match vocab !! x with
  | Some i => mret i
  | None => raise (KeyError x)
  end.

Fixpoint index_rows (rows : frame) (e2i r2i : gmap string Z) : M ndarray :=
  match rows with
  | [] => mret []
  | r :: rows' =>
      s ← lookup_id e2i (subject r);
      p ← lookup_id r2i (relation r);
      o ← lookup_id e2i (object r);
      rest ← index_rows rows' e2i r2i;
      mret (Triple s p o :: rest)
  end.

Definition index_triples (which : split) (rows : frame)
    (e2i r2i : gmap string Z) : M ndarray :=
  emit (index which rows);; index_rows rows e2i r2i.

(** Modelled from the spec: [dataset_sanity_checking] (module
    [sanity_checkers]) asserts that every subject and object id is in
    [[0, num_entities)] and every relation id in [[0, num_relations)]; a
    violation is fatal and names the bound that was exceeded. *)
Definition entity_in_bounds (ne : nat) (r : triple Z) : bool :=
  bool_decide (0 ≤ subject r < Z.of_nat ne)%Z && bool_decide (0 ≤ object r < Z.of_nat ne)%Z.

Definition relation_in_bounds (nr : nat) (r : triple Z) : bool :=
  bool_decide (0 ≤ relation r < Z.of_nat nr)%Z.

Definition dataset_sanity_checking (which : split) (arr : ndarray)
    (ne nr : nat) : M unit :=
  emit (sanity_checking which arr ne nr);;
  assert (forallb (entity_in_bounds ne) arr) "Entity Indexing Error";;
  assert (forallb (relation_in_bounds nr) arr) "Relation Indexing Error".

(** Modelled from the spec: [numpy_data_type_changer] (module
    [static_funcs]) casts the array to the smallest unsigned integer width
    that can hold [num - 1]; ids below [num] are unchanged, a value that does
    not fit is reduced modulo the width as a numpy cast does. *)
Definition dtype_bits (num : nat) : option Z :=
  if bool_decide (Z.of_nat num ≤ 2 ^ 8)%Z then Some 8%Z
  else if bool_decide (Z.of_nat num ≤ 2 ^ 16)%Z then Some 16%Z
  else if bool_decide (Z.of_nat num ≤ 2 ^ 32)%Z then Some 32%Z
  else if bool_decide (Z.of_nat num ≤ 2 ^ 64)%Z then Some 64%Z
  else None.

Definition astype (bits : option Z) (x : Z) : Z :=
  match bits with
  | Some b => (x mod 2 ^ b)%Z
  | None => x
  end.

Definition numpy_data_type_changer (arr : ndarray) (num : nat) : ndarray :=
  (λ r, Triple (astype (dtype_bits num) (subject r))
               (astype (dtype_bits num) (relation r))
               (astype (dtype_bits num) (object r))) <$> arr.

(** Modelled from the spec: [get_er_vocab], [get_re_vocab], [get_ee_vocab]
    and [create_constraints] (module [static_funcs]) collect, for each pair
    of ids, the set of third ids seen with it, and for each relation the
    subjects and the objects seen with it. *)
Definition add_to {K} `{Countable K} (k : K) (v : Z)
    (m : gmap K (gset Z)) : gmap K (gset Z) :=
  <[k := {[v]} ∪ default ∅ (m !! k)]> m.

Definition get_er_vocab (data : ndarray) : gmap (Z * Z) (gset Z) :=
  foldr (λ r, add_to (subject r, relation r) (object r)) ∅ data.

Definition get_re_vocab (data : ndarray) : gmap (Z * Z) (gset Z) :=
  foldr (λ r, add_to (relation r, object r) (subject r)) ∅ data.

Definition get_ee_vocab (data : ndarray) : gmap (Z * Z) (gset Z) :=
  foldr (λ r, add_to (subject r, object r) (relation r)) ∅ data.

Definition create_constraints (train : ndarray)
    : gmap Z (gset Z) * gmap Z (gset Z) :=
  (foldr (λ r, add_to (relation r) (subject r)) ∅ train,
   foldr (λ r, add_to (relation r) (object r)) ∅ train).

(** ** The methods of [KG] *)

Section KG.

(** Memory order of [df_str_kg[['subject', 'object']].values]. *)
Variable values_order : mem_order.

(** [load_data_parallel], [create_recipriocal_triples_from_dask] and
    [add_noisy_triples] (module [static_funcs]) are taken as given: the
    loader answers [None] for a split that is not there. *)
Variable load_data_parallel :
  string → option nat → option QArith_base.Q → option frame.
Variable create_recipriocal_triples_from_dask : frame → frame.
Variable add_noisy_triples : frame → QArith_base.Q → frame.

Definition load_read_process (a : args)
    : M (option frame * option frame * option frame) :=
  p ← str_add (data_dir a) "/train";
  emit (load_data p);;
  let train := load_data_parallel p (read_only_few a) (sample_triples_ratio a) in
  p ← str_add (data_dir a) "/valid";
  emit (load_data p);;
  let valid := load_data_parallel p None None in
  p ← str_add (data_dir a) "/test";
  emit (load_data p);;
  let test := load_data_parallel p None None in
  mret (train, valid, test).

Definition apply_reciprical_or_noise (a : args) (d : splits frame)
    : M (splits frame) :=
  d ← (if add_reciprical a && eval_model a then
         emit (reciprocal Train);;
         let train := create_recipriocal_triples_from_dask (train_set d) in
         valid ← match valid_set d with
                 | Some v =>
                     emit (reciprocal Valid);;
                     mret (Some (create_recipriocal_triples_from_dask v))
                 | None => mret None
                 end;
         test ← match test_set d with
                | Some t =>
                    emit (reciprocal Test);;
                    mret (Some (create_recipriocal_triples_from_dask t))
                | None => mret None
                end;
         mret (Splits train valid test)
       else mret d);
  match add_noise_rate a with
  | Some rate =>
      emit noisy_triples;;
      mret (Splits (add_noisy_triples (train_set d) rate) (valid_set d) (test_set d))
  | None => mret d
  end.

(** [frequency[frequency <= t].index.values] *)
Definition low_frequency (t : Z) (l : list string) : list string :=
  (filter (λ xc, (Z.of_nat xc.2 ≤ t)%Z) (value_counts l)).*1.

Definition remove_triples_from_train_with_condition (a : args)
    (d : splits frame) : M (splits frame) :=
  match min_freq_for_vocab a with
  | Some t =>
      assert (bool_decide (0 < t)%Z) "";;
      emit drop_infrequent;;
      let train := train_set d in
      let low_frequency_entities :=
        low_frequency t ((subject <$> train) ++ (object <$> train)) in
      let low_frequency_relation := low_frequency t (relation <$> train) in
      let train := filter (λ r, subject r ∉ low_frequency_entities) train in
      let train := filter (λ r, object r ∉ low_frequency_entities) train in
      let train := filter (λ r, relation r ∉ low_frequency_relation) train in
      mret (Splits train (valid_set d) (test_set d))
  | None => mret d
  end.

Definition sequential_vocabulary_construction (a : args) (d : splits frame)
    : M (splits frame * mapping_frame * mapping_frame) :=
  d ← remove_triples_from_train_with_condition a d;
  let df_str_kg := concat_splits d in
  emit (concat_for_index df_str_kg);;
  let ordered_list :=
    pd_unique (ravel_K values_order ((λ r, (subject r, object r)) <$> df_str_kg)) in
  let entity_to_idx := mapping_of ordered_list in
  p ← str_add (path_for_serialization a) "/entity_to_idx.gzip";
  to_parquet (Mapping "entity" entity_to_idx) p;;
  let ordered_list := pd_unique (relation <$> df_str_kg) in
  let relation_to_idx := mapping_of ordered_list in
  p ← str_add (path_for_serialization a) "/relation_to_idx.gzip";
  to_parquet (Mapping "relation" relation_to_idx) p;;
  mret (d, entity_to_idx, relation_to_idx).

(** [if path_for_serialization is not None: x.to_parquet(path + suffix)] *)
Definition serialize_if_path (path : option string) (t : table)
    (suffix : string) : M unit :=
  match path with
  | Some p => to_parquet t (p +:+ suffix)
  | None => mret ()
  end.

(** [x.to_dict()] where [x] may be [None]. *)
Definition to_dict_attr (x : option mapping_frame) : M (gmap string Z) :=
  match x with
  | Some df => mret (to_dict df)
  | None => raise AttributeError
  end.

(** The block under [if eval_model:] (it occurs twice in [__init__], once
    per way of obtaining the indexed splits). *)
Definition evaluation_vocab (a : args) (d : splits ndarray) : option eval_vocab :=
  if eval_model a then
    let data :=
      match valid_set d, test_set d with
      | Some valid, Some test => train_set d ++ valid ++ test
      | _, _ => train_set d
      end in
    let c := create_constraints (train_set d) in
    Some (EvalVocab (get_er_vocab data) (get_re_vocab data) (get_ee_vocab data) c.1 c.2)
  else None.

(** The block under [if self.valid_set is not None:] and its twin for the
    test split. *)
Definition index_optional_split (a : args) (which : split) (name : string)
    (x : option frame) (e2i r2i : gmap string Z) : M (option ndarray) :=
  match x with
  | Some rows =>
      serialize_if_path (path_for_serialization a) (StrTriples rows)
        ("/" +:+ name +:+ "_df.gzip");;
      idx ← index_triples which rows e2i r2i;
      serialize_if_path (path_for_serialization a) (IdxTriples idx)
        ("/idx_" +:+ name +:+ "_df.gzip");;
      dataset_sanity_checking which idx (size e2i) (size r2i);;
      mret (Some (numpy_data_type_changer idx (max (size e2i) (size r2i))))
  | None => mret None
  end.

(** [len(df)], [df.to_dict()[column]] and [df.values] of a file read back. *)
Definition table_len (t : table) : nat :=
  match t with
  | StrTriples rows => length rows
  | IdxTriples rows => length rows
  | Mapping _ rows => length rows
  end.

Definition column_dict (column : string) (t : table) : M (gmap string Z) :=
  match t with
  | Mapping c rows =>
      if decide (c = column) then mret (to_dict rows) else raise (KeyError column)
  | _ => raise (KeyError column)
  end.

(** Only files written as indexed splits are read back as such; a file of
    another shape is reported as a [ValueError]. *)
Definition table_values (t : table) : M ndarray :=
  match t with
  | IdxTriples rows => mret rows
  | _ => raise (ValueError "not an indexed triple table")
  end.

Definition deserialize (storage_path : string) : M KG :=
  e ← read_parquet (storage_path +:+ "/entity_to_idx.gzip");
  let num_entities := table_len e in
  r ← read_parquet (storage_path +:+ "/relation_to_idx.gzip");
  let num_relations := table_len r in
  entity_to_idx ← column_dict "entity" e;
  relation_to_idx ← column_dict "relation" r;
  train ← (t ← read_parquet (storage_path +:+ "/idx_train_df.gzip"); table_values t);
  valid ← try_except_FileNotFoundError
            (t ← read_parquet (storage_path +:+ "/idx_valid_df.gzip");
             v ← table_values t; mret (Some v))
            (mret None);
  test ← try_except_FileNotFoundError
           (t ← read_parquet (storage_path +:+ "/idx_test_df.gzip");
            v ← table_values t; mret (Some v))
           (mret None);
  mret (MkKG num_entities num_relations entity_to_idx relation_to_idx
          (Splits train valid test) None).

(** [KG.__init__], lines 80-140: load, augment, obtain the two vocabularies
    and index the training split. A training split that was not found is
    [None]; every later statement that touches it fails, which is reported
    here once the three loads are done. *)
Definition load_and_index_train (a : args)
    : M (splits frame * gmap string Z * gmap string Z * ndarray) :=
  '(train, valid, test) ← load_read_process a;
  train ← match train with
          | Some t => mret t
          | None => raise AttributeError
          end;
  d ← apply_reciprical_or_noise a (Splits train valid test);
  match entity_to_idx_arg a, relation_to_idx_arg a with
  | None, None =>
      '(d, e_df, r_df) ← sequential_vocabulary_construction a d;
      let e2i := to_dict e_df in
      let r2i := to_dict r_df in
      train ← index_triples Train (train_set d) e2i r2i;
      serialize_if_path (path_for_serialization a) (IdxTriples train)
        "/idx_train_df.gzip";;
      mret (d, e2i, r2i, train)
  | e_df, r_df =>
      e2i ← to_dict_attr e_df;
      r2i ← to_dict_attr r_df;
      train ← index_triples Train (train_set d) e2i r2i;
      mret (d, e2i, r2i, train)
  end.

(** [KG.__init__], lines 142-197: cast and check the training split, index
    and check the other splits, build the evaluation multi-maps. *)
Definition check_and_index_others (a : args) (d : splits frame)
    (e2i r2i : gmap string Z) (train : ndarray) : M KG :=
  let ne := size e2i in
  let nr := size r2i in
  let train := numpy_data_type_changer train (max ne nr) in
  dataset_sanity_checking Train train ne nr;;
  valid ← index_optional_split a Valid "valid" (valid_set d) e2i r2i;
  test ← index_optional_split a Test "test" (test_set d) e2i r2i;
  let d := Splits train valid test in
  mret (MkKG ne nr e2i r2i d (evaluation_vocab a d)).

(** [KG.__init__]. *)
Definition KG_init (a : args) : M KG :=
  match deserialize_flag a with
  | None =>
      '(d, e2i, r2i, train) ← load_and_index_train a;
      check_and_index_others a d e2i r2i train
  | Some storage_path =>
      kg ← deserialize storage_path;
      mret (MkKG (num_entities kg) (num_relations kg) (entity_to_idx kg)
              (relation_to_idx kg) (data kg) (evaluation_vocab a (data kg)))
  end.

End KG.

(** ** Vocabulary of the statements *)

(** [vocab] gives each string of [l] the number of distinct strings that
    precede its first occurrence in [l], and nothing else an id. *)
Definition first_seen_ids (l : list string) (vocab : gmap string Z) : Prop :=
  ∀ x k, vocab !! x = Some k ↔
         ∃ pre post, l = pre ++ x :: post ∧ (x ∉ pre) ∧
                     k = Z.of_nat (size (list_to_set pre : gset string)).

(** The ids of [vocab] are exactly [0, ..., size vocab - 1], each used once. *)
Definition dense_ids (vocab : gmap string Z) : Prop :=
  (∀ x y k, vocab !! x = Some k → vocab !! y = Some k → x = y) ∧
  (∀ k, (∃ x, vocab !! x = Some k) ↔ (0 ≤ k < Z.of_nat (size vocab))%Z).

Definition in_bounds (ne nr : nat) (arr : ndarray) : Prop :=
  ∀ r, r ∈ arr →
       (0 ≤ subject r < Z.of_nat ne)%Z ∧ (0 ≤ object r < Z.of_nat ne)%Z ∧
       (0 ≤ relation r < Z.of_nat nr)%Z.

(** The strings in entity position, and in relation position, of a frame. *)
Definition is_entity_of (x : string) (rows : frame) : Prop :=
  ∃ r, r ∈ rows ∧ (x = subject r ∨ x = object r).

Definition is_relation_of (x : string) (rows : frame) : Prop :=
  ∃ r, r ∈ rows ∧ x = relation r.

Definition present {A} (s : split) (d : splits A) : Prop :=
  match s with
  | Train => True
  | Valid => is_Some (valid_set d)
  | Test => is_Some (test_set d)
  end.


(** What the storage directory may hold for an optional split: nothing, or
    an indexed split. *)
Definition absent_or_indexed (f : option table) : Prop :=
  match f with
  | None | Some (IdxTriples _) => True
  | Some _ => False
  end.

Definition stored_split (f : option table) : option ndarray :=
  match f with
  | Some (IdxTriples rows) => Some rows
  | _ => None
  end.

(** Row [r'] is row [r] with each string replaced by its id. *)
Definition indexes (e2i r2i : gmap string Z) (r : triple string)
    (r' : triple Z) : Prop :=
  e2i !! subject r = Some (subject r') ∧
  r2i !! relation r = Some (relation r') ∧
  e2i !! object r = Some (object r').

(** The files after the block for an optional split: with a storage
    location and a split that is present, the raw and the indexed split
    have been written. *)
Definition written_optional (path : option string) (name : string)
    (x : option frame) (idx : option ndarray)
    (fs : gmap string table) : gmap string table :=
  match path, x, idx with
  | Some p, Some rows, Some i =>
      <[p +:+ ("/idx_" +:+ name +:+ "_df.gzip") := IdxTriples i]>
        (<[p +:+ ("/" +:+ name +:+ "_df.gzip") := StrTriples rows]> fs)
  | _, _, _ => fs
  end.

(** [d'] is what pruning returns on what augmentation returns on the
    loaded splits (neither result depends on the files or on the steps taken
    so far). *)
Definition preprocessed (recip : frame → frame)
    (noise : frame → QArith_base.Q → frame) (a : args)
    (loaded d' : splits frame) : Prop :=
  ∃ d1 w1 w2 w3 w4,
    apply_reciprical_or_noise recip noise a loaded w1 = (inr d1, w2) ∧
    remove_triples_from_train_with_condition a d1 w3 = (inr d', w4).

(** The files a run of [KG.__init__] may write under the storage location
    [p]. *)
Definition storage_paths (p : string) : list string :=
  [p +:+ "/entity_to_idx.gzip"; p +:+ "/relation_to_idx.gzip";
   p +:+ "/idx_train_df.gzip";
   p +:+ "/valid_df.gzip"; p +:+ "/idx_valid_df.gzip";
   p +:+ "/test_df.gzip"; p +:+ "/idx_test_df.gzip"].

(** What [deserialize] finds for an optional split after a run that wrote
    [idx] (if anything) into a directory that held [before]. *)
Definition left_in_storage (idx : option ndarray) (before : option table)
    : option table :=
  match idx with
  | Some i => Some (IdxTriples i)
  | None => before
  end.

(** The three loads with which [load_read_process] starts. *)
Definition loads (dir : string) : list step :=
  [load_data (dir +:+ "/train"); load_data (dir +:+ "/valid");
   load_data (dir +:+ "/test")].

(** The same arguments with another [min_freq_for_vocab]. *)
Definition with_min_freq (t : option Z) (a : args) : args :=
  Args (data_dir a) (deserialize_flag a) (multi_cores_at_preprocessing a)
    (add_reciprical a) (eval_model a) (read_only_few a)
    (sample_triples_ratio a) (path_for_serialization a) (add_noise_rate a)
    t (entity_to_idx_arg a) (relation_to_idx_arg a).


(** [sat Q m]: a run of [m] only adds steps, and the added steps and the
    outcome satisfy [Q]. *)
Definition sat {A} (Q : ∀ A, list step → exn + A → Prop) (m : M A) : Prop :=
  ∀ w, ∃ new, steps (m w).2 = steps w ++ new ∧ Q A new (m w).1.

(** Every added step satisfies [P]. *)
Definition only (P : step → Prop) : ∀ A, list step → exn + A → Prop :=
  λ A new _, Forall P new.


(** ** Concrete inputs used to exercise the definitions *)

Module Demo.

Definition T := @Triple string.

Definition train : frame := [T "a" "r" "b"; T "c" "r" "c"; T "c" "r" "c"].
Definition valid : frame := [T "a" "r" "c"].
Definition test : frame := [T "b" "q" "a"].

(** A data directory ["d"] with a train and a valid split and no test split,
    and a directory ["full"] with all three. *)
Definition loader (p : string) (_ : option nat) (_ : option QArith_base.Q)
    : option frame :=
  if decide (p = "d/train") then Some train
  else if decide (p = "d/valid") then Some valid
  else if decide (p = "full/train") then Some train
  else if decide (p = "full/valid") then Some valid
  else if decide (p = "full/test") then Some test
  else None.

Definition recip (f : frame) : frame :=
  f ++ ((λ r, Triple (object r) (relation r +:+ "_inverse") (subject r)) <$> f).

Definition noise (f : frame) (_ : QArith_base.Q) : frame := f ++ take 1 f.

Definition KG_init := KG_init F_contiguous loader recip noise.

Definition empty_world : world := World ∅ [].

(** Evaluation requested, serialization to ["out"], no pruning. *)
Definition plain_args (dir : string) : args :=
  Args (Some dir) None false false true None None (Some "out") None None None None.

(** As [plain_args "d"], with minimum frequency 1. *)
Definition pruning_args : args :=
  Args (Some "d") None false false true None None (Some "out") None (Some 1%Z)
    None None.

(** As [plain_args "d"], without a storage location. *)
Definition no_storage_args : args :=
  Args (Some "d") None false false true None None None None None None None.

(** Vocabularies supplied by the caller, and a minimum frequency. *)
Definition supplied_args : args :=
  Args (Some "d") None false true true None None None None (Some 1%Z)
    (Some [("a", 0%Z); ("b", 1%Z); ("c", 2%Z)])
    (Some [("r", 0%Z); ("r_inverse", 1%Z)]).

(** A storage directory holding the vocabularies and the indexed training
    split only. *)
Definition stored : world :=
  World (<["s/entity_to_idx.gzip" := Mapping "entity" [("a", 0%Z); ("b", 1%Z)]]>
         (<["s/relation_to_idx.gzip" := Mapping "relation" [("r", 0%Z)]]>
         (<["s/idx_train_df.gzip" := IdxTriples [Triple 0%Z 0%Z 1%Z]]> ∅))) [].

Definition deserialize_args : args :=
  Args None (Some "s") false false true None None None None None None None.

End Demo.

End KnowledgeGraph.

Module Executer.

(** ** Scores and tensors *)

(** A prediction is a float; only the order of the scores matters for a
    rank, so a finite score is represented by an integer on a fixed scale
    ([Fin 0] is [0.0]) and [-np.Inf] by [NegInf]. *)
Inductive score := NegInf | Fin (x : Z).

Definition score_leb (a b : score) : bool :=
  match a, b with
  | NegInf, _ => true
  | Fin _, NegInf => false
  | Fin x, Fin y => bool_decide (x ≤ y)%Z
  end.

Definition score_le (a b : score) : Prop := score_leb a b = true.
Definition score_lt (a b : score) : Prop := score_leb b a = false.

#[global] Instance score_le_dec a b : Decision (score_le a b).
Proof. unfold score_le. apply _. Defined.

#[global] Instance score_lt_dec a b : Decision (score_lt a b).
Proof. unfold score_lt. apply _. Defined.

Inductive exn :=
  | IndexError
  | ValueError (msg : string)
  | UnboundLocalError (name : string)
  | ConfigurationError (msg : string).

Abbreviation res := (sum exn).

#[global] Instance res_ret : MRet res := λ A a, inr a.
#[global] Instance res_bind : MBind res :=
  λ A B f m, match m with inl e => inl e | inr a => f a end.

(** [t[i]] and [t[i].item()] *)
Definition item (t : list score) (i : nat) : res score :=
  match t !! i with
  | Some x => mret x
  | None => inl IndexError
  end.

(** [t[idxs] = x] for a list of positions [idxs] *)
Definition index_put (t : list score) (idxs : list nat) (x : score)
    : res (list score) :=
  if decide (Forall (λ i, i < length t) idxs)
  then mret (foldr (λ i acc, <[i := x]> acc) t idxs)
  else inl IndexError.

(** [t[i] = x] *)
Definition setitem (t : list score) (i : nat) (x : score) : res (list score) :=
  if decide (i < length t) then mret (<[i := x]> t) else inl IndexError.

(** [np.where(sort_idxs == o)[0][0]] *)
Fixpoint where_first (o : nat) (sort_idxs : list nat) : res nat :=
  match sort_idxs with
  | [] => inl IndexError
  | i :: rest =>
      if decide (i = o) then mret 0
      else (k ← where_first o rest; mret (S k))
  end.

(** The score at a position of a row (positions are always in range where
    this is used). *)
Definition score_at (t : list score) (i : nat) : score :=
  default NegInf (t !! i).

(** Along [l], the scores of [t] never increase. *)
Definition descending (t : list score) (l : list nat) : Prop :=
  StronglySorted (λ a b, score_le (score_at t b) (score_at t a)) l.

(** What [torch.sort(t, descending=True)] may return as indices: a
    rearrangement of all positions along which the scores do not increase.
    The order among equal scores is not fixed. *)
Definition is_sort_descending (t : list score) (sort_idxs : list nat) : Prop :=
  sort_idxs ≡ₚ seq 0 (length t) ∧ descending t sort_idxs.

(** One such sort: insertion, equal scores in position order. *)
Fixpoint insert_descending (t : list score) (i : nat) (l : list nat) : list nat :=
  match l with
  | [] => [i]
  | j :: l' =>
      if score_leb (score_at t j) (score_at t i)
      then i :: j :: l'
      else j :: insert_descending t i l'
  end.

Definition stable_sort_descending (t : list score) : list nat :=
  foldr (insert_descending t) [] (seq 0 (length t)).

(** ** The parts of the dataset and of the model that evaluation reads *)

Abbreviation id_triple := (nat * nat * nat)%type.

Record dataset := Dataset {
  num_entities : nat;
  num_relations : nat;
  (** [get_er_idx_vocab()[(s, p)]], [get_po_idx_vocab()[(p, o)]] and
      [get_ee_idx_vocab()[(a, b)]] *)
  er_idx_vocab : nat * nat → list nat;
  po_idx_vocab : nat * nat → list nat;
  ee_idx_vocab : nat * nat → list nat;
  is_valid_test_available : bool;
  val_set_idx : list id_triple;
  test_set_idx : list id_triple;
  train_set_idx : list id_triple
}.

Record kge_model := Model {
  name : string;
  (** the score of one triple *)
  forward_triples : nat → nat → nat → Z;
  (** the row of scores for one pair of ids *)
  forward_k_vs_all : nat → nat → list Z
}.

Section Evaluation.

Variable torch_sort : list score → list nat.

(** The filtering of one row followed by the lookup of the target's
    position: the body shared by the two rankings of [evaluate_lp] (with
    [mask = -np.Inf]) and by the rows of [evaluate_lp_k_vs_all] (with
    [mask = 0.0]). The result is the position counted from zero. *)
Definition filtered_position (mask : score) (predictions : list score)
    (filt : list nat) (target : nat) : res nat :=
  target_value ← item predictions target;
  predictions ← index_put predictions filt mask;
  predictions ← setitem predictions target target_value;
  let sort_idxs := torch_sort predictions in
  where_first target sort_idxs.

(** One iteration of the loop of [evaluate_lp]: the filtered ranks of the
    head and of the tail, after step 4 has added one to each. *)
Definition evaluate_lp_triple (d : dataset) (m : kge_model) (t : id_triple)
    : res (nat * nat) :=
  let '(s, p, o) := t in
  let all_entities := seq 0 (num_entities d) in
  let predictions_tails := (λ e, Fin (forward_triples m s p e)) <$> all_entities in
  let predictions_heads := (λ e, Fin (forward_triples m e p o)) <$> all_entities in
  let filt_tails := er_idx_vocab d (s, p) in
  filt_tail_entity_rank ← filtered_position NegInf predictions_tails filt_tails o;
  let filt_heads := po_idx_vocab d (p, o) in
  filt_head_entity_rank ← filtered_position NegInf predictions_heads filt_heads s;
  mret (filt_head_entity_rank + 1, filt_tail_entity_rank + 1).

(** [evaluate_lp] up to the list of ranks; the reported MRR and Hits@N are
    floating-point averages over these ranks. *)
Fixpoint evaluate_lp (d : dataset) (m : kge_model) (triple_idx : list id_triple)
    : res (list (nat * nat)) :=
  match triple_idx with
  | [] => mret []
  | t :: rest =>
      r ← evaluate_lp_triple d m t;
      rs ← evaluate_lp d m rest;
      mret (r :: rs)
  end.

(** One row of [evaluate_lp_k_vs_all]: the value appended to [ranks]. Rows
    are scored independently, so the split into batches is not kept. *)
Definition evaluate_lp_k_vs_all_row (d : dataset) (m : kge_model)
    (form_of_labelling : string) (t : id_triple) : res nat :=
  let '(e1, r, e2) := t in
  if decide (form_of_labelling = "RelationPrediction") then
    let predictions := Fin <$> forward_k_vs_all m e1 e2 in
    let filt := ee_idx_vocab d (e1, r) in
    rank ← filtered_position (Fin 0) predictions filt r;
    mret (rank + 1)
  else
    let predictions := Fin <$> forward_k_vs_all m e1 r in
    let filt := er_idx_vocab d (e1, r) in
    rank ← filtered_position (Fin 0) predictions filt e2;
    mret (rank + 1).

Fixpoint evaluate_lp_k_vs_all (d : dataset) (m : kge_model)
    (form_of_labelling : string) (triple_idx : list id_triple) : res (list nat) :=
  match triple_idx with
  | [] => mret []
  | t :: rest =>
      r ← evaluate_lp_k_vs_all_row d m form_of_labelling t;
      rs ← evaluate_lp_k_vs_all d m form_of_labelling rest;
      mret (r :: rs)
  end.

End Evaluation.

(** ** Hits@N of [evaluate_lp] *)

(** What the computation of the reported numbers can raise. *)
Inductive metric_exn := KeyError (hits_level : nat) | ZeroDivisionError.

(** [I] for one triple with ranks [r = (head, tail)] and one level. *)
Definition hits_increment (r : nat * nat) (hits_level : nat) : nat :=
  (if decide (r.1 ≤ hits_level) then 1 else 0)
  + (if decide (r.2 ≤ hits_level) then 1 else 0).

(** The loop [for hits_level in range(1, 11)] for one triple:
    [hits.setdefault(hits_level, []).append(I)] when [I > 0]. *)
Definition record_hits (hits : gmap nat (list nat)) (r : nat * nat)
    : gmap nat (list nat) :=
  foldl (λ hits hits_level,
           let I := hits_increment r hits_level in
           if decide (0 < I)
           then <[hits_level := default [] (hits !! hits_level) ++ [I]]> hits
           else hits)
    hits (seq 1 10).

(** [sum(hits[hits_level])] *)
Definition sum_hits (hits : gmap nat (list nat)) (hits_level : nat)
    : metric_exn + nat :=
  match hits !! hits_level with
  | Some l => inr (sum_list l)
  | None => inl (KeyError hits_level)
  end.

(** What [evaluate_lp] does with the ranks after the loop, up to the
    divisions by [float(len(triple_idx) * 2)]: the result holds the
    numerators of H@1, H@3 and H@10. The mean reciprocal rank is computed
    first, and its division fails when there is no triple. *)
Definition evaluate_lp_hits (ranks : list (nat * nat))
    : metric_exn + (nat * nat * nat) :=
  let hits := foldl record_hits ∅ ranks in
  if decide (ranks = []) then inl ZeroDivisionError
  else
    match sum_hits hits 1 with
    | inl e => inl e
    | inr hit_1 =>
        match sum_hits hits 3 with
        | inl e => inl e
        | inr hit_3 =>
            match sum_hits hits 10 with
            | inl e => inl e
            | inr hit_10 => inr (hit_1, hit_3, hit_10)
            end
        end
    end.

(** ** Batches *)

(** [targets[idx, ids] = 1] on a row of zeros: the row is kept as the
    positions that hold a one. *)
Definition put_ones (row : list bool) (ids : list nat) : res (list bool) :=
  if decide (Forall (λ i, i < length row) ids)
  then mret (foldr (λ i acc, <[i := true]> acc) row ids)
  else inl IndexError.

(** The loop of [get_batch_1_to_N] over the keys of the batch;
    [er_vocab[pair]] is a lookup that may fail. *)
Fixpoint multi_hot_rows {K} (er_vocab : K → res (list nat)) (output_dim : nat)
    (batch : list K) : res (list (list bool)) :=
  match batch with
  | [] => mret []
  | key :: rest =>
      ids ← er_vocab key;
      row ← put_ones (replicate output_dim false) ids;
      rows ← multi_hot_rows er_vocab output_dim rest;
      mret (row :: rows)
  end.

(** [get_batch_1_to_N]: the slice [er_vocab_pairs[idx:idx + batch_size]]
    and its targets. *)
Definition get_batch_1_to_N {K} (batch_size : nat)
    (er_vocab : K → res (list nat)) (er_vocab_pairs : list K)
    (idx output_dim : nat) : res (list K * list (list bool)) :=
  let batch := take batch_size (drop idx er_vocab_pairs) in
  targets ← multi_hot_rows er_vocab output_dim batch;
  mret (batch, targets).

(** ** Construction of [Execute] and the training procedure *)

Record args := Args {
  path_dataset_folder : string;
  add_reciprical : bool;
  storage_path : string;
  model : string;
  scoring_technique : string;
  negative_sample_ratio : Z;
  batch_size : nat;
  num_folds_for_cv : nat
}.

(** The expensive or externally visible steps of a run, in order. *)
Inductive event :=
  | build_dataset (path : string)
  | create_experiment_folder (folder_name : string)
  | create_trainer
  | fit
  | evaluate (info : string)
  | store_model.

Definition E (A : Type) : Type := list event → (exn + A) * list event.

#[global] Instance E_ret : MRet E := λ A a log, (inr a, log).
#[global] Instance E_bind : MBind E :=
  λ A B f m log, match m log with
                 | (inl e, log') => (inl e, log')
                 | (inr a, log') => f a log'
                 end.

Definition throw {A} (e : exn) : E A := λ log, (inl e, log).
Definition emit (ev : event) : E unit := λ log, (inr (), log ++ [ev]).

Record Execute := MkExecute {
  self_args : args;
  self_dataset : dataset;
  self_scoring_technique : string;
  neg_ratio : option Z
}.

(** Modelled from the spec: [sanity_checking_with_arguments] (module
    [static_funcs]) treats a scoring technique name that is not recognized
    as a configuration error and fails with a message naming it. *)
Definition sanity_checking_with_arguments (a : args) : E unit :=
  if decide (scoring_technique a = "NegSample" ∨ scoring_technique a = "KvsAll")
  then mret ()
  else throw (ConfigurationError
                ("Invalid scoring technique: " +:+ scoring_technique a)).

Section Run.

(** [preprocesses_input_args] (module [static_funcs]), the constructor of
    the dataset and the selection of a model are taken as given. *)
Variable preprocesses_input_args : args → args.
Variable KG : string → bool → dataset.
Variable select_model : args → kge_model * string.

Definition Execute_init (a : args) : E Execute :=
  let a := preprocesses_input_args a in
  sanity_checking_with_arguments a;;
  emit (build_dataset (path_dataset_folder a));;
  let dataset := KG (path_dataset_folder a) (add_reciprical a) in
  emit (create_experiment_folder (storage_path a));;
  let a :=
    if decide (length (train_set_idx dataset) < batch_size a)
    then Args (path_dataset_folder a) (add_reciprical a) (storage_path a)
           (model a) (scoring_technique a) (negative_sample_ratio a)
           (length (train_set_idx dataset)) (num_folds_for_cv a)
    else a in
  let technique :=
    if decide (model a = "Shallom" ∧ scoring_technique a = "NegSample")
    then "KvsAll" else scoring_technique a in
  let neg_ratio :=
    if decide (technique = "KvsAll") then None
    else Some (negative_sample_ratio a) in
  mret (MkExecute a dataset technique neg_ratio).

(** [if x: evaluation(x, info)] for a list [x] *)
Definition evaluate_if_any (x : list id_triple) (info : string) : E unit :=
  match x with
  | [] => mret ()
  | _ => emit (evaluate info)
  end.

Definition training (self : Execute) : E kge_model :=
  let '(m, _) := select_model (self_args self) in
  emit fit;;
  evaluate_if_any (val_set_idx (self_dataset self))
    "Evaluation of Validation set via KvsALL";;
  evaluate_if_any (test_set_idx (self_dataset self))
    "Evaluation of Test set via KvsALL";;
  mret m.

Definition training_negative_sampling (self : Execute) : E kge_model :=
  match neg_ratio self with
  | Some r =>
      if decide (0 < r)%Z then
        emit create_trainer;;
        let '(m, _) := select_model (self_args self) in
        emit fit;;
        evaluate_if_any (val_set_idx (self_dataset self))
          "Evaluation of Validation set";;
        evaluate_if_any (test_set_idx (self_dataset self))
          "Evaluation of Test set";;
        mret m
      else throw (ValueError "assert self.neg_ratio > 0")
  | None => throw (ValueError "assert self.neg_ratio > 0")
  end.

(** The folds of [k_fold_cross_validation], one after the other; [last] is
    the model of the previous fold. *)
Fixpoint folds (self : Execute) (k : nat) (last : option kge_model)
    : E (option kge_model) :=
  match k with
  | 0 => mret last
  | S k' =>
      emit create_trainer;;
      let '(m, _) := select_model (self_args self) in
      emit fit;;
      (if decide (self_scoring_technique self = "KvsAll" ∨ name m = "Shallom")
       then emit (evaluate "Evaluation at fold via KvsALL")
       else if decide (self_scoring_technique self = "NegSample")
       then emit (evaluate "Evaluation at fold")
       else match last with
            | None => throw (UnboundLocalError "res")
            | Some _ => mret ()
            end);;
      folds self k' (Some m)
  end.

Definition k_fold_cross_validation (self : Execute) : E (option kge_model) :=
  folds self (num_folds_for_cv (self_args self)) None.

Definition train_and_eval (self : Execute) : E (option kge_model) :=
  emit create_trainer;;
  if is_valid_test_available (self_dataset self) then
    if decide (self_scoring_technique self = "NegSample") then
      m ← training_negative_sampling self; mret (Some m)
    else if decide (self_scoring_technique self = "KvsAll") then
      m ← training self; mret (Some m)
    else throw (ValueError ("Invalid argument: " +:+ self_scoring_technique self))
  else
    if decide (num_folds_for_cv (self_args self) < 2) then
      m ← training self; mret (Some m)
    else k_fold_cross_validation self.

(** [Execute(args).start()] *)
Definition run (a : args) : E unit :=
  self ← Execute_init a;
  _ ← train_and_eval self;
  emit store_model.

End Run.

(** ** Vocabulary of the statements *)

(** The candidates that take part in the ranking of [target]: every
    candidate outside [filt], and the target itself. *)
Definition not_excluded (filt : list nat) (target : nat) (e : nat) : Prop :=
  e ∉ filt ∨ e = target.

#[global] Instance not_excluded_dec filt target e : Decision (not_excluded filt target e).
Proof. unfold not_excluded. apply _. Defined.


(** Row [row] of width [output_dim] holds a one exactly at the ids that
    [er_vocab] gives for [key]. *)
Definition multi_hot {K} (er_vocab : K → res (list nat)) (output_dim : nat)
    (key : K) (row : list bool) : Prop :=
  ∃ ids, er_vocab key = inr ids ∧ length row = output_dim ∧
         ∀ j, row !! j = Some true ↔ j ∈ ids.

(** Every step that a run of [m] adds satisfies [P]. *)
Definition emits_only {A} (P : event → Prop) (m : E A) : Prop :=
  ∀ log, ∃ new, (m log).2 = log ++ new ∧ Forall P new.

(** The number of ranks, head and tail ranks together, that are at most
    [n]. *)
Definition hits_within (n : nat) (ranks : list (nat * nat)) : nat :=
  length (filter (λ r, r.1 ≤ n) ranks) + length (filter (λ r, r.2 ≤ n) ranks).

(** The ids that one iteration of [evaluate_lp] uses as positions of a row
    of [num_entities] scores. *)
Definition ids_in_range (d : dataset) (t : id_triple) : Prop :=
  t.1.1 < num_entities d ∧ t.2 < num_entities d ∧
  Forall (λ i, i < num_entities d) (er_idx_vocab d (t.1.1, t.1.2)) ∧
  Forall (λ i, i < num_entities d) (po_idx_vocab d (t.1.2, t.2)).

#[global] Instance ids_in_range_dec d t : Decision (ids_in_range d t).
Proof. unfold ids_in_range. apply _. Defined.

(** The row that is sorted: [filt] overwritten with [mask], then the
    target's own value [x] restored. *)
Definition masked_row (mask : score) (t : list score) (filt : list nat)
    (target : nat) (x : score) : list score :=
  <[target := x]> (foldr (λ i acc, <[i := mask]> acc) t filt).

(** The spec's scenario: four entities, one relation, the known triples
    (1, 0, 2) and (1, 0, 3); the query is (1, 0, ?) with true object 2. The
    model gives the four candidate objects the scores -2, -3, -1 and -5. *)
Module Demo.

Definition d : dataset :=
  Dataset 4 1
    (λ k, if decide (k = (1, 0)) then [2; 3] else [])
    (λ k, if decide (k = (0, 2)) then [1] else if decide (k = (0, 3)) then [1] else [])
    (λ _, [])
    true [] [(1, 0, 2)] [(1, 0, 2); (1, 0, 3)].

Definition scores : list Z := [-2; -3; -1; -5]%Z.

Definition m : kge_model :=
  Model "DistMult"
    (λ s p o, if decide (s = 1) then default 0%Z (scores !! o) else (-9)%Z)
    (λ e1 r, scores).

Definition args_with (technique : string) : args :=
  Args "d" false "out" "DistMult" technique 1%Z 32 0.

End Demo.

End Executer.

(** * Facts about [core/knowledge_graph.py] *)

Module KnowledgeGraphFacts.
Import KnowledgeGraph.

#[local] Set Warnings "-clear-no-such-hyp".

(** ** Running the monad *)

Lemma bind_inr {A B} (m : M A) (f : A → M B) w b w' :
  (m ≫= f) w = (inr b, w') ↔
  ∃ a w1, m w = (inr a, w1) ∧ f a w1 = (inr b, w').
Proof.
  unfold mbind, M_bind, bind. destruct (m w) as [[e|a] w1]; split.
  - intros [=].
  - intros (? & ? & [=] & _).
  - eauto.
  - by intros (? & ? & [= <- <-] & ?).
Qed.

Lemma bind_run_inr {A B} (m : M A) (f : A → M B) w a w1 :
  m w = (inr a, w1) → (m ≫= f) w = f a w1.
Proof. intros H. unfold mbind, M_bind, bind. by rewrite H. Qed.

Lemma bind_run_inl {A B} (m : M A) (f : A → M B) w e w1 :
  m w = (inl e, w1) → (m ≫= f) w = (inl e, w1).
Proof. intros H. unfold mbind, M_bind, bind. by rewrite H. Qed.

Ltac msimpl :=
  repeat (unfold mbind, M_bind, bind, mret, M_ret, ret, emit, raise; simpl).

Tactic Notation "msimpl" "in" hyp(H) :=
  repeat (unfold mbind, M_bind, bind, mret, M_ret, ret, emit, raise in H; simpl in H).

(** ** [pd.unique] and the mapping built from it *)

Lemma elem_of_unique_from seen l x :
  x ∈ unique_from seen l ↔ x ∈ l ∧ x ∉ seen.
Proof.
  revert seen. induction l as [|y l IH]; intros seen; simpl.
  - set_solver.
  - rewrite elem_of_cons. case_decide.
    + rewrite IH. naive_solver.
    + rewrite elem_of_cons, IH. destruct (decide (x = y)); set_solver.
Qed.

Lemma NoDup_unique_from seen l : NoDup (unique_from seen l).
Proof.
  revert seen. induction l as [|y l IH]; intros seen; simpl.
  - constructor.
  - case_decide; [apply IH|]. constructor; [|apply IH].
    rewrite elem_of_unique_from. set_solver.
Qed.

Lemma unique_from_app seen l1 l2 :
  unique_from seen (l1 ++ l2)
  = unique_from seen l1 ++ unique_from (list_to_set l1 ∪ seen) l2.
Proof.
  revert seen. induction l1 as [|y l1 IH]; intros seen; simpl.
  - f_equal. set_solver.
  - case_decide.
    + rewrite IH. do 2 f_equal. set_solver.
    + rewrite IH. simpl. do 3 f_equal. set_solver.
Qed.

Lemma elem_of_pd_unique l x : x ∈ pd_unique l ↔ x ∈ l.
Proof. unfold pd_unique. rewrite elem_of_unique_from. set_solver. Qed.

Lemma NoDup_pd_unique l : NoDup (pd_unique l).
Proof. apply NoDup_unique_from. Qed.

Lemma length_pd_unique l :
  length (pd_unique l) = size (list_to_set l : gset string).
Proof.
  rewrite <- (size_list_to_set (C:=gset string) (pd_unique l)) by apply NoDup_pd_unique.
  f_equal. apply set_eq. intros x.
  rewrite !elem_of_list_to_set. apply elem_of_pd_unique.
Qed.

(** The position of a string in [pd.unique(l)] is the number of distinct
    strings that precede its first occurrence in [l]. *)
Lemma pd_unique_lookup l i x :
  pd_unique l !! i = Some x ↔
  ∃ pre post, l = pre ++ x :: post ∧ (x ∉ pre) ∧
              i = size (list_to_set pre : gset string).
Proof.
  split.
  - intros Hi.
    assert (x ∈ l) as Hx.
    { apply elem_of_pd_unique. eapply list_elem_of_lookup_2; eauto. }
    apply list_elem_of_split_l in Hx as (pre & post & -> & Hpre).
    exists pre, post. split_and!; [done..|].
    unfold pd_unique in Hi. rewrite unique_from_app in Hi. simpl in Hi.
    rewrite decide_False in Hi by set_solver.
    fold (pd_unique pre) in Hi.
    rewrite <- length_pd_unique.
    pose proof (NoDup_pd_unique (pre ++ x :: post)) as Hnd.
    unfold pd_unique in Hnd. rewrite unique_from_app in Hnd. simpl in Hnd.
    rewrite decide_False in Hnd by set_solver. fold (pd_unique pre) in Hnd.
    eapply NoDup_lookup; [exact Hnd|exact Hi|].
    rewrite lookup_app_r by lia. by rewrite Nat.sub_diag.
  - intros (pre & post & -> & Hpre & ->).
    unfold pd_unique. rewrite unique_from_app. simpl.
    rewrite decide_False by set_solver.
    fold (pd_unique pre). rewrite <- length_pd_unique.
    rewrite lookup_app_r by lia. by rewrite Nat.sub_diag.
Qed.

Lemma lookup_arange n i k :
  arange n !! i = Some k ↔ k = Z.of_nat i ∧ i < n.
Proof.
  unfold arange. rewrite list_lookup_fmap, fmap_Some.
  setoid_rewrite lookup_seq. naive_solver.
Qed.

Lemma fst_mapping_of l : (mapping_of l).*1 = l.
Proof. unfold mapping_of, arange. apply fst_zip. by rewrite length_fmap, length_seq. Qed.

(** The dict of a freshly built mapping sends the string at position [i] of
    the ordered list to [i]. *)
Lemma to_dict_mapping_of l x k :
  NoDup l →
  to_dict (mapping_of l) !! x = Some k ↔ ∃ i, l !! i = Some x ∧ k = Z.of_nat i.
Proof.
  intros Hnd. unfold to_dict.
  rewrite <- elem_of_list_to_map
    by (rewrite fmap_reverse, fst_mapping_of, reverse_Permutation; done).
  rewrite elem_of_reverse, list_elem_of_lookup. unfold mapping_of.
  setoid_rewrite lookup_zip_Some. setoid_rewrite lookup_arange.
  split.
  - intros (i & ? & ? & ?). eauto.
  - intros (i & Hi & ->). exists i. split_and!; [done..|].
    by apply lookup_lt_Some in Hi.
Qed.

Lemma size_to_dict_mapping_of l :
  NoDup l → size (to_dict (mapping_of l)) = length l.
Proof.
  intros Hnd. unfold to_dict.
  rewrite map_size_list_to_map
    by (rewrite fmap_reverse, fst_mapping_of, reverse_Permutation; done).
  rewrite length_reverse. unfold mapping_of, arange.
  rewrite length_zip_with, length_fmap, length_seq. lia.
Qed.

Lemma vocabulary_first_seen l :
  first_seen_ids l (to_dict (mapping_of (pd_unique l))).
Proof.
  intros x k. rewrite to_dict_mapping_of by apply NoDup_pd_unique.
  setoid_rewrite pd_unique_lookup. split.
  - intros (i & (pre & post & ? & ? & ->) & ->). eauto 6.
  - intros (pre & post & ? & ? & ->). eauto 8.
Qed.

Lemma vocabulary_dom l x :
  is_Some (to_dict (mapping_of (pd_unique l)) !! x) ↔ x ∈ l.
Proof.
  rewrite <- elem_of_pd_unique, list_elem_of_lookup. unfold is_Some.
  setoid_rewrite to_dict_mapping_of; [|apply NoDup_pd_unique..].
  naive_solver.
Qed.

Lemma vocabulary_dense l : dense_ids (to_dict (mapping_of (pd_unique l))).
Proof.
  pose proof (NoDup_pd_unique l) as Hnd. split.
  - intros x y k. rewrite !to_dict_mapping_of by done.
    intros (i & Hi & ->) (j & Hj & Hij). apply Nat2Z.inj in Hij as ->.
    congruence.
  - intros k. rewrite size_to_dict_mapping_of by done.
    setoid_rewrite to_dict_mapping_of; [|done..]. split.
    + intros (x & i & Hi & ->). apply lookup_lt_Some in Hi. lia.
    + intros Hk. destruct (lookup_lt_is_Some_2 (pd_unique l) (Z.to_nat k)) as [x Hx]; [lia|].
      exists x, (Z.to_nat k). split; [done|lia].
Qed.

Lemma elem_of_ravel_K o (cells : list (string * string)) x :
  x ∈ ravel_K o cells ↔ ∃ c, c ∈ cells ∧ (x = c.1 ∨ x = c.2).
Proof.
  destruct o; simpl.
  - rewrite list_elem_of_In, in_flat_map. setoid_rewrite <- list_elem_of_In.
    set_unfold. naive_solver.
  - rewrite elem_of_app, !list_elem_of_fmap. naive_solver.
Qed.

Lemma is_entity_of_ravel_K o (rows : frame) x :
  x ∈ ravel_K o ((λ r, (subject r, object r)) <$> rows) ↔ is_entity_of x rows.
Proof.
  rewrite elem_of_ravel_K. unfold is_entity_of.
  setoid_rewrite list_elem_of_fmap. naive_solver.
Qed.

Lemma is_relation_of_fmap (rows : frame) x :
  x ∈ relation <$> rows ↔ is_relation_of x rows.
Proof. rewrite list_elem_of_fmap. unfold is_relation_of. naive_solver. Qed.

(** ** Frequency pruning *)

Lemma elem_of_low_frequency t l x :
  x ∈ low_frequency t l ↔ x ∈ l ∧ (Z.of_nat (occurrences x l) ≤ t)%Z.
Proof.
  unfold low_frequency, value_counts.
  rewrite list_elem_of_fmap. setoid_rewrite list_elem_of_filter.
  setoid_rewrite list_elem_of_fmap. setoid_rewrite elem_of_pd_unique.
  split.
  - intros ([y c] & -> & Hc & z & [= -> ->] & Hz). done.
  - intros [Hx Hc]. exists (x, occurrences x l). naive_solver.
Qed.

(** The training rows kept by [remove_triples_from_train_with_condition]
    for a threshold [t]. *)
Lemma remove_triples_run (a : args) (d : splits frame) (w : world) :
  (∀ t, min_freq_for_vocab a = Some t → (0 < t)%Z) →
  ∃ d' new,
    remove_triples_from_train_with_condition a d w
      = (inr d', World (files w) (steps w ++ new)) ∧
    valid_set d' = valid_set d ∧ test_set d' = test_set d ∧
    match min_freq_for_vocab a with
    | None => train_set d' = train_set d ∧ new = []
    | Some t =>
        new = [drop_infrequent] ∧
        ∀ r, r ∈ train_set d' ↔
             r ∈ train_set d ∧
             subject r ∉ low_frequency t ((subject <$> train_set d) ++ (object <$> train_set d)) ∧
             object r ∉ low_frequency t ((subject <$> train_set d) ++ (object <$> train_set d)) ∧
             relation r ∉ low_frequency t (relation <$> train_set d)
    end.
Proof.
  intros Ht. unfold remove_triples_from_train_with_condition.
  destruct (min_freq_for_vocab a) as [t|].
  - specialize (Ht t eq_refl).
    eexists _, _. unfold assert. rewrite bool_decide_true by done.
    split; [reflexivity|]. simpl. split_and!; [done..|].
    intros r. rewrite !list_elem_of_filter. naive_solver.
  - exists d, []. rewrite app_nil_r. destruct w. done.
Qed.

Section Vocabulary.
Context (values_order : mem_order).

Lemma sequential_vocabulary_construction_run (a : args) (d : splits frame)
    (w : world) path :
  path_for_serialization a = Some path →
  (∀ t, min_freq_for_vocab a = Some t → (0 < t)%Z) →
  ∃ d' new w',
    remove_triples_from_train_with_condition a d w
      = (inr d', World (files w) (steps w ++ new)) ∧
    sequential_vocabulary_construction values_order a d w
      = (inr (d',
              mapping_of (pd_unique (ravel_K values_order
                            ((λ r, (subject r, object r)) <$> concat_splits d'))),
              mapping_of (pd_unique (relation <$> concat_splits d'))), w') ∧
    steps w' = steps w ++ new ++
                 [concat_for_index (concat_splits d');
                  to_parquet_step (path +:+ "/entity_to_idx.gzip");
                  to_parquet_step (path +:+ "/relation_to_idx.gzip")].
Proof.
  intros Hpath Ht.
  destruct (remove_triples_run a d w Ht) as (d' & new & Hrun & _).
  exists d', new. eexists. split; [exact Hrun|].
  unfold sequential_vocabulary_construction.
  rewrite (bind_run_inr _ _ _ _ _ Hrun), Hpath. simpl.
  split; [reflexivity|]. simpl. by rewrite <- !app_assoc.
Qed.


Lemma is_entity_of_app x (l1 l2 : frame) :
  is_entity_of x (l1 ++ l2) ↔ is_entity_of x l1 ∨ is_entity_of x l2.
Proof. unfold is_entity_of. setoid_rewrite elem_of_app. naive_solver. Qed.

Lemma is_relation_of_app x (l1 l2 : frame) :
  is_relation_of x (l1 ++ l2) ↔ is_relation_of x l1 ∨ is_relation_of x l2.
Proof. unfold is_relation_of. setoid_rewrite elem_of_app. naive_solver. Qed.

(** C4, as the code has it. With a threshold [t > 0] and a storage
    location, pruning is the first step of vocabulary construction and
    touches the training split only: a string that occurs at most [t] times
    in entity position (relation position) of the training split is in no
    retained training triple, and it receives an entity id (relation id)
    exactly when it occurs in that position in the valid or test split. *)
Theorem pruned_strings_get_ids_only_from_valid_or_test (a : args)
    (d : splits frame) (w : world) path t :
  path_for_serialization a = Some path →
  min_freq_for_vocab a = Some t →
  (0 < t)%Z →
  ∃ d' e_df r_df w' later,
    sequential_vocabulary_construction values_order a d w
      = (inr (d', e_df, r_df), w') ∧
    steps w' = steps w ++ drop_infrequent :: concat_for_index (concat_splits d') :: later ∧
    valid_set d' = valid_set d ∧ test_set d' = test_set d ∧
    let others := default [] (valid_set d) ++ default [] (test_set d) in
    (∀ x, (Z.of_nat (occurrences x ((subject <$> train_set d) ++ (object <$> train_set d))) ≤ t)%Z →
          ¬ is_entity_of x (train_set d') ∧
          (is_Some (to_dict e_df !! x) ↔ is_entity_of x others)) ∧
    (∀ x, (Z.of_nat (occurrences x (relation <$> train_set d)) ≤ t)%Z →
          ¬ is_relation_of x (train_set d') ∧
          (is_Some (to_dict r_df !! x) ↔ is_relation_of x others)).
Proof.
  intros Hpath Hmin Hpos.
  assert (∀ t', min_freq_for_vocab a = Some t' → (0 < t')%Z) as Ht
    by (intros t'; rewrite Hmin; by intros [= <-]).
  destruct (sequential_vocabulary_construction_run a d w path Hpath Ht)
    as (d' & new & w' & Hprune & Hrun & Hsteps).
  destruct (remove_triples_run a d w Ht) as (d1 & new1 & Hprune1 & Hv & Hte & Htr).
  rewrite Hprune in Hprune1. injection Hprune1 as <- Hnew.
  apply app_inv_head in Hnew as <-.
  rewrite Hmin in Htr. destruct Htr as [-> Htr].
  eexists d', _, _, w', _. split; [exact Hrun|].
  split; [exact Hsteps|]. cbv zeta. split_and!; [done..| |]; intros x Hx.
  - assert (¬ is_entity_of x (train_set d')) as Hno.
    { intros (r & Hr & Hsub). apply Htr in Hr as (Hr & Hs & Ho & _).
      destruct Hsub as [-> | ->]; [apply Hs|apply Ho];
        apply elem_of_low_frequency; (split; [|done]);
        rewrite elem_of_app, !list_elem_of_fmap; eauto. }
    split; [done|]. rewrite vocabulary_dom, is_entity_of_ravel_K.
    unfold concat_splits. rewrite is_entity_of_app, Hv, Hte. tauto.
  - assert (¬ is_relation_of x (train_set d')) as Hno.
    { intros (r & Hr & ->). apply Htr in Hr as (Hr & _ & _ & Hrel).
      apply Hrel, elem_of_low_frequency. split; [|done].
      apply list_elem_of_fmap. eauto. }
    split; [done|]. rewrite vocabulary_dom, is_relation_of_fmap.
    unfold concat_splits. rewrite is_relation_of_app, Hv, Hte. tauto.
Qed.

End Vocabulary.


Lemma pruned_strings_get_ids_only_from_valid_or_test_witness :
  ∃ d' e_df r_df w' later,
    sequential_vocabulary_construction F_contiguous Demo.pruning_args
      (Splits Demo.train (Some Demo.valid) None) Demo.empty_world
      = (inr (d', e_df, r_df), w') ∧
    steps w' = steps Demo.empty_world
                 ++ drop_infrequent :: concat_for_index (concat_splits d') :: later.
Proof.
  destruct (pruned_strings_get_ids_only_from_valid_or_test F_contiguous Demo.pruning_args
              (Splits Demo.train (Some Demo.valid) None) Demo.empty_world "out" 1%Z)
    as (d' & e_df & r_df & w' & later & Hrun & Hsteps & _).
  - reflexivity.
  - reflexivity.
  - lia.
  - exists d', e_df, r_df, w', later. split; [exact Hrun|exact Hsteps].
Defined.

(** C4, as stated, fails: with threshold 1 the entity ["a"] occurs once in the
    training split, so every training triple that mentions it is dropped,
    yet it receives id 1 because the valid split mentions it. *)
Lemma pruned_entity_gets_id_from_valid_split :
  ∃ kg w',
    Demo.KG_init Demo.pruning_args Demo.empty_world = (inr kg, w') ∧
    min_freq_for_vocab Demo.pruning_args = Some 1%Z ∧
    occurrences "a" ((subject <$> Demo.train) ++ (object <$> Demo.train)) = 1 ∧
    drop_infrequent ∈ steps w' ∧
    entity_to_idx kg !! "a" = Some 1%Z.
Proof.
  eexists _, _. split; [vm_compute; reflexivity|].
  split_and!; [reflexivity|reflexivity| |reflexivity].
  vm_compute. set_solver.
Qed.

(** ** Reciprocal triples and noise *)

Section Augmentation.
Context (create_recipriocal_triples_from_dask : frame → frame)
        (add_noisy_triples : frame → QArith_base.Q → frame).

Local Abbreviation apply_reciprical_or_noise :=
  (apply_reciprical_or_noise create_recipriocal_triples_from_dask add_noisy_triples).

(** C5. [apply_reciprical_or_noise] never fails. It adds reciprocal triples
    to a split exactly when [add_reciprical] and [eval_model] are both set
    and the split is present, then to every such split; noise is added
    after that, to the training split alone. *)
Theorem reciprocal_iff_both_flags_then_train_noise (a : args)
    (d : splits frame) (w : world) :
  ∃ d' new,
    apply_reciprical_or_noise a d w = (inr d', World (files w) (steps w ++ new)) ∧
    let both := add_reciprical a && eval_model a in
    let augmented x := if both then create_recipriocal_triples_from_dask x else x in
    (∀ s, reciprocal s ∈ new ↔ both = true ∧ present s d) ∧
    (noisy_triples ∈ new ↔ is_Some (add_noise_rate a)) ∧
    (∀ i j s, new !! i = Some (reciprocal s) → new !! j = Some noisy_triples → i < j) ∧
    train_set d' = match add_noise_rate a with
                   | Some rate => add_noisy_triples (augmented (train_set d)) rate
                   | None => augmented (train_set d)
                   end ∧
    valid_set d' = augmented <$> valid_set d ∧
    test_set d' = augmented <$> test_set d.
Proof.
  set (both := add_reciprical a && eval_model a).
  set (augmented := λ x : frame,
         if both then create_recipriocal_triples_from_dask x else x).
  exists (Splits match add_noise_rate a with
                 | Some rate => add_noisy_triples (augmented (train_set d)) rate
                 | None => augmented (train_set d)
                 end (augmented <$> valid_set d) (augmented <$> test_set d)),
         ((if both then
                 reciprocal Train ::
                   (if valid_set d is Some _ then [reciprocal Valid] else []) ++
                   (if test_set d is Some _ then [reciprocal Test] else [])
               else []) ++
              (if add_noise_rate a is Some _ then [noisy_triples] else [])).
  unfold apply_reciprical_or_noise, KnowledgeGraph.apply_reciprical_or_noise.
  fold both. destruct w as [fs st], d as [tr va te]. cbv zeta.
  subst augmented. destruct both, va as [va|], te as [te|], (add_noise_rate a) as [rate|];
    (split; [msimpl; rewrite <- ?app_assoc, ?app_nil_r; reflexivity|]);
    simpl; (split_and!; [intros [| |]; unfold is_Some; set_solver
                        |unfold is_Some; set_solver
                        |intros i j s Hi Hj;
                         do 4 (try destruct i as [|i]);
                         do 4 (try destruct j as [|j]); simplify_eq/=; lia
                        |done..]).
Qed.

(** The same run, as an equation. *)
Lemma apply_reciprical_or_noise_run (a : args) (d : splits frame) (w : world) :
  ∃ d' new,
    apply_reciprical_or_noise a d w = (inr d', World (files w) (steps w ++ new)) ∧
    Forall (λ s, s = noisy_triples ∨ ∃ which, s = reciprocal which) new ∧
    train_set d' =
      (let augmented x :=
         if add_reciprical a && eval_model a
         then create_recipriocal_triples_from_dask x else x in
       match add_noise_rate a with
       | Some rate => add_noisy_triples (augmented (train_set d)) rate
       | None => augmented (train_set d)
       end).
Proof.
  set (both := add_reciprical a && eval_model a).
  set (augmented := λ x : frame,
         if both then create_recipriocal_triples_from_dask x else x).
  exists (Splits match add_noise_rate a with
                 | Some rate => add_noisy_triples (augmented (train_set d)) rate
                 | None => augmented (train_set d)
                 end (augmented <$> valid_set d) (augmented <$> test_set d)),
         ((if both then
             reciprocal Train ::
               (if valid_set d is Some _ then [reciprocal Valid] else []) ++
               (if test_set d is Some _ then [reciprocal Test] else [])
           else []) ++
          (if add_noise_rate a is Some _ then [noisy_triples] else [])).
  unfold apply_reciprical_or_noise, KnowledgeGraph.apply_reciprical_or_noise.
  fold both. destruct w as [fs st], d as [tr va te]. cbv zeta.
  subst augmented. destruct both, va as [va|], te as [te|],
    (add_noise_rate a) as [rate|];
    (split; [msimpl; rewrite <- ?app_assoc, ?app_nil_r; reflexivity|]);
    simpl; (split; [repeat (constructor; [solve [eauto]|]); constructor|done]).
Qed.

End Augmentation.

(** ** Properties of the steps of a run

    The rules below hold for every property [Q] of the added steps and the
    outcome that is kept by sequencing. *)


Section Rules.
Context (Q : ∀ A, list step → exn + A → Prop) (Q_step : step → Prop).
Context (Q_fail : ∀ A B n e, Q A n (inl e) → Q B n (inl e)).
Context (Q_seq : ∀ A B n1 (x : A) n2 (r : exn + B),
            Q A n1 (inr x) → Q B n2 r → Q B (n1 ++ n2) r).
Context (Q_nil : ∀ A r, Q A [] r).
Context (Q_one : ∀ A s (x : A), Q_step s → Q A [s] (inr x)).
Context (Q_recover : ∀ A B n1 path n2 (r : exn + B),
            Q A n1 (inl (FileNotFoundError path)) → Q B n2 r → Q B (n1 ++ n2) r).

Lemma sat_ret {A} (x : A) : sat Q (mret x).
Proof. intros w. exists []. by rewrite app_nil_r. Qed.

Lemma sat_raise {A} e : sat Q (raise e : M A).
Proof. intros w. exists []. by rewrite app_nil_r. Qed.

Lemma sat_emit s : Q_step s → sat Q (emit s).
Proof. intros Hs w. exists [s]. split; [done|]. by apply Q_one. Qed.

Lemma sat_bind {A B} (m : M A) (f : A → M B) :
  sat Q m → (∀ x, sat Q (f x)) → sat Q (m ≫= f).
Proof.
  intros Hm Hf w. destruct (Hm w) as (n1 & H1 & HQ1).
  unfold mbind, M_bind, bind. destruct (m w) as [[e|x] w1]; simpl in *.
  - exists n1. eauto.
  - destruct (Hf x w1) as (n2 & H2 & HQ2). exists (n1 ++ n2).
    rewrite H2, H1, app_assoc. eauto.
Qed.

Lemma sat_assert c msg : sat Q (assert c msg).
Proof. destruct c; [apply sat_ret|apply sat_raise]. Qed.

Lemma sat_str_add x y : sat Q (str_add x y).
Proof. destruct x; [apply sat_ret|apply sat_raise]. Qed.

Lemma sat_to_parquet t path :
  Q_step (to_parquet_step path) → sat Q (to_parquet t path).
Proof. intros Hs w. exists [to_parquet_step path]. split; [done|]. by apply Q_one. Qed.

Lemma sat_read_parquet path :
  Q_step (read_parquet_step path) → sat Q (read_parquet path).
Proof.
  intros Hs w. unfold read_parquet. destruct (files w !! path).
  - exists [read_parquet_step path]. split; [done|]. by apply Q_one.
  - exists []. by rewrite app_nil_r.
Qed.

Lemma sat_try_except {A} (m h : M A) :
  sat Q m → sat Q h → sat Q (try_except_FileNotFoundError m h).
Proof.
  intros Hm Hh w. destruct (Hm w) as (n1 & H1 & HQ1).
  unfold try_except_FileNotFoundError.
  destruct (m w) as [[e|x] w1] eqn:Hmw; simpl in *.
  - destruct e; eauto. destruct (Hh w1) as (n2 & H2 & HQ2).
    exists (n1 ++ n2). rewrite H2, H1, app_assoc. eauto.
  - eauto.
Qed.

Ltac sat_go :=
  repeat first
    [ match goal with
      | |- sat _ (mret _) => apply sat_ret
      | |- sat _ (raise _) => apply sat_raise
      | |- sat _ (assert _ _) => apply sat_assert
      | |- sat _ (str_add _ _) => apply sat_str_add
      | |- sat _ (mbind _ _) => apply sat_bind; [|intros]
      | |- sat _ (emit _) => apply sat_emit; auto
      | |- sat _ (to_parquet _ _) => apply sat_to_parquet; auto
      | |- sat _ (read_parquet _) => apply sat_read_parquet; auto
      | |- sat _ (try_except_FileNotFoundError _ _) => apply sat_try_except
      | |- sat _ (match ?x with _ => _ end) => destruct x
      end
    | progress cbv zeta ].

Lemma sat_index_rows rows e2i r2i : sat Q (index_rows rows e2i r2i).
Proof.
  induction rows as [|r rows IH]; simpl; [apply sat_ret|].
  unfold lookup_id. sat_go. exact IH.
Qed.

Lemma sat_index_triples which rows e2i r2i :
  Q_step (index which rows) → sat Q (index_triples which rows e2i r2i).
Proof. intros. unfold index_triples. sat_go. apply sat_index_rows. Qed.

Lemma sat_serialize_if_path path t suffix :
  (∀ p, Q_step (to_parquet_step p)) → sat Q (serialize_if_path path t suffix).
Proof. intros. unfold serialize_if_path. sat_go. Qed.





Section WithCheck.
Context (Q_check : ∀ which arr ne nr,
            sat Q (dataset_sanity_checking which arr ne nr)).

Lemma sat_index_optional_split a which name x e2i r2i :
  (∀ p, Q_step (to_parquet_step p)) → (∀ rows, Q_step (index which rows)) →
  sat Q (index_optional_split a which name x e2i r2i).
Proof.
  intros. unfold index_optional_split. sat_go;
    auto using sat_serialize_if_path, sat_index_triples.
Qed.

Lemma sat_check_and_index_others a d e2i r2i train :
  (∀ p, Q_step (to_parquet_step p)) →
  (∀ rows, Q_step (index Valid rows)) → (∀ rows, Q_step (index Test rows)) →
  sat Q (check_and_index_others a d e2i r2i train).
Proof.
  intros. unfold check_and_index_others.
  sat_go; auto using sat_index_optional_split.
Qed.



(** The same rules, keeping track of which files may be written. *)
Lemma sat_serialize_if_path_at path t suffix :
  (∀ p, path = Some p → Q_step (to_parquet_step (p +:+ suffix))) →
  sat Q (serialize_if_path path t suffix).
Proof.
  intros H. unfold serialize_if_path. destruct path as [p|]; [|apply sat_ret].
  apply sat_to_parquet. by apply H.
Qed.

Lemma sat_index_optional_split_at a which name x e2i r2i :
  (∀ p, path_for_serialization a = Some p →
        Q_step (to_parquet_step (p +:+ ("/" +:+ name +:+ "_df.gzip"))) ∧
        Q_step (to_parquet_step (p +:+ ("/idx_" +:+ name +:+ "_df.gzip")))) →
  (∀ rows, Q_step (index which rows)) →
  sat Q (index_optional_split a which name x e2i r2i).
Proof.
  intros Hp Hi. unfold index_optional_split. sat_go;
    auto using sat_index_triples;
    apply sat_serialize_if_path_at; intros p Hpath; by apply Hp.
Qed.

Lemma sat_check_and_index_others_at a d e2i r2i train :
  (∀ p, path_for_serialization a = Some p →
        Forall (λ suffix, Q_step (to_parquet_step (p +:+ suffix)))
          ["/valid_df.gzip"; "/idx_valid_df.gzip";
           "/test_df.gzip"; "/idx_test_df.gzip"]) →
  (∀ rows, Q_step (index Valid rows)) → (∀ rows, Q_step (index Test rows)) →
  sat Q (check_and_index_others a d e2i r2i train).
Proof.
  intros Hp Hv Ht. unfold check_and_index_others.
  sat_go; auto; apply sat_index_optional_split_at; auto;
    intros p Hpath; specialize (Hp p Hpath);
    rewrite !Forall_cons in Hp; simpl; tauto.
Qed.

End WithCheck.

End Rules.

(** The two instances [only P] and [aborts_on_violation]. *)


Lemma in_bounds_forallb ne nr arr :
  forallb (entity_in_bounds ne) arr && forallb (relation_in_bounds nr) arr = true
  ↔ in_bounds ne nr arr.
Proof.
  rewrite andb_true_iff, !forallb_forall. unfold in_bounds.
  setoid_rewrite <- list_elem_of_In.
  unfold entity_in_bounds, relation_in_bounds.
  setoid_rewrite andb_true_iff. setoid_rewrite bool_decide_eq_true.
  naive_solver.
Qed.

Lemma dataset_sanity_checking_run which arr ne nr w :
  ∃ r, dataset_sanity_checking which arr ne nr w
       = (r, World (files w) (steps w ++ [sanity_checking which arr ne nr])) ∧
       (in_bounds ne nr arr → r = inr ()) ∧
       (¬ in_bounds ne nr arr → ∃ msg, r = inl (AssertionError msg)).
Proof.
  pose proof (in_bounds_forallb ne nr arr) as Hb.
  unfold dataset_sanity_checking, assert. msimpl.
  destruct (forallb (entity_in_bounds ne) arr);
    [destruct (forallb (relation_in_bounds nr) arr)|]; simpl in *;
    eexists; (split; [reflexivity|]); split; intros Hin;
    try done; try (by apply Hb in Hin); try (destruct Hin; by apply Hb);
    eauto.
Qed.

Section Instances.
Context (P : step → Prop).

Lemma only_fail A B n e : only P A n (inl e) → only P B n (inl e).
Proof. done. Qed.
Lemma only_seq A B n1 (x : A) n2 (r : exn + B) :
  only P A n1 (inr x) → only P B n2 r → only P B (n1 ++ n2) r.
Proof. unfold only. rewrite Forall_app. tauto. Qed.
Lemma only_nil A r : only P A [] r.
Proof. constructor. Qed.
Lemma only_one A s (x : A) : P s → only P A [s] (inr x).
Proof. unfold only. by repeat constructor. Qed.
Lemma only_recover A B n1 (path : string) n2 (r : exn + B) :
  only P A n1 (inl (FileNotFoundError path)) → only P B n2 r →
  only P B (n1 ++ n2) r.
Proof. unfold only. rewrite Forall_app. tauto. Qed.

Lemma only_check which arr ne nr :
  P (sanity_checking which arr ne nr) →
  sat (only P) (dataset_sanity_checking which arr ne nr).
Proof.
  intros HP w. destruct (dataset_sanity_checking_run which arr ne nr w)
    as (r & -> & _). exists [sanity_checking which arr ne nr].
  split; [done|]. by repeat constructor.
Qed.

End Instances.




(** Every method only adds steps. *)
Lemma steps_extend {A} (m : M A) w r w' :
  sat (only (λ _, True)) m → m w = (r, w') → ∃ new, steps w' = steps w ++ new.
Proof. intros Hm Hrun. destruct (Hm w) as (new & Hnew & _). rewrite Hrun in Hnew. eauto. Qed.

Ltac only_true lem :=
  eapply (steps_extend _ _ _ _); [|eassumption];
  eapply lem;
  try first [ exact (only_fail (λ _, True)) | exact (only_seq (λ _, True))
            | exact (only_nil (λ _, True)) | exact (only_one (λ _, True))
            | exact (only_recover (λ _, True)) ];
  try done.

(** ** Bounds of the indexed splits *)

Lemma astype_id num x :
  (0 ≤ x < Z.of_nat num)%Z → astype (dtype_bits num) x = x.
Proof.
  intros Hx. unfold dtype_bits. repeat case_bool_decide; simpl; try done;
    apply Z.mod_small; lia.
Qed.

Lemma numpy_data_type_changer_id ne nr arr :
  in_bounds ne nr arr → numpy_data_type_changer arr (max ne nr) = arr.
Proof.
  intros Hin. unfold numpy_data_type_changer.
  rewrite <- (list_fmap_id arr) at 2. apply list_fmap_ext.
  intros i r Hr. destruct (Hin r) as (Hs & Ho & Hp).
  { eapply list_elem_of_lookup_2; eauto. }
  destruct r as [s p o]; simpl in *. rewrite !astype_id by lia. done.
Qed.

Lemma dataset_sanity_checking_inr which arr ne nr w u w' :
  dataset_sanity_checking which arr ne nr w = (inr u, w') →
  in_bounds ne nr arr ∧ steps w' = steps w ++ [sanity_checking which arr ne nr].
Proof.
  intros H. destruct (dataset_sanity_checking_run which arr ne nr w)
    as (r & Hrun & _ & Hbad).
  rewrite Hrun in H. injection H as -> <-. split; [|done].
  apply in_bounds_forallb.
  destruct (forallb (entity_in_bounds ne) arr && forallb (relation_in_bounds nr) arr)
    eqn:Hb; [done|].
  destruct Hbad as [msg [=]]. rewrite <- in_bounds_forallb. by rewrite Hb.
Qed.

Lemma index_optional_split_inr a which name x e2i r2i w res w' :
  index_optional_split a which name x e2i r2i w = (inr res, w') →
  ∃ new, steps w' = steps w ++ new ∧
    match res with
    | None => x = None
    | Some idx =>
        is_Some x ∧ in_bounds (size e2i) (size r2i) idx ∧
        sanity_checking which idx (size e2i) (size r2i) ∈ new
    end.
Proof.
  intros H. unfold index_optional_split in H. destruct x as [rows|].
  - apply bind_inr in H as (u1 & w1 & H1 & H).
    apply bind_inr in H as (idx & w2 & H2 & H).
    apply bind_inr in H as (u3 & w3 & H3 & H).
    apply bind_inr in H as (u4 & w4 & H4 & H).
    injection H as <- <-.
    apply dataset_sanity_checking_inr in H4 as [Hin H4].
    assert (∃ n1, steps w1 = steps w ++ n1) as [n1 Hn1]
      by only_true sat_serialize_if_path.
    assert (∃ n2, steps w2 = steps w1 ++ n2) as [n2 Hn2]
      by only_true sat_index_triples.
    assert (∃ n3, steps w3 = steps w2 ++ n3) as [n3 Hn3]
      by only_true sat_serialize_if_path.
    exists (n1 ++ n2 ++ n3 ++ [sanity_checking which idx (size e2i) (size r2i)]).
    rewrite H4, Hn3, Hn2, Hn1, <- !app_assoc. split; [done|].
    rewrite numpy_data_type_changer_id by done.
    split_and!; [by eexists|done|set_solver].
  - injection H as <- <-. exists []. by rewrite app_nil_r.
Qed.

Lemma check_and_index_others_inr a d e2i r2i train w kg w' :
  check_and_index_others a d e2i r2i train w = (inr kg, w') →
  ∃ nv nt,
    steps w' = steps w ++
      [sanity_checking Train (train_set (data kg)) (size e2i) (size r2i)]
      ++ nv ++ nt ∧
    num_entities kg = size e2i ∧ num_relations kg = size r2i ∧
    entity_to_idx kg = e2i ∧ relation_to_idx kg = r2i ∧
    in_bounds (size e2i) (size r2i) (train_set (data kg)) ∧
    match valid_set (data kg) with
    | None => valid_set d = None
    | Some v => is_Some (valid_set d) ∧ in_bounds (size e2i) (size r2i) v ∧
                sanity_checking Valid v (size e2i) (size r2i) ∈ nv
    end ∧
    match test_set (data kg) with
    | None => test_set d = None
    | Some v => is_Some (test_set d) ∧ in_bounds (size e2i) (size r2i) v ∧
                sanity_checking Test v (size e2i) (size r2i) ∈ nt
    end ∧
    evaluation kg = evaluation_vocab a (data kg).
Proof.
  intros H. unfold check_and_index_others in H. cbv zeta in H.
  apply bind_inr in H as (u & w1 & H1 & H).
  apply bind_inr in H as (valid & w2 & H2 & H).
  apply bind_inr in H as (test & w3 & H3 & H).
  injection H as <- <-.
  apply dataset_sanity_checking_inr in H1 as [Hin H1].
  apply index_optional_split_inr in H2 as (nv & Hnv & Hvalid).
  apply index_optional_split_inr in H3 as (nt & Hnt & Htest).
  exists nv, nt. simpl. rewrite Hnt, Hnv, H1, <- !app_assoc.
  split_and!; done.
Qed.

Section Pipeline.
Context (values_order : mem_order)
        (load_data_parallel :
           string → option nat → option QArith_base.Q → option frame)
        (create_recipriocal_triples_from_dask : frame → frame)
        (add_noisy_triples : frame → QArith_base.Q → frame).

Local Abbreviation KG_init :=
  (KG_init values_order load_data_parallel
     create_recipriocal_triples_from_dask add_noisy_triples).


(** C2, as the code has it. When evaluation is requested, the multi-maps
    are built from train, valid and test together if both the valid and the
    test split are present, and from the training split alone otherwise;
    the constraints come from the training split. When evaluation is not
    requested they are not built. *)
Theorem evaluation_vocab_from_all_splits_when_both_present (a : args)
    (w : world) kg w' :
  KG_init a w = (inr kg, w') →
  if eval_model a then
    ∃ ev rows,
      evaluation kg = Some ev ∧
      er_vocab ev = get_er_vocab rows ∧
      re_vocab ev = get_re_vocab rows ∧
      ee_vocab ev = get_ee_vocab rows ∧
      (domain_constraints_per_rel ev, range_constraints_per_rel ev)
        = create_constraints (train_set (data kg)) ∧
      match valid_set (data kg), test_set (data kg) with
      | Some valid, Some test => rows = train_set (data kg) ++ valid ++ test
      | _, _ => rows = train_set (data kg)
      end
  else evaluation kg = None.
Proof.
  intros Hrun.
  assert (evaluation kg = evaluation_vocab a (KnowledgeGraph.data kg)) as ->.
  { unfold KnowledgeGraph.KG_init in Hrun.
    destruct (deserialize_flag a) as [storage_path|].
    - apply bind_inr in Hrun as (kg0 & w1 & _ & H2). by injection H2 as <- _.
    - apply bind_inr in Hrun as ([[[d e2i] r2i] train] & w1 & _ & H2).
      by apply check_and_index_others_inr in H2 as (? & ? & ? & ? & ? & ? & ? & ? & ? & ? & ?). }
  unfold evaluation_vocab. destruct (eval_model a); [|done].
  eexists _, _. split_and!; [reflexivity..| |].
  - reflexivity.
  - by destruct (valid_set (data kg)), (test_set (data kg)).
Qed.

(** *** Caller-supplied vocabularies *)

Lemma load_read_process_run (a : args) (w : world) dir :
  data_dir a = Some dir →
  load_read_process load_data_parallel a w
  = (inr (load_data_parallel (dir +:+ "/train") (read_only_few a)
            (sample_triples_ratio a),
          load_data_parallel (dir +:+ "/valid") None None,
          load_data_parallel (dir +:+ "/test") None None),
     World (files w)
       (steps w ++ [load_data (dir +:+ "/train"); load_data (dir +:+ "/valid");
                    load_data (dir +:+ "/test")])).
Proof.
  intros Hdir. unfold load_read_process. rewrite Hdir. msimpl.
  by rewrite <- !app_assoc.
Qed.

Lemma index_rows_run rows e2i r2i w :
  ∃ res, index_rows rows e2i r2i w = (res, w).
Proof.
  induction rows as [|r rows [res IH]]; simpl; [by eexists|].
  unfold lookup_id. msimpl.
  destruct (e2i !! subject r); [|by eexists].
  destruct (r2i !! relation r); [|by eexists].
  destruct (e2i !! object r); [|by eexists].
  rewrite IH. destruct res; by eexists.
Qed.

Lemma load_and_index_train_supplied (a : args) (w : world) e r dir t :
  entity_to_idx_arg a = Some e →
  relation_to_idx_arg a = Some r →
  data_dir a = Some dir →
  load_data_parallel (dir +:+ "/train") (read_only_few a) (sample_triples_ratio a)
    = Some t →
  let augmented x :=
    if add_reciprical a && eval_model a
    then create_recipriocal_triples_from_dask x else x in
  let handed :=
    match add_noise_rate a with
    | Some rate => add_noisy_triples (augmented t) rate
    | None => augmented t
    end in
  ∃ res augmentation,
    load_and_index_train values_order load_data_parallel
      create_recipriocal_triples_from_dask add_noisy_triples a w
    = (res, World (files w)
              (steps w ++ [load_data (dir +:+ "/train");
                           load_data (dir +:+ "/valid");
                           load_data (dir +:+ "/test")]
                 ++ augmentation ++ [index Train handed])) ∧
    Forall (λ s, s = noisy_triples ∨ ∃ which, s = reciprocal which) augmentation.
Proof.
  intros He Hr Hdir Hload augmented handed.
  unfold load_and_index_train.
  rewrite (bind_run_inr _ _ _ _ _ (load_read_process_run a w dir Hdir)).
  rewrite Hload, He, Hr.
  set (w1 := World _ _).
  destruct (apply_reciprical_or_noise_run create_recipriocal_triples_from_dask
              add_noisy_triples a
              (Splits t (load_data_parallel (dir +:+ "/valid") None None)
                 (load_data_parallel (dir +:+ "/test") None None)) w1)
    as (d' & augmentation & Hrun & Hfa & Htrain).
  subst augmented handed. simpl in Htrain.
  msimpl. unfold mbind, M_bind, bind, index_triples in *. rewrite Hrun. msimpl.
  rewrite Htrain.
  match goal with
  | |- context [index_rows ?x ?e2i ?r2i ?w2] =>
      destruct (index_rows_run x e2i r2i w2) as [res Hres]
  end.
  unfold mbind, M_bind, bind in *. rewrite Hres.
  exists (match res with
          | inl e => inl e
          | inr idx => inr (d', to_dict e, to_dict r, idx)
          end), augmentation.
  split; [|done]. subst w1. simpl. rewrite <- !app_assoc.
  by destruct res.
Qed.

(** C10. When both vocabularies are supplied and the data is loaded (not
    deserialized), a run never drops infrequent triples, whatever
    [min_freq_for_vocab] is: the only training frame handed to indexing is
    the loaded one after reciprocal augmentation and noise, and changing
    [min_freq_for_vocab] changes nothing of the run. *)
Theorem supplied_vocabularies_skip_pruning (a : args) (w : world) e r dir t :
  deserialize_flag a = None →
  entity_to_idx_arg a = Some e →
  relation_to_idx_arg a = Some r →
  data_dir a = Some dir →
  load_data_parallel (dir +:+ "/train") (read_only_few a) (sample_triples_ratio a)
    = Some t →
  let augmented x :=
    if add_reciprical a && eval_model a
    then create_recipriocal_triples_from_dask x else x in
  let handed :=
    match add_noise_rate a with
    | Some rate => add_noisy_triples (augmented t) rate
    | None => augmented t
    end in
  (∃ new,
     steps (KG_init a w).2 = steps w ++ new ∧
     drop_infrequent ∉ new ∧
     index Train handed ∈ new ∧
     (∀ input, index Train input ∈ new → input = handed)) ∧
  (∀ t', KG_init (with_min_freq t' a) w = KG_init a w).
Proof.
  intros Hdes He Hr Hdir Hload augmented handed. split.
  - destruct (load_and_index_train_supplied a w e r dir t He Hr Hdir Hload)
      as (res & augmentation & Hrun & Hfa).
    fold augmented in Hrun. fold handed in Hrun.
    unfold KnowledgeGraph.KG_init. rewrite Hdes.
    unfold mbind at 1. unfold M_bind, bind. rewrite Hrun.
    set (P := λ s : step, s ≠ drop_infrequent ∧ ∀ input, s ≠ index Train input).
    assert (Forall P augmentation) as HPa.
    { eapply Forall_impl; [exact Hfa|]. intros s [->|[which ->]]; by split. }
    assert (∀ new2, Forall P new2 →
              let new := [load_data (dir +:+ "/train"); load_data (dir +:+ "/valid");
                          load_data (dir +:+ "/test")]
                           ++ augmentation ++ [index Train handed] ++ new2 in
              drop_infrequent ∉ new ∧ index Train handed ∈ new ∧
              ∀ input, index Train input ∈ new → input = handed) as Hall.
    { intros new2 HP2 new. subst new.
      rewrite Forall_forall in HPa, HP2. unfold P in HPa, HP2. split_and!.
      - rewrite !elem_of_app, !elem_of_cons, elem_of_nil. naive_solver.
      - rewrite !elem_of_app, !elem_of_cons. naive_solver.
      - intros input. rewrite !elem_of_app, !elem_of_cons, elem_of_nil.
        naive_solver. }
    destruct res as [err|[[[d e2i] r2i] idx]].
    + eexists. split; [reflexivity|].
      specialize (Hall [] (Forall_nil_2 _)). simpl in Hall. exact Hall.
    + set (w1 := World _ _).
      assert (∀ which arr ne nr,
                sat (only P) (dataset_sanity_checking which arr ne nr)) as Hcheck
        by (intros; by apply only_check).
      destruct (sat_check_and_index_others (only P) P (only_fail P) (only_seq P)
                  (only_nil P) (only_one P) Hcheck
                  a d e2i r2i idx) with (w := w1) as (new2 & Hnew2 & HP2);
        try (intros; by split).
      eexists. split.
      * rewrite Hnew2. subst w1. simpl. rewrite <- !app_assoc. reflexivity.
      * specialize (Hall new2 HP2). simpl in Hall. simpl.
        rewrite <- ?app_assoc. simpl. exact Hall.
  - intros t'. destruct a. simpl in *. subst. reflexivity.
Qed.

(** *** Deserialization *)

(** C7. When the storage directory holds the two vocabularies and the
    indexed training split, [deserialize] returns, and so does
    [KG.__init__] with that [deserialize_flag]: a valid or test file that
    is missing leaves that split [None] without an exception, and
    [num_entities] and [num_relations] are the numbers of rows of the two
    vocabulary files, whatever optional split is missing. *)
Theorem deserialize_missing_optional_split (a : args) (w : world) p e r t :
  deserialize_flag a = Some p →
  files w !! (p +:+ "/entity_to_idx.gzip") = Some (Mapping "entity" e) →
  files w !! (p +:+ "/relation_to_idx.gzip") = Some (Mapping "relation" r) →
  files w !! (p +:+ "/idx_train_df.gzip") = Some (IdxTriples t) →
  absent_or_indexed (files w !! (p +:+ "/idx_valid_df.gzip")) →
  absent_or_indexed (files w !! (p +:+ "/idx_test_df.gzip")) →
  ∃ kg0 kg w',
    deserialize p w = (inr kg0, w') ∧
    KG_init a w = (inr kg, w') ∧
    data kg = data kg0 ∧
    num_entities kg = length e ∧ num_entities kg0 = length e ∧
    num_relations kg = length r ∧ num_relations kg0 = length r ∧
    entity_to_idx kg = to_dict e ∧ relation_to_idx kg = to_dict r ∧
    train_set (data kg) = t ∧
    valid_set (data kg) = stored_split (files w !! (p +:+ "/idx_valid_df.gzip")) ∧
    test_set (data kg) = stored_split (files w !! (p +:+ "/idx_test_df.gzip")) ∧
    (files w !! (p +:+ "/idx_valid_df.gzip") = None → valid_set (data kg) = None) ∧
    (files w !! (p +:+ "/idx_test_df.gzip") = None → test_set (data kg) = None).
Proof.
  intros Hdes He Hr Ht Hv Hte.
  assert (∃ kg0 w',
            deserialize p w = (inr kg0, w') ∧
            num_entities kg0 = length e ∧ num_relations kg0 = length r ∧
            entity_to_idx kg0 = to_dict e ∧ relation_to_idx kg0 = to_dict r ∧
            train_set (data kg0) = t ∧
            valid_set (data kg0)
              = stored_split (files w !! (p +:+ "/idx_valid_df.gzip")) ∧
            test_set (data kg0)
              = stored_split (files w !! (p +:+ "/idx_test_df.gzip")))
    as (kg0 & w' & Hrun & Hne & Hnr & He2i & Hr2i & Htrain & Hvalid & Htest).
  { unfold deserialize, read_parquet, try_except_FileNotFoundError.
    destruct (files w !! (p +:+ "/idx_valid_df.gzip")) as [[| |]|] eqn:Hv';
      try done;
      destruct (files w !! (p +:+ "/idx_test_df.gzip")) as [[| |]|] eqn:Hte';
      try done;
      repeat (msimpl; first [rewrite He|rewrite Hr|rewrite Ht
                            |rewrite Hv'|rewrite Hte']);
      msimpl; eexists _, _; (split; [reflexivity|done]). }
  exists kg0, (MkKG (num_entities kg0) (num_relations kg0) (entity_to_idx kg0)
                 (relation_to_idx kg0) (data kg0)
                 (evaluation_vocab a (data kg0))), w'.
  split; [done|]. split.
  { unfold KnowledgeGraph.KG_init. rewrite Hdes.
    by rewrite (bind_run_inr _ _ _ _ _ Hrun). }
  simpl. rewrite Hvalid, Htest.
  split_and!; try done; by intros ->.
Qed.

(** *** Serialization without a storage location *)

(** With no storage location and no supplied vocabulary, vocabulary
    construction fails on the path of the entity mapping. *)
Lemma sequential_vocabulary_construction_without_path (a : args)
    (d : splits frame) (w : world) :
  path_for_serialization a = None →
  (∀ t, min_freq_for_vocab a = Some t → (0 < t)%Z) →
  ∃ w', sequential_vocabulary_construction values_order a d w
        = (inl TypeError, w') ∧
        ∀ path, to_parquet_step path ∈ steps w' → to_parquet_step path ∈ steps w.
Proof.
  intros Hpath Ht.
  destruct (remove_triples_run a d w Ht) as (d' & new & Hrun & _ & _ & Hnew).
  unfold sequential_vocabulary_construction.
  rewrite (bind_run_inr _ _ _ _ _ Hrun), Hpath. msimpl.
  eexists. split; [reflexivity|]. simpl. intros path.
  rewrite !elem_of_app, !elem_of_cons, elem_of_nil.
  destruct (min_freq_for_vocab a); destruct Hnew as [? ?]; subst;
    set_solver.
Qed.

End Pipeline.


Lemma evaluation_vocab_from_all_splits_when_both_present_witness :
  ∃ kg w',
    Demo.KG_init (Demo.plain_args "full") Demo.empty_world = (inr kg, w') ∧
    ∃ ev, evaluation kg = Some ev.
Proof.
  eexists _, _. split; [vm_compute; reflexivity|].
  pose proof (evaluation_vocab_from_all_splits_when_both_present F_contiguous
                Demo.loader Demo.recip Demo.noise (Demo.plain_args "full")
                Demo.empty_world _ _ eq_refl) as H.
  simpl in H. destruct H as (ev & rows & Hev & _). exists ev. exact Hev.
Defined.

(** C2, as stated, fails: with a valid split and no test split, evaluation
    requested, the valid split is indexed and kept, yet [er_vocab] is built
    from the training split alone: the object 1 of the valid triple
    (0, 0, 1) is not among the known objects of the pair (0, 0). *)
Lemma lone_valid_split_left_out_of_evaluation_vocab :
  ∃ kg w' valid ev objects,
    Demo.KG_init (Demo.plain_args "d") Demo.empty_world = (inr kg, w') ∧
    eval_model (Demo.plain_args "d") = true ∧
    valid_set (data kg) = Some valid ∧
    Triple 0%Z 0%Z 1%Z ∈ valid ∧
    evaluation kg = Some ev ∧
    er_vocab ev !! (0%Z, 0%Z) = Some objects ∧ 1%Z ∉ objects ∧
    er_vocab ev ≠ get_er_vocab (concat_splits (data kg)).
Proof.
  eexists _, _, _, _, _. split; [vm_compute; reflexivity|].
  split_and!; [reflexivity|reflexivity| |reflexivity|vm_compute; reflexivity| |].
  - vm_compute. set_solver.
  - apply (proj1 (bool_decide_eq_false _)). vm_compute. reflexivity.
  - intros H. apply (f_equal (λ m, m !! (0%Z, 0%Z))) in H.
    vm_compute in H. discriminate.
Qed.

Lemma supplied_vocabularies_skip_pruning_witness :
  ∃ new,
    steps (Demo.KG_init Demo.supplied_args Demo.empty_world).2
      = steps Demo.empty_world ++ new ∧
    drop_infrequent ∉ new ∧
    index Train (Demo.recip Demo.train) ∈ new.
Proof.
  destruct (supplied_vocabularies_skip_pruning F_contiguous Demo.loader
              Demo.recip Demo.noise Demo.supplied_args Demo.empty_world
              [("a", 0%Z); ("b", 1%Z); ("c", 2%Z)]
              [("r", 0%Z); ("r_inverse", 1%Z)] "d" Demo.train)
    as [(new & Hnew & Hdrop & Hin & _) _]; try reflexivity.
  exists new. split; [exact Hnew|]. split; [exact Hdrop|exact Hin].
Defined.

Lemma deserialize_missing_optional_split_witness :
  ∃ kg w',
    Demo.KG_init Demo.deserialize_args Demo.stored = (inr kg, w') ∧
    num_entities kg = 2 ∧ num_relations kg = 1 ∧
    valid_set (data kg) = None ∧ test_set (data kg) = None.
Proof.
  destruct (deserialize_missing_optional_split F_contiguous Demo.loader
              Demo.recip Demo.noise Demo.deserialize_args Demo.stored "s"
              [("a", 0%Z); ("b", 1%Z)] [("r", 0%Z)] [Triple 0%Z 0%Z 1%Z])
    as (kg0 & kg & w' & _ & Hrun & _ & Hne & _ & Hnr & _ & _ & _ & _ & _ & _
        & Hv & Ht); try reflexivity; try exact I.
  exists kg, w'. split; [exact Hrun|].
  split; [exact Hne|]. split; [exact Hnr|].
  split; [apply Hv|apply Ht]; reflexivity.
Defined.

(** C8, at the failing input: no storage location, vocabularies built in the
    run. The run loads the three splits and then ends in a [TypeError],
    raised where the path of the entity mapping is put together; nothing was
    written and no split was indexed. *)
Theorem no_storage_location_aborts_vocabulary_construction :
  Demo.KG_init Demo.no_storage_args Demo.empty_world
  = (inl TypeError,
     World ∅ [load_data "d/train"; load_data "d/valid"; load_data "d/test";
              concat_for_index (Demo.train ++ Demo.valid)]).
Proof. vm_compute. reflexivity. Qed.

(** * Further facts about [core/knowledge_graph.py] *)

(** ** Pruning *)

(** Pruning only removes training rows: what is kept is a sublist of the
    training split, in the same order; the valid and test splits and the
    files are untouched; without a threshold nothing changes at all. *)
Theorem pruning_keeps_a_sublist_of_train (a : args) (d d' : splits frame)
    (w w' : world) :
  remove_triples_from_train_with_condition a d w = (inr d', w') →
  train_set d' `sublist_of` train_set d ∧
  length (train_set d') ≤ length (train_set d) ∧
  valid_set d' = valid_set d ∧ test_set d' = test_set d ∧
  files w' = files w ∧
  (min_freq_for_vocab a = None → d' = d ∧ w' = w).
Proof.
  intros H. unfold remove_triples_from_train_with_condition in H.
  destruct (min_freq_for_vocab a) as [t|].
  - unfold assert in H. destruct (bool_decide (0 < t)%Z); msimpl in H; [|done].
    injection H as <- <-. simpl.
    assert (∀ (P Q R : triple string → Prop)
              `{∀ x, Decision (P x)} `{∀ x, Decision (Q x)} `{∀ x, Decision (R x)}
              (l : frame), filter R (filter Q (filter P l)) `sublist_of` l) as Hsub.
    { intros. etrans; [apply sublist_filter|]. etrans; apply sublist_filter. }
    split_and!; [apply Hsub|apply sublist_length, Hsub|done..].
  - injection H as <- <-. done.
Qed.

Lemma pruning_keeps_a_sublist_of_train_witness :
  [Demo.T "c" "r" "c"; Demo.T "c" "r" "c"] `sublist_of` Demo.train.
Proof.
  apply (pruning_keeps_a_sublist_of_train Demo.pruning_args
           (Splits Demo.train (Some Demo.valid) None)
           (Splits [Demo.T "c" "r" "c"; Demo.T "c" "r" "c"] (Some Demo.valid) None)
           Demo.empty_world (World ∅ [drop_infrequent])).
  vm_compute. reflexivity.
Defined.

(** ** The order of the ids *)

Lemma first_seen_prefix_order (l1 l2 : list string) vocab x y i j :
  first_seen_ids (l1 ++ l2) vocab →
  x ∈ l1 → y ∉ l1 →
  vocab !! x = Some i → vocab !! y = Some j → (i < j)%Z.
Proof.
  intros Hfs Hx Hy Hi Hj.
  apply Hfs in Hi as (px & qx & Hlx & Hpx & ->).
  apply Hfs in Hj as (py & qy & Hly & Hpy & ->).
  assert (length px < length l1) as Hlenx.
  { apply list_elem_of_lookup in Hx as [k Hk].
    pose proof (lookup_lt_Some _ _ _ Hk) as Hklt.
    destruct (decide (k < length px)) as [Hlt|]; [|lia].
    exfalso. apply Hpx.
    assert ((l1 ++ l2) !! k = Some x) as Hk' by (by rewrite lookup_app_l).
    rewrite Hlx, lookup_app_l in Hk' by done.
    eapply list_elem_of_lookup_2; eauto. }
  assert (length l1 ≤ length py) as Hleny.
  { destruct (decide (length l1 ≤ length py)) as [|Hn]; [done|]. exfalso.
    apply Hy.
    assert ((l1 ++ l2) !! length py = Some y) as Hk.
    { rewrite Hly, lookup_app_r by lia. by rewrite Nat.sub_diag. }
    rewrite lookup_app_l in Hk by lia. eapply list_elem_of_lookup_2; eauto. }
  assert (px ++ [x] `prefix_of` py) as [rest Hrest].
  { exists (drop (S (length px)) py).
    assert (take (S (length px)) py = px ++ [x]) as <-.
    { assert (take (S (length px)) (l1 ++ l2) = px ++ [x]) as <-.
      { rewrite Hlx. rewrite take_app_ge by lia.
        replace (S (length px) - length px) with 1 by lia. done. }
      rewrite Hly. by rewrite take_app_le by lia. }
    by rewrite take_drop. }
  assert (size (list_to_set px : gset string) < size (list_to_set py : gset string));
    [|lia].
  apply (Nat.lt_le_trans _ (size ({[x]} ∪ list_to_set px : gset string))).
  - rewrite size_union by set_solver. rewrite size_singleton. lia.
  - apply subseteq_size. rewrite Hrest. set_solver.
Qed.

Lemma sequential_vocabulary_construction_inr order (a : args)
    (d d' : splits frame) e_df r_df (w w' : world) :
  sequential_vocabulary_construction order a d w = (inr (d', e_df, r_df), w') →
  (∃ w1, remove_triples_from_train_with_condition a d w = (inr d', w1)) ∧
  is_Some (path_for_serialization a) ∧
  e_df = mapping_of (pd_unique (ravel_K order
                       ((λ r, (subject r, object r)) <$> concat_splits d'))) ∧
  r_df = mapping_of (pd_unique (relation <$> concat_splits d')).
Proof.
  intros H. unfold sequential_vocabulary_construction in H.
  apply bind_inr in H as (d1 & w1 & H1 & H).
  destruct (path_for_serialization a) as [path|]; msimpl in H; [|done].
  injection H as <- <- <- _. eauto.
Qed.

(** Ids follow the order of the concatenation train, valid, test. A
    relation of the (pruned) training split has a smaller id than one that
    first occurs in the valid or test split, and a relation of the training
    or valid split a smaller id than one that first occurs in the test
    split. For entities the order is that of the cells in memory: read row
    after row, an entity of the training split comes before one that is not;
    read column after column, every entity that is the subject of some
    triple (of any split) comes before every entity that never is. *)
Theorem ids_follow_the_concatenation_order order (a : args)
    (d d' : splits frame) e_df r_df (w w' : world) :
  sequential_vocabulary_construction order a d w = (inr (d', e_df, r_df), w') →
  (∀ x y i j,
     is_relation_of x (train_set d') → ¬ is_relation_of y (train_set d') →
     to_dict r_df !! x = Some i → to_dict r_df !! y = Some j → (i < j)%Z) ∧
  (∀ x y i j,
     is_relation_of x (train_set d' ++ default [] (valid_set d')) →
     ¬ is_relation_of y (train_set d' ++ default [] (valid_set d')) →
     to_dict r_df !! x = Some i → to_dict r_df !! y = Some j → (i < j)%Z) ∧
  (order = C_contiguous →
   ∀ x y i j,
     is_entity_of x (train_set d') → ¬ is_entity_of y (train_set d') →
     to_dict e_df !! x = Some i → to_dict e_df !! y = Some j → (i < j)%Z) ∧
  (order = F_contiguous →
   ∀ x y i j,
     x ∈ subject <$> concat_splits d' → y ∉ subject <$> concat_splits d' →
     to_dict e_df !! x = Some i → to_dict e_df !! y = Some j → (i < j)%Z).
Proof.
  intros H. apply sequential_vocabulary_construction_inr in H
    as (_ & _ & -> & ->).
  split_and!.
  - intros x y i j Hx Hy. apply (first_seen_prefix_order
      (relation <$> train_set d')
      (relation <$> (default [] (valid_set d') ++ default [] (test_set d')))).
    + rewrite <- fmap_app. apply vocabulary_first_seen.
    + by apply is_relation_of_fmap.
    + by rewrite is_relation_of_fmap.
  - intros x y i j Hx Hy. apply (first_seen_prefix_order
      (relation <$> (train_set d' ++ default [] (valid_set d')))
      (relation <$> default [] (test_set d'))).
    + rewrite <- fmap_app, <- app_assoc. apply vocabulary_first_seen.
    + by apply is_relation_of_fmap.
    + by rewrite is_relation_of_fmap.
  - intros -> x y i j Hx Hy. apply (first_seen_prefix_order
      (ravel_K C_contiguous ((λ r, (subject r, object r)) <$> train_set d'))
      (ravel_K C_contiguous ((λ r, (subject r, object r)) <$>
         (default [] (valid_set d') ++ default [] (test_set d'))))).
    + simpl. rewrite <- flat_map_app, <- fmap_app. apply vocabulary_first_seen.
    + by apply is_entity_of_ravel_K.
    + by rewrite is_entity_of_ravel_K.
  - intros -> x y i j Hx Hy. apply (first_seen_prefix_order
      (subject <$> concat_splits d') (object <$> concat_splits d')); [|done..].
    assert (ravel_K F_contiguous
              ((λ r, (subject r, object r)) <$> concat_splits d')
            = (subject <$> concat_splits d') ++ (object <$> concat_splits d'))
      as E by (simpl; by rewrite <- !list_fmap_compose).
    rewrite <- E. apply vocabulary_first_seen.
Qed.

Lemma ids_follow_the_concatenation_order_witness :
  ∃ i j,
    to_dict (mapping_of (pd_unique
               (relation <$> Demo.train ++ Demo.valid ++ Demo.test))) !! "r" = Some i ∧
    to_dict (mapping_of (pd_unique
               (relation <$> Demo.train ++ Demo.valid ++ Demo.test))) !! "q" = Some j ∧
    (i < j)%Z.
Proof.
  exists 0%Z, 1%Z. split; [reflexivity|]. split; [reflexivity|].
  refine (proj1 (ids_follow_the_concatenation_order F_contiguous
                   (Demo.plain_args "full")
                   (Splits Demo.train (Some Demo.valid) (Some Demo.test))
                   (Splits Demo.train (Some Demo.valid) (Some Demo.test))
                   _ _ Demo.empty_world
                   (World (<["out/relation_to_idx.gzip" := _]>
                          (<["out/entity_to_idx.gzip" := _]> ∅)) _) _)
            "r" "q" 0%Z 1%Z _ _ _ _).
  - vm_compute. reflexivity.
  - exists (Demo.T "a" "r" "b"). split; [|reflexivity].
    unfold Demo.train. set_solver.
  - intros (r & Hr & Heq). unfold Demo.train in Hr.
    repeat (apply elem_of_cons in Hr as [->|Hr]; [discriminate Heq|]).
    by apply elem_of_nil in Hr.
  - reflexivity.
  - reflexivity.
Defined.

(** ** Runs of [KG.__init__] on loaded data *)

Section LoadedRuns.
Context (values_order : mem_order)
        (load_data_parallel :
           string → option nat → option QArith_base.Q → option frame)
        (create_recipriocal_triples_from_dask : frame → frame)
        (add_noisy_triples : frame → QArith_base.Q → frame).

Local Abbreviation KG_init :=
  (KG_init values_order load_data_parallel
     create_recipriocal_triples_from_dask add_noisy_triples).
Local Abbreviation load_and_index_train :=
  (load_and_index_train values_order load_data_parallel
     create_recipriocal_triples_from_dask add_noisy_triples).

(** Up to the choice between building and using supplied vocabularies. *)
Lemma load_and_index_train_prefix (a : args) (w : world) dir t0 :
  data_dir a = Some dir →
  load_data_parallel (dir +:+ "/train") (read_only_few a) (sample_triples_ratio a)
    = Some t0 →
  ∃ d1 augmentation,
    Forall (λ s, s = noisy_triples ∨ ∃ which, s = reciprocal which) augmentation ∧
    load_and_index_train a w
    = match entity_to_idx_arg a, relation_to_idx_arg a with
      | None, None =>
          '(d, e_df, r_df) ← sequential_vocabulary_construction values_order a d1;
          let e2i := to_dict e_df in
          let r2i := to_dict r_df in
          train ← index_triples Train (train_set d) e2i r2i;
          serialize_if_path (path_for_serialization a) (IdxTriples train)
            "/idx_train_df.gzip";;
          mret (d, e2i, r2i, train)
      | e_df, r_df =>
          e2i ← to_dict_attr e_df;
          r2i ← to_dict_attr r_df;
          train ← index_triples Train (train_set d1) e2i r2i;
          mret (d1, e2i, r2i, train)
      end (World (files w) (steps w ++ loads dir ++ augmentation)).
Proof.
  intros Hdir Hload. unfold load_and_index_train, KnowledgeGraph.load_and_index_train.
  rewrite (bind_run_inr _ _ _ _ _ (load_read_process_run load_data_parallel a w dir Hdir)).
  rewrite Hload.
  set (w1 := World _ _).
  destruct (apply_reciprical_or_noise_run create_recipriocal_triples_from_dask
              add_noisy_triples a
              (Splits t0 (load_data_parallel (dir +:+ "/valid") None None)
                 (load_data_parallel (dir +:+ "/test") None None)) w1)
    as (d1 & augmentation & Hrun & Hfa & _).
  exists d1, augmentation. split; [done|].
  unfold loads. rewrite (app_assoc (steps w)).
  msimpl. rewrite Hrun. subst w1. reflexivity.
Qed.

(** A threshold that is not positive is only noticed when pruning starts:
    the run has then loaded the three splits and augmented them, and ends in
    the [AssertionError] of [assert self.min_freq_for_vocab > 0]; nothing
    has been written. *)
Theorem non_positive_threshold_is_rejected_after_loading (a : args)
    (w : world) dir t0 t :
  deserialize_flag a = None →
  entity_to_idx_arg a = None → relation_to_idx_arg a = None →
  data_dir a = Some dir →
  load_data_parallel (dir +:+ "/train") (read_only_few a) (sample_triples_ratio a)
    = Some t0 →
  min_freq_for_vocab a = Some t → (t ≤ 0)%Z →
  ∃ augmentation,
    Forall (λ s, s = noisy_triples ∨ ∃ which, s = reciprocal which) augmentation ∧
    KG_init a w
    = (inl (AssertionError ""),
       World (files w) (steps w ++ loads dir ++ augmentation)).
Proof.
  intros Hdes He Hr Hdir Hload Hmin Ht.
  destruct (load_and_index_train_prefix a w dir t0 Hdir Hload)
    as (d1 & augmentation & Hfa & Hrun).
  exists augmentation. split; [done|].
  unfold KnowledgeGraph.KG_init. rewrite Hdes.
  apply bind_run_inl. rewrite Hrun, He, Hr.
  unfold sequential_vocabulary_construction,
    remove_triples_from_train_with_condition, assert.
  rewrite Hmin, bool_decide_false by lia. reflexivity.
Qed.

(** Supplying exactly one of the two vocabularies takes the branch for
    supplied vocabularies, which calls [to_dict] on the missing one: the run
    ends in an [AttributeError] once the data is loaded and augmented,
    before anything is indexed or written. *)
Theorem one_supplied_vocabulary_is_an_AttributeError (a : args)
    (w : world) dir t0 :
  deserialize_flag a = None →
  (is_Some (entity_to_idx_arg a) ∧ relation_to_idx_arg a = None) ∨
  (entity_to_idx_arg a = None ∧ is_Some (relation_to_idx_arg a)) →
  data_dir a = Some dir →
  load_data_parallel (dir +:+ "/train") (read_only_few a) (sample_triples_ratio a)
    = Some t0 →
  ∃ augmentation,
    Forall (λ s, s = noisy_triples ∨ ∃ which, s = reciprocal which) augmentation ∧
    KG_init a w
    = (inl AttributeError,
       World (files w) (steps w ++ loads dir ++ augmentation)).
Proof.
  intros Hdes Hone Hdir Hload.
  destruct (load_and_index_train_prefix a w dir t0 Hdir Hload)
    as (d1 & augmentation & Hfa & Hrun).
  exists augmentation. split; [done|].
  unfold KnowledgeGraph.KG_init. rewrite Hdes.
  apply bind_run_inl. rewrite Hrun.
  destruct Hone as [[[e ->] ->]|[-> [r ->]]]; reflexivity.
Qed.

(** With supplied vocabularies the only files a run writes are the raw and
    the indexed valid and test splits under the storage location: neither
    the vocabularies nor the indexed training split are persisted, and
    without a storage location nothing is written. *)
Theorem supplied_vocabularies_are_never_persisted (a : args) (w : world)
    e r dir t0 :
  deserialize_flag a = None →
  entity_to_idx_arg a = Some e →
  relation_to_idx_arg a = Some r →
  data_dir a = Some dir →
  load_data_parallel (dir +:+ "/train") (read_only_few a) (sample_triples_ratio a)
    = Some t0 →
  ∃ new,
    steps (KG_init a w).2 = steps w ++ new ∧
    ∀ path, to_parquet_step path ∈ new →
      ∃ p, path_for_serialization a = Some p ∧
           path ∈ [p +:+ "/valid_df.gzip"; p +:+ "/idx_valid_df.gzip";
                   p +:+ "/test_df.gzip"; p +:+ "/idx_test_df.gzip"].
Proof.
  intros Hdes He Hr Hdir Hload.
  destruct (load_and_index_train_supplied values_order load_data_parallel
              create_recipriocal_triples_from_dask add_noisy_triples
              a w e r dir t0 He Hr Hdir Hload)
    as (res & augmentation & Hrun & Hfa).
  unfold KnowledgeGraph.KG_init. rewrite Hdes.
  unfold mbind at 1. unfold M_bind, bind. rewrite Hrun.
  set (P := λ s : step, ∀ path, s = to_parquet_step path →
              ∃ p, path_for_serialization a = Some p ∧
                   path ∈ [p +:+ "/valid_df.gzip"; p +:+ "/idx_valid_df.gzip";
                           p +:+ "/test_df.gzip"; p +:+ "/idx_test_df.gzip"]).
  assert (Forall P augmentation) as HPa.
  { eapply Forall_impl; [exact Hfa|]. by intros s [->|[which ->]] path. }
  set (pre := _ ++ augmentation ++ _).
  assert (Forall P pre) as Hpre.
  { subst pre. rewrite !Forall_app. split_and!; [|done|];
      repeat constructor; by intros path. }
  assert (∀ new, Forall P new → ∀ path, to_parquet_step path ∈ new →
            ∃ p, path_for_serialization a = Some p ∧
                 path ∈ [p +:+ "/valid_df.gzip"; p +:+ "/idx_valid_df.gzip";
                         p +:+ "/test_df.gzip"; p +:+ "/idx_test_df.gzip"]) as Hall.
  { intros new Hnew path Hin. rewrite Forall_forall in Hnew.
    by apply (Hnew _ Hin). }
  destruct res as [err|[[[d e2i] r2i] idx]].
  - exists pre. split; [done|]. by apply Hall.
  - set (w1 := World _ _).
    assert (∀ which arr ne nr,
              sat (only P) (dataset_sanity_checking which arr ne nr)) as Hcheck
      by (intros; by apply only_check).
    destruct (sat_check_and_index_others_at (only P) P (only_fail P) (only_seq P)
                (only_nil P) (only_one P) Hcheck a d e2i r2i idx)
      with (w := w1) as (new2 & Hnew2 & HP2); try (by intros rows path).
    { intros p Hp. repeat constructor; intros path [= <-]; exists p;
        (split; [done|]); set_solver. }
    exists (pre ++ new2). split.
    + rewrite Hnew2. subst w1. simpl. by rewrite <- app_assoc.
    + apply Hall, Forall_app. done.
Qed.

End LoadedRuns.

Lemma non_positive_threshold_is_rejected_after_loading_witness :
  ∃ w',
    Demo.KG_init (with_min_freq (Some 0%Z) (Demo.plain_args "d")) Demo.empty_world
    = (inl (AssertionError ""), w').
Proof.
  destruct (non_positive_threshold_is_rejected_after_loading F_contiguous
              Demo.loader Demo.recip Demo.noise
              (with_min_freq (Some 0%Z) (Demo.plain_args "d"))
              Demo.empty_world "d" Demo.train 0%Z)
    as (augmentation & _ & Hrun); try reflexivity.
  eexists. exact Hrun.
Defined.

Lemma one_supplied_vocabulary_is_an_AttributeError_witness :
  ∃ w',
    Demo.KG_init
      (Args (Some "d") None false false true None None None None None
         (Some [("a", 0%Z)]) None) Demo.empty_world
    = (inl AttributeError, w').
Proof.
  destruct (one_supplied_vocabulary_is_an_AttributeError F_contiguous
              Demo.loader Demo.recip Demo.noise
              (Args (Some "d") None false false true None None None None None
                 (Some [("a", 0%Z)]) None)
              Demo.empty_world "d" Demo.train)
    as (augmentation & _ & Hrun); try reflexivity.
  - left. split; [by eexists|reflexivity].
  - eexists. exact Hrun.
Defined.

Lemma supplied_vocabularies_are_never_persisted_witness :
  ∃ new,
    steps (Demo.KG_init Demo.supplied_args Demo.empty_world).2
      = steps Demo.empty_world ++ new ∧
    ∀ path, to_parquet_step path ∉ new.
Proof.
  destruct (supplied_vocabularies_are_never_persisted F_contiguous Demo.loader
              Demo.recip Demo.noise Demo.supplied_args Demo.empty_world
              [("a", 0%Z); ("b", 1%Z); ("c", 2%Z)]
              [("r", 0%Z); ("r_inverse", 1%Z)] "d" Demo.train)
    as (new & Hnew & Hpaths); try reflexivity.
  exists new. split; [exact Hnew|].
  intros path Hin. destruct (Hpaths path Hin) as (p & Hp & _). discriminate Hp.
Defined.

(** ** Deserialization *)

(** [deserialize] only reads: whatever the directory holds, it takes at
    most five steps, all of them reads, and leaves every file as it was. *)
Theorem deserialize_only_reads (storage_path : string) (w : world) :
  ∃ new,
    steps (deserialize storage_path w).2 = steps w ++ new ∧
    Forall (λ s, ∃ path, s = read_parquet_step path) new ∧
    length new ≤ 5 ∧
    files (deserialize storage_path w).2 = files w.
Proof.
  unfold deserialize, read_parquet, try_except_FileNotFoundError,
    column_dict, table_values.
  msimpl.
  repeat (case_match; msimpl; simplify_eq/=);
    try (eexists; split; [rewrite <- ?app_assoc; reflexivity|];
         split_and!; [repeat constructor; eauto|simpl; lia|done]);
    try (exists []; rewrite app_nil_r; split_and!; [done|constructor|simpl; lia|done]).
Qed.

Section Deserialization.
Context (values_order : mem_order)
        (load_data_parallel :
           string → option nat → option QArith_base.Q → option frame)
        (create_recipriocal_triples_from_dask : frame → frame)
        (add_noisy_triples : frame → QArith_base.Q → frame).

Local Abbreviation KG_init :=
  (KG_init values_order load_data_parallel
     create_recipriocal_triples_from_dask add_noisy_triples).

(** Unlike a missing valid or test file, a missing vocabulary file or a
    missing indexed training split is fatal: the [FileNotFoundError] of the
    first missing file reaches the caller of [deserialize] and of
    [KG.__init__]. *)
Theorem missing_vocabulary_or_train_file_is_fatal (a : args) (w : world) p :
  deserialize_flag a = Some p →
  files w !! (p +:+ "/entity_to_idx.gzip") = None ∨
  files w !! (p +:+ "/relation_to_idx.gzip") = None ∨
  (∃ e r,
     files w !! (p +:+ "/entity_to_idx.gzip") = Some (Mapping "entity" e) ∧
     files w !! (p +:+ "/relation_to_idx.gzip") = Some (Mapping "relation" r) ∧
     files w !! (p +:+ "/idx_train_df.gzip") = None) →
  ∃ path w',
    files w !! path = None ∧
    deserialize p w = (inl (FileNotFoundError path), w') ∧
    KG_init a w = (inl (FileNotFoundError path), w').
Proof.
  intros Hdes Hmissing.
  assert (∃ path w', files w !! path = None ∧
            deserialize p w = (inl (FileNotFoundError path), w'))
    as (path & w' & Hpath & Hrun).
  { unfold deserialize, read_parquet.
    destruct (files w !! (p +:+ "/entity_to_idx.gzip")) as [te|] eqn:He.
    - destruct (files w !! (p +:+ "/relation_to_idx.gzip")) as [tr|] eqn:Hr.
      + destruct Hmissing as [?|[?|(e & r & [= ->] & [= ->] & Ht)]]; [done..|].
        exists (p +:+ "/idx_train_df.gzip"). eexists. split; [done|].
        repeat (msimpl; first [rewrite He|rewrite Hr|rewrite Ht]).
        reflexivity.
      + exists (p +:+ "/relation_to_idx.gzip"). eexists. split; [done|].
        repeat (msimpl; first [rewrite He|rewrite Hr]). reflexivity.
    - exists (p +:+ "/entity_to_idx.gzip"). eexists. split; [done|].
      msimpl. rewrite He. reflexivity. }
  exists path, w'. split_and!; [done..|].
  unfold KnowledgeGraph.KG_init. rewrite Hdes. by apply bind_run_inl.
Qed.

End Deserialization.

Lemma missing_vocabulary_or_train_file_is_fatal_witness :
  ∃ path w',
    Demo.KG_init Demo.deserialize_args Demo.empty_world
    = (inl (FileNotFoundError path), w').
Proof.
  destruct (missing_vocabulary_or_train_file_is_fatal F_contiguous Demo.loader
              Demo.recip Demo.noise Demo.deserialize_args Demo.empty_world "s")
    as (path & w' & _ & _ & Hrun); [reflexivity|by left|].
  exists path, w'. exact Hrun.
Defined.

(** ** Runs that build their vocabularies *)

Lemma append_inv_head (p s1 s2 : string) : p +:+ s1 = p +:+ s2 → s1 = s2.
Proof. induction p as [|c p IH]; simpl; [done|]. intros [= H]. auto. Qed.

Lemma serialize_if_path_run path t suffix w :
  serialize_if_path path t suffix w
  = (inr (),
     World (match path with
            | Some p => <[p +:+ suffix := t]> (files w)
            | None => files w
            end)
           (steps w ++ match path with
                       | Some p => [to_parquet_step (p +:+ suffix)]
                       | None => []
                       end)).
Proof.
  destruct path; simpl; [done|]. destruct w. by rewrite app_nil_r.
Qed.

Lemma index_rows_ok rows e2i r2i w :
  Forall (λ r, is_Some (e2i !! subject r) ∧ is_Some (r2i !! relation r) ∧
               is_Some (e2i !! object r)) rows →
  ∃ idx, index_rows rows e2i r2i w = (inr idx, w) ∧
         Forall2 (indexes e2i r2i) rows idx.
Proof.
  induction 1 as [|r rows ([s Hs] & [p Hp] & [o Ho]) _ (idx & IH & Hall)]; simpl.
  - exists []. by split.
  - exists (Triple s p o :: idx). unfold lookup_id. rewrite Hs, Hp, Ho. msimpl.
    rewrite IH. split; [done|]. by constructor.
Qed.

Lemma index_rows_inr rows e2i r2i w idx w' :
  index_rows rows e2i r2i w = (inr idx, w') →
  Forall2 (indexes e2i r2i) rows idx.
Proof.
  revert idx. induction rows as [|r rows IH]; intros idx; simpl.
  - intros [= <- _]. constructor.
  - unfold lookup_id. intros H.
    destruct (e2i !! subject r) as [s|] eqn:Hs; msimpl in H; [|done].
    destruct (r2i !! relation r) as [p|] eqn:Hp; msimpl in H; [|done].
    destruct (e2i !! object r) as [o|] eqn:Ho; msimpl in H; [|done].
    destruct (index_rows_run rows e2i r2i w) as [res Hres].
    rewrite Hres in H. destruct res as [|idx']; [done|].
    injection H as <- <-. constructor; [done|]. by apply IH.
Qed.

Lemma dense_ids_range vocab x k :
  dense_ids vocab → vocab !! x = Some k → (0 ≤ k < Z.of_nat (size vocab))%Z.
Proof. intros [_ Hd] Hx. apply Hd. eauto. Qed.

Lemma indexes_in_bounds e2i r2i rows idx :
  dense_ids e2i → dense_ids r2i →
  Forall2 (indexes e2i r2i) rows idx →
  in_bounds (size e2i) (size r2i) idx.
Proof.
  intros He Hr Hall r' Hr'.
  apply list_elem_of_lookup in Hr' as [i Hi].
  destruct (Forall2_lookup_r _ _ _ _ _ Hall Hi) as (r & _ & Hs & Hp & Ho).
  pose proof (dense_ids_range _ _ _ He Hs).
  pose proof (dense_ids_range _ _ _ He Ho).
  pose proof (dense_ids_range _ _ _ Hr Hp). lia.
Qed.

Lemma index_optional_split_ok a which name x e2i r2i w :
  dense_ids e2i → dense_ids r2i →
  (∀ rows, x = Some rows →
     Forall (λ r, is_Some (e2i !! subject r) ∧ is_Some (r2i !! relation r) ∧
                  is_Some (e2i !! object r)) rows) →
  ∃ res w',
    index_optional_split a which name x e2i r2i w = (inr res, w') ∧
    option_Forall2 (Forall2 (indexes e2i r2i)) x res ∧
    files w' = written_optional (path_for_serialization a) name x res (files w).
Proof.
  intros He Hr Hcov. unfold index_optional_split. destruct x as [rows|].
  - rewrite (bind_run_inr _ _ _ _ _ (serialize_if_path_run _ _ _ _)).
    unfold index_triples. msimpl.
    match goal with
    | |- context [index_rows rows e2i r2i ?w1] =>
        destruct (index_rows_ok rows e2i r2i w1 (Hcov rows eq_refl))
          as (idx & Hidx & Hall)
    end.
    rewrite Hidx.
    pose proof (indexes_in_bounds e2i r2i rows idx He Hr Hall) as Hin.
    rewrite serialize_if_path_run.
    match goal with
    | |- context [dataset_sanity_checking which idx ?ne ?nr ?w3] =>
        destruct (dataset_sanity_checking_run which idx ne nr w3)
          as (r & Hrun & Hok & _)
    end.
    rewrite Hrun, (Hok Hin). rewrite numpy_data_type_changer_id by done.
    eexists _, _. split; [reflexivity|]. split; [by constructor|].
    simpl. by destruct (path_for_serialization a).
  - exists None, w. split; [done|]. split; [constructor|].
    by destruct (path_for_serialization a).
Qed.

Lemma check_and_index_others_ok a d e2i r2i rows idx w :
  dense_ids e2i → dense_ids r2i →
  Forall2 (indexes e2i r2i) rows idx →
  (∀ x, x ∈ [valid_set d; test_set d] → ∀ rows, x = Some rows →
     Forall (λ r, is_Some (e2i !! subject r) ∧ is_Some (r2i !! relation r) ∧
                  is_Some (e2i !! object r)) rows) →
  ∃ valid test w',
    check_and_index_others a d e2i r2i idx w
    = (inr (MkKG (size e2i) (size r2i) e2i r2i (Splits idx valid test)
              (evaluation_vocab a (Splits idx valid test))), w') ∧
    option_Forall2 (Forall2 (indexes e2i r2i)) (valid_set d) valid ∧
    option_Forall2 (Forall2 (indexes e2i r2i)) (test_set d) test ∧
    files w'
    = written_optional (path_for_serialization a) "test" (test_set d) test
        (written_optional (path_for_serialization a) "valid" (valid_set d) valid
           (files w)).
Proof.
  intros He Hr Hall Hcov. unfold check_and_index_others. cbv zeta.
  pose proof (indexes_in_bounds e2i r2i rows idx He Hr Hall) as Hin.
  rewrite numpy_data_type_changer_id by done.
  destruct (dataset_sanity_checking_run Train idx (size e2i) (size r2i) w)
    as (r & Hrun & Hok & _).
  rewrite (Hok Hin) in Hrun. rewrite (bind_run_inr _ _ _ _ _ Hrun).
  set (w1 := World _ _).
  destruct (index_optional_split_ok a Valid "valid" (valid_set d) e2i r2i w1
              He Hr) as (valid & w2 & Hv & Hvall & Hvfiles).
  { apply Hcov. set_solver. }
  rewrite (bind_run_inr _ _ _ _ _ Hv).
  destruct (index_optional_split_ok a Test "test" (test_set d) e2i r2i w2
              He Hr) as (test & w3 & Ht & Htall & Htfiles).
  { apply Hcov. set_solver. }
  rewrite (bind_run_inr _ _ _ _ _ Ht).
  exists valid, test, w3. split; [done|]. split_and!; [done..|].
  by rewrite Htfiles, Hvfiles.
Qed.

Lemma sequential_vocabulary_construction_world order (a : args)
    (d : splits frame) (w : world) p :
  path_for_serialization a = Some p →
  (∀ t, min_freq_for_vocab a = Some t → (0 < t)%Z) →
  ∃ d' new,
    remove_triples_from_train_with_condition a d w
      = (inr d', World (files w) (steps w ++ new)) ∧
    valid_set d' = valid_set d ∧ test_set d' = test_set d ∧
    let e_df := mapping_of (pd_unique (ravel_K order
                  ((λ r, (subject r, object r)) <$> concat_splits d'))) in
    let r_df := mapping_of (pd_unique (relation <$> concat_splits d')) in
    sequential_vocabulary_construction order a d w
    = (inr (d', e_df, r_df),
       World (<[p +:+ "/relation_to_idx.gzip" := Mapping "relation" r_df]>
                (<[p +:+ "/entity_to_idx.gzip" := Mapping "entity" e_df]>
                   (files w)))
         (steps w ++ new ++
            [concat_for_index (concat_splits d');
             to_parquet_step (p +:+ "/entity_to_idx.gzip");
             to_parquet_step (p +:+ "/relation_to_idx.gzip")])).
Proof.
  intros Hpath Ht.
  destruct (remove_triples_run a d w Ht) as (d' & new & Hrun & Hv & Hts & _).
  exists d', new. split_and!; [done..|]. cbv zeta.
  unfold sequential_vocabulary_construction.
  rewrite (bind_run_inr _ _ _ _ _ Hrun), Hpath. msimpl.
  by rewrite <- !app_assoc.
Qed.

Lemma covered_by_built_vocabularies order (rows all : frame) :
  rows ⊆ all →
  Forall (λ r,
    is_Some (to_dict (mapping_of (pd_unique (ravel_K order
               ((λ r, (subject r, object r)) <$> all)))) !! subject r) ∧
    is_Some (to_dict (mapping_of (pd_unique (relation <$> all))) !! relation r) ∧
    is_Some (to_dict (mapping_of (pd_unique (ravel_K order
               ((λ r, (subject r, object r)) <$> all)))) !! object r)) rows.
Proof.
  intros Hsub. apply Forall_forall. intros r Hr. apply Hsub in Hr.
  rewrite !vocabulary_dom, is_entity_of_ravel_K, is_entity_of_ravel_K,
    is_relation_of_fmap.
  unfold is_entity_of, is_relation_of. naive_solver.
Qed.

Lemma length_mapping_of l : length (mapping_of l) = length l.
Proof.
  unfold mapping_of, arange.
  rewrite length_zip_with, length_fmap, length_seq. lia.
Qed.

Lemma evaluation_vocab_ext a a' d :
  eval_model a = eval_model a' → evaluation_vocab a d = evaluation_vocab a' d.
Proof. unfold evaluation_vocab. by intros ->. Qed.

Ltac same_path :=
  match goal with
  | H : _ +:+ _ = _ +:+ _ |- _ => apply append_inv_head in H; discriminate H
  end.

Lemma stored_lookups {R1 R2} p (vs ts : option frame) (valid test : option ndarray)
    idx e_df r_df (fs : gmap string table) :
  option_Forall2 R1 vs valid → option_Forall2 R2 ts test →
  let fs' :=
    written_optional (Some p) "test" ts test
      (written_optional (Some p) "valid" vs valid
         (<[p +:+ "/idx_train_df.gzip" := IdxTriples idx]>
            (<[p +:+ "/relation_to_idx.gzip" := Mapping "relation" r_df]>
               (<[p +:+ "/entity_to_idx.gzip" := Mapping "entity" e_df]> fs)))) in
  fs' !! (p +:+ "/entity_to_idx.gzip") = Some (Mapping "entity" e_df) ∧
  fs' !! (p +:+ "/relation_to_idx.gzip") = Some (Mapping "relation" r_df) ∧
  fs' !! (p +:+ "/idx_train_df.gzip") = Some (IdxTriples idx) ∧
  fs' !! (p +:+ "/idx_valid_df.gzip")
    = left_in_storage valid (fs !! (p +:+ "/idx_valid_df.gzip")) ∧
  fs' !! (p +:+ "/idx_test_df.gzip")
    = left_in_storage test (fs !! (p +:+ "/idx_test_df.gzip")) ∧
  fs' !! (p +:+ "/valid_df.gzip")
    = from_option (Some ∘ StrTriples) (fs !! (p +:+ "/valid_df.gzip")) vs ∧
  fs' !! (p +:+ "/test_df.gzip")
    = from_option (Some ∘ StrTriples) (fs !! (p +:+ "/test_df.gzip")) ts ∧
  ∀ path, path ∉ storage_paths p → fs' !! path = fs !! path.
Proof.
  intros [v v' _|] [t t' _|]; cbv zeta; unfold written_optional, storage_paths;
    simpl; (split_and!; [..|intros path Hpath]);
    rewrite !lookup_insert; repeat case_decide; try done; try same_path;
    subst; exfalso; apply Hpath; set_solver.
Qed.

Lemma deserialize_stored p w e r t :
  files w !! (p +:+ "/entity_to_idx.gzip") = Some (Mapping "entity" e) →
  files w !! (p +:+ "/relation_to_idx.gzip") = Some (Mapping "relation" r) →
  files w !! (p +:+ "/idx_train_df.gzip") = Some (IdxTriples t) →
  absent_or_indexed (files w !! (p +:+ "/idx_valid_df.gzip")) →
  absent_or_indexed (files w !! (p +:+ "/idx_test_df.gzip")) →
  ∃ w',
    deserialize p w
    = (inr (MkKG (length e) (length r) (to_dict e) (to_dict r)
              (Splits t
                 (stored_split (files w !! (p +:+ "/idx_valid_df.gzip")))
                 (stored_split (files w !! (p +:+ "/idx_test_df.gzip"))))
              None), w').
Proof.
  intros He Hr Ht Hv Hte.
  unfold deserialize, read_parquet, try_except_FileNotFoundError.
  destruct (files w !! (p +:+ "/idx_valid_df.gzip")) as [[| |]|] eqn:Hv';
    try done;
    destruct (files w !! (p +:+ "/idx_test_df.gzip")) as [[| |]|] eqn:Hte';
    try done;
    repeat (msimpl; first [rewrite He|rewrite Hr|rewrite Ht
                          |rewrite Hv'|rewrite Hte']);
    msimpl; eexists; reflexivity.
Qed.

Section FreshRuns.
Context (values_order : mem_order)
        (load_data_parallel :
           string → option nat → option QArith_base.Q → option frame)
        (create_recipriocal_triples_from_dask : frame → frame)
        (add_noisy_triples : frame → QArith_base.Q → frame).

Local Abbreviation KG_init :=
  (KG_init values_order load_data_parallel
     create_recipriocal_triples_from_dask add_noisy_triples).
Local Abbreviation apply_reciprical_or_noise :=
  (apply_reciprical_or_noise create_recipriocal_triples_from_dask
     add_noisy_triples).

Lemma apply_reciprical_or_noise_presence a d w d' w' :
  apply_reciprical_or_noise a d w = (inr d', w') →
  (valid_set d' = None ↔ valid_set d = None) ∧
  (test_set d' = None ↔ test_set d = None).
Proof.
  unfold KnowledgeGraph.apply_reciprical_or_noise.
  destruct d as [t [v|] [ts|]]; simpl;
    destruct (add_reciprical a && eval_model a), (add_noise_rate a); msimpl;
    intros [= <- _]; simpl; done.
Qed.

(** The run that builds its vocabularies, in full: the outcome, how the
    returned splits relate to the string splits they come from, and the
    content of the storage directory afterwards. *)
Lemma fresh_run (a : args) (w : world) dir t0 p :
  deserialize_flag a = None →
  entity_to_idx_arg a = None → relation_to_idx_arg a = None →
  data_dir a = Some dir →
  load_data_parallel (dir +:+ "/train") (read_only_few a) (sample_triples_ratio a)
    = Some t0 →
  path_for_serialization a = Some p →
  (∀ t, min_freq_for_vocab a = Some t → (0 < t)%Z) →
  ∃ d' idx valid test w',
    let e_df := mapping_of (pd_unique (ravel_K values_order
                  ((λ r, (subject r, object r)) <$> concat_splits d'))) in
    let r_df := mapping_of (pd_unique (relation <$> concat_splits d')) in
    KG_init a w
    = (inr (MkKG (size (to_dict e_df)) (size (to_dict r_df))
              (to_dict e_df) (to_dict r_df) (Splits idx valid test)
              (evaluation_vocab a (Splits idx valid test))), w') ∧
    preprocessed create_recipriocal_triples_from_dask add_noisy_triples a
      (Splits t0 (load_data_parallel (dir +:+ "/valid") None None)
         (load_data_parallel (dir +:+ "/test") None None)) d' ∧
    (valid_set d' = None ↔ load_data_parallel (dir +:+ "/valid") None None = None) ∧
    (test_set d' = None ↔ load_data_parallel (dir +:+ "/test") None None = None) ∧
    Forall2 (indexes (to_dict e_df) (to_dict r_df)) (train_set d') idx ∧
    option_Forall2 (Forall2 (indexes (to_dict e_df) (to_dict r_df)))
      (valid_set d') valid ∧
    option_Forall2 (Forall2 (indexes (to_dict e_df) (to_dict r_df)))
      (test_set d') test ∧
    files w'
    = written_optional (Some p) "test" (test_set d') test
        (written_optional (Some p) "valid" (valid_set d') valid
           (<[p +:+ "/idx_train_df.gzip" := IdxTriples idx]>
              (<[p +:+ "/relation_to_idx.gzip" := Mapping "relation" r_df]>
                 (<[p +:+ "/entity_to_idx.gzip" := Mapping "entity" e_df]>
                    (files w))))).
Proof.
  intros Hdes He Hr Hdir Hload Hpath Ht.
  set (w1 := World (files w) (steps w ++ loads dir)).
  destruct (apply_reciprical_or_noise_run create_recipriocal_triples_from_dask
              add_noisy_triples a
              (Splits t0 (load_data_parallel (dir +:+ "/valid") None None)
                 (load_data_parallel (dir +:+ "/test") None None)) w1)
    as (d1 & augmentation & Haug & _).
  destruct (apply_reciprical_or_noise_presence _ _ _ _ _ Haug) as [Hpv Hpt].
  simpl in Hpv, Hpt.
  destruct (sequential_vocabulary_construction_world values_order a d1
              (World (files w1) (steps w1 ++ augmentation)) p Hpath Ht)
    as (d' & new & Hprune & Hv & Hts & Hseq).
  exists d'. cbv zeta in Hseq.
  set (e_df := mapping_of (pd_unique (ravel_K values_order
                 ((λ r, (subject r, object r)) <$> concat_splits d')))) in *.
  set (r_df := mapping_of (pd_unique (relation <$> concat_splits d'))) in *.
  assert (dense_ids (to_dict e_df)) as Hde by apply vocabulary_dense.
  assert (dense_ids (to_dict r_df)) as Hdr by apply vocabulary_dense.
  assert (∃ idx w2,
            KnowledgeGraph.load_and_index_train values_order load_data_parallel
              create_recipriocal_triples_from_dask add_noisy_triples a w
            = (inr (d', to_dict e_df, to_dict r_df, idx), w2) ∧
            Forall2 (indexes (to_dict e_df) (to_dict r_df)) (train_set d') idx ∧
            files w2
            = <[p +:+ "/idx_train_df.gzip" := IdxTriples idx]>
                (<[p +:+ "/relation_to_idx.gzip" := Mapping "relation" r_df]>
                   (<[p +:+ "/entity_to_idx.gzip" := Mapping "entity" e_df]>
                      (files w))))
    as (idx & w2 & Hlt & Hall & Hf2).
  { unfold KnowledgeGraph.load_and_index_train.
    rewrite (bind_run_inr _ _ _ _ _
               (load_read_process_run load_data_parallel a w dir Hdir)).
    rewrite Hload. fold (loads dir). fold w1.
    msimpl. rewrite Haug, He, Hr, Hseq.
    unfold index_triples. msimpl.
    match goal with
    | |- context [index_rows (train_set d') ?e ?r ?w0] =>
        destruct (index_rows_ok (train_set d') e r w0) as (idx & Hidx & Hall)
    end.
    { apply covered_by_built_vocabularies. unfold concat_splits. set_solver. }
    rewrite Hidx, Hpath. exists idx. eexists. split; [reflexivity|]. by split. }
  exists idx.
  destruct (check_and_index_others_ok a d' (to_dict e_df) (to_dict r_df)
              (train_set d') idx w2 Hde Hdr Hall)
    as (valid & test & w' & Hrest & Hvalid & Htest & Hfiles).
  { intros x Hx rows ->. apply covered_by_built_vocabularies.
    unfold concat_splits.
    apply elem_of_cons in Hx as [Hx|Hx%list_elem_of_singleton];
      rewrite <- Hx; simpl; set_solver. }
  exists valid, test, w'. cbv zeta.
  split_and!;
    [|by eexists _, _, _, _, _|by rewrite Hv|by rewrite Hts|done..
     |by rewrite Hfiles, Hpath, Hf2].
  unfold KnowledgeGraph.KG_init. rewrite Hdes.
  by rewrite (bind_run_inr _ _ _ _ _ Hlt).
Qed.

Local Ltac stored_lookups_of Hfiles Hvalid Htest H :=
  match type of Hfiles with
  | _ = written_optional (Some ?p) _ _ _ (written_optional _ _ _ _
          (<[_ := IdxTriples ?idx]>
             (<[_ := Mapping _ ?r]> (<[_ := Mapping _ ?e]> ?fs)))) =>
      pose proof (stored_lookups p _ _ _ _ idx e r fs Hvalid Htest) as H;
      cbv zeta in H; rewrite <- Hfiles in H
  end.

(** A run that builds its vocabularies, with a storage location and a
    threshold that is absent or positive, always returns: no string of the
    augmented and pruned splits is missing from the vocabularies built from
    them and no bound check fails. The returned counts are the sizes of the
    returned vocabularies, whose keys are exactly the strings of the three
    splits; and every returned split has the rows of the string split it
    comes from, in the same order and number, each string replaced by its
    id. A split is absent from the result exactly when it was not loaded. *)
Theorem fresh_run_indexes_every_row (a : args) (w : world) dir t0 p :
  deserialize_flag a = None →
  entity_to_idx_arg a = None → relation_to_idx_arg a = None →
  data_dir a = Some dir →
  load_data_parallel (dir +:+ "/train") (read_only_few a) (sample_triples_ratio a)
    = Some t0 →
  path_for_serialization a = Some p →
  (∀ t, min_freq_for_vocab a = Some t → (0 < t)%Z) →
  ∃ d' kg w',
    KG_init a w = (inr kg, w') ∧
    preprocessed create_recipriocal_triples_from_dask add_noisy_triples a
      (Splits t0 (load_data_parallel (dir +:+ "/valid") None None)
         (load_data_parallel (dir +:+ "/test") None None)) d' ∧
    num_entities kg = size (entity_to_idx kg) ∧
    num_relations kg = size (relation_to_idx kg) ∧
    (∀ x, is_Some (entity_to_idx kg !! x) ↔ is_entity_of x (concat_splits d')) ∧
    (∀ x, is_Some (relation_to_idx kg !! x) ↔ is_relation_of x (concat_splits d')) ∧
    (valid_set (data kg) = None
       ↔ load_data_parallel (dir +:+ "/valid") None None = None) ∧
    (test_set (data kg) = None
       ↔ load_data_parallel (dir +:+ "/test") None None = None) ∧
    Forall2 (indexes (entity_to_idx kg) (relation_to_idx kg))
      (train_set d') (train_set (data kg)) ∧
    option_Forall2 (Forall2 (indexes (entity_to_idx kg) (relation_to_idx kg)))
      (valid_set d') (valid_set (data kg)) ∧
    option_Forall2 (Forall2 (indexes (entity_to_idx kg) (relation_to_idx kg)))
      (test_set d') (test_set (data kg)).
Proof.
  intros Hdes He Hr Hdir Hload Hpath Ht.
  destruct (fresh_run a w dir t0 p Hdes He Hr Hdir Hload Hpath Ht)
    as (d' & idx & valid & test & w' & Hrun & Hpre & Hpv & Hpt & Htrain
        & Hvalid & Htest & _).
  cbv zeta in *. eexists d', _, w'. split; [exact Hrun|]. simpl.
  split_and!; try done.
  - intros x. by rewrite vocabulary_dom, is_entity_of_ravel_K.
  - intros x. by rewrite vocabulary_dom, is_relation_of_fmap.
  - rewrite <- Hpv. by destruct Hvalid.
  - rewrite <- Hpt. by destruct Htest.
Qed.

(** After such a run the storage location holds the two vocabularies as
    returned (with as many rows as the returned counts), the indexed
    training split as returned, and the indexed valid and test splits that
    were returned; for a split that was not loaded the file of an earlier
    run, if any, is still there. No file outside the seven of the storage
    location is touched: in particular the string training split is not
    stored. *)
Theorem fresh_run_persists_vocabularies_and_indexed_splits (a : args)
    (w : world) dir t0 p :
  deserialize_flag a = None →
  entity_to_idx_arg a = None → relation_to_idx_arg a = None →
  data_dir a = Some dir →
  load_data_parallel (dir +:+ "/train") (read_only_few a) (sample_triples_ratio a)
    = Some t0 →
  path_for_serialization a = Some p →
  (∀ t, min_freq_for_vocab a = Some t → (0 < t)%Z) →
  ∃ kg w' e_df r_df,
    KG_init a w = (inr kg, w') ∧
    files w' !! (p +:+ "/entity_to_idx.gzip") = Some (Mapping "entity" e_df) ∧
    to_dict e_df = entity_to_idx kg ∧ length e_df = num_entities kg ∧
    files w' !! (p +:+ "/relation_to_idx.gzip") = Some (Mapping "relation" r_df) ∧
    to_dict r_df = relation_to_idx kg ∧ length r_df = num_relations kg ∧
    files w' !! (p +:+ "/idx_train_df.gzip")
      = Some (IdxTriples (train_set (data kg))) ∧
    files w' !! (p +:+ "/idx_valid_df.gzip")
      = left_in_storage (valid_set (data kg))
          (files w !! (p +:+ "/idx_valid_df.gzip")) ∧
    files w' !! (p +:+ "/idx_test_df.gzip")
      = left_in_storage (test_set (data kg))
          (files w !! (p +:+ "/idx_test_df.gzip")) ∧
    (∀ path, path ∉ storage_paths p → files w' !! path = files w !! path) ∧
    files w' !! (p +:+ "/train_df.gzip") = files w !! (p +:+ "/train_df.gzip").
Proof.
  intros Hdes He Hr Hdir Hload Hpath Ht.
  destruct (fresh_run a w dir t0 p Hdes He Hr Hdir Hload Hpath Ht)
    as (d' & idx & valid & test & w' & Hrun & _ & _ & _ & _
        & Hvalid & Htest & Hfiles).
  cbv zeta in *.
  stored_lookups_of Hfiles Hvalid Htest Hsl.
  destruct Hsl as (Hfe & Hfr & Hft & Hfv & Hfte & _ & _ & Hframe).
  eexists _, w', _, _. split; [exact Hrun|]. simpl.
  split_and!; try done.
  - by rewrite length_mapping_of, size_to_dict_mapping_of
      by apply NoDup_pd_unique.
  - by rewrite length_mapping_of, size_to_dict_mapping_of
      by apply NoDup_pd_unique.
  - apply Hframe. unfold storage_paths. intros Hin.
    repeat (apply elem_of_cons in Hin as [Hin|Hin]; [same_path|]).
    by apply elem_of_nil in Hin.
Qed.

(** What a later run with [deserialize_flag] set to the storage location
    gets back from the files left by a run that built its vocabularies. *)
Lemma reload_after_fresh_run (a a' : args) (w : world) dir t0 p :
  deserialize_flag a = None →
  entity_to_idx_arg a = None → relation_to_idx_arg a = None →
  data_dir a = Some dir →
  load_data_parallel (dir +:+ "/train") (read_only_few a) (sample_triples_ratio a)
    = Some t0 →
  path_for_serialization a = Some p →
  (∀ t, min_freq_for_vocab a = Some t → (0 < t)%Z) →
  deserialize_flag a' = Some p →
  absent_or_indexed (files w !! (p +:+ "/idx_valid_df.gzip")) →
  absent_or_indexed (files w !! (p +:+ "/idx_test_df.gzip")) →
  ∃ ne nr e2i r2i idx valid test w' w'',
    let reloaded :=
      Splits idx
        (stored_split (left_in_storage valid
                         (files w !! (p +:+ "/idx_valid_df.gzip"))))
        (stored_split (left_in_storage test
                         (files w !! (p +:+ "/idx_test_df.gzip")))) in
    KG_init a w
    = (inr (MkKG ne nr e2i r2i (Splits idx valid test)
              (evaluation_vocab a (Splits idx valid test))), w') ∧
    KG_init a' w'
    = (inr (MkKG ne nr e2i r2i reloaded (evaluation_vocab a' reloaded)), w'') ∧
    (valid = None ↔ load_data_parallel (dir +:+ "/valid") None None = None) ∧
    (test = None ↔ load_data_parallel (dir +:+ "/test") None None = None).
Proof.
  intros Hdes He Hr Hdir Hload Hpath Ht Hdes' Hsv Hst.
  destruct (fresh_run a w dir t0 p Hdes He Hr Hdir Hload Hpath Ht)
    as (d' & idx & valid & test & w' & Hrun & _ & Hpv & Hpt & _
        & Hvalid & Htest & Hfiles).
  cbv zeta in *.
  stored_lookups_of Hfiles Hvalid Htest Hsl.
  destruct Hsl as (Hfe & Hfr & Hft & Hfv & Hfte & _).
  destruct (deserialize_stored p w' _ _ idx Hfe Hfr Hft) as [w'' Hback].
  { rewrite Hfv. by destruct valid. }
  { rewrite Hfte. by destruct test. }
  rewrite Hfv, Hfte in Hback.
  rewrite !length_mapping_of in Hback.
  rewrite <- !size_to_dict_mapping_of in Hback by apply NoDup_pd_unique.
  eexists _, _, _, _, idx, valid, test, w', w''.
  split; [exact Hrun|]. split.
  - unfold KnowledgeGraph.KG_init. rewrite Hdes'.
    by rewrite (bind_run_inr _ _ _ _ _ Hback).
  - split; [rewrite <- Hpv; by destruct Hvalid|rewrite <- Hpt; by destruct Htest].
Qed.

(** Round trip. When the storage location holds no indexed split of an
    earlier run for a split that is not loaded, a run that builds its
    vocabularies followed by a run that deserializes the storage location
    (with the same [eval_model]) gives the same knowledge graph: the same
    counts, vocabularies, splits and evaluation multi-maps. *)
Theorem stored_run_is_reloaded_unchanged (a a' : args) (w : world) dir t0 p :
  deserialize_flag a = None →
  entity_to_idx_arg a = None → relation_to_idx_arg a = None →
  data_dir a = Some dir →
  load_data_parallel (dir +:+ "/train") (read_only_few a) (sample_triples_ratio a)
    = Some t0 →
  path_for_serialization a = Some p →
  (∀ t, min_freq_for_vocab a = Some t → (0 < t)%Z) →
  deserialize_flag a' = Some p →
  eval_model a' = eval_model a →
  (load_data_parallel (dir +:+ "/valid") None None = None →
   files w !! (p +:+ "/idx_valid_df.gzip") = None) →
  (load_data_parallel (dir +:+ "/test") None None = None →
   files w !! (p +:+ "/idx_test_df.gzip") = None) →
  ∃ kg w' w'',
    KG_init a w = (inr kg, w') ∧ KG_init a' w' = (inr kg, w'').
Proof.
  intros Hdes He Hr Hdir Hload Hpath Ht Hdes' Heval Hsv Hst.
  destruct (load_data_parallel (dir +:+ "/valid") None None) as [lv|] eqn:Hlv;
    destruct (load_data_parallel (dir +:+ "/test") None None) as [lt|] eqn:Hlt.
  all: destruct (fresh_run a w dir t0 p Hdes He Hr Hdir Hload Hpath Ht)
    as (d' & idx & valid & test & w' & Hrun & _ & Hpv & Hpt & _
        & Hvalid & Htest & Hfiles).
  all: cbv zeta in *; rewrite ?Hlv, ?Hlt in *.
  all: stored_lookups_of Hfiles Hvalid Htest Hsl.
  all: destruct Hsl as (Hfe & Hfr & Hft & Hfv & Hfte & _).
  all: destruct Hvalid as [vs v _|]; [|pose proof (proj1 Hpv eq_refl)];
    try discriminate;
    (destruct Htest as [ts t' _|]; [|pose proof (proj1 Hpt eq_refl)]);
    try discriminate;
    try (pose proof (proj2 Hpv eq_refl); discriminate);
    try (pose proof (proj2 Hpt eq_refl); discriminate).
  all: simpl in Hfv, Hfte; rewrite ?Hsv in Hfv by done;
    rewrite ?Hst in Hfte by done.
  all: destruct (deserialize_stored p w' _ _ idx Hfe Hfr Hft) as [w'' Hback];
    [by rewrite Hfv|by rewrite Hfte|].
  all: rewrite Hfv, Hfte in Hback; simpl in Hback.
  all: rewrite !length_mapping_of in Hback.
  all: rewrite <- !size_to_dict_mapping_of in Hback by apply NoDup_pd_unique.
  all: eexists _, w', w''; (split; [exact Hrun|]).
  all: unfold KnowledgeGraph.KG_init; rewrite Hdes'.
  all: rewrite (bind_run_inr _ _ _ _ _ Hback); simpl.
  all: by rewrite (evaluation_vocab_ext a' a).
Qed.

(** A run never removes the files of an earlier run: when no test split is
    loaded and the storage location already holds an indexed test split,
    the run returns no test split, and a later run that deserializes the
    storage location returns the old one together with the new
    vocabularies and training split. *)
Theorem stale_test_split_is_reloaded (a a' : args) (w : world) dir t0 p stale :
  deserialize_flag a = None →
  entity_to_idx_arg a = None → relation_to_idx_arg a = None →
  data_dir a = Some dir →
  load_data_parallel (dir +:+ "/train") (read_only_few a) (sample_triples_ratio a)
    = Some t0 →
  path_for_serialization a = Some p →
  (∀ t, min_freq_for_vocab a = Some t → (0 < t)%Z) →
  deserialize_flag a' = Some p →
  load_data_parallel (dir +:+ "/test") None None = None →
  files w !! (p +:+ "/idx_test_df.gzip") = Some (IdxTriples stale) →
  absent_or_indexed (files w !! (p +:+ "/idx_valid_df.gzip")) →
  ∃ kg w' kg' w'',
    KG_init a w = (inr kg, w') ∧ test_set (data kg) = None ∧
    KG_init a' w' = (inr kg', w'') ∧ test_set (data kg') = Some stale ∧
    entity_to_idx kg' = entity_to_idx kg ∧
    relation_to_idx kg' = relation_to_idx kg ∧
    train_set (data kg') = train_set (data kg).
Proof.
  intros Hdes He Hr Hdir Hload Hpath Ht Hdes' Hlt Hstale Hsv.
  destruct (reload_after_fresh_run a a' w dir t0 p Hdes He Hr Hdir Hload Hpath
              Ht Hdes' Hsv)
    as (ne & nr & e2i & r2i & idx & valid & test & w' & w'' & Hrun & Hback
        & _ & Hpt).
  { by rewrite Hstale. }
  cbv zeta in *. apply Hpt in Hlt as ->. rewrite Hstale in Hback.
  eexists _, w', _, w''. split; [exact Hrun|]. split; [done|].
  split; [exact Hback|]. done.
Qed.

End FreshRuns.

Lemma fresh_run_indexes_every_row_witness :
  ∃ d' kg w',
    Demo.KG_init (Demo.plain_args "d") Demo.empty_world = (inr kg, w') ∧
    Forall2 (indexes (entity_to_idx kg) (relation_to_idx kg))
      (train_set d') (train_set (data kg)).
Proof.
  destruct (fresh_run_indexes_every_row F_contiguous Demo.loader Demo.recip
              Demo.noise (Demo.plain_args "d") Demo.empty_world "d" Demo.train
              "out")
    as (d' & kg & w' & Hrun & _ & _ & _ & _ & _ & _ & _ & Htrain & _);
    try reflexivity.
  - intros t Ht. discriminate Ht.
  - exists d', kg, w'. split; [exact Hrun|exact Htrain].
Defined.

Lemma fresh_run_persists_vocabularies_and_indexed_splits_witness :
  ∃ kg w',
    Demo.KG_init (Demo.plain_args "d") Demo.empty_world = (inr kg, w') ∧
    files w' !! "out/idx_train_df.gzip" = Some (IdxTriples (train_set (data kg))) ∧
    files w' !! "out/train_df.gzip" = None.
Proof.
  destruct (fresh_run_persists_vocabularies_and_indexed_splits F_contiguous
              Demo.loader Demo.recip Demo.noise (Demo.plain_args "d")
              Demo.empty_world "d" Demo.train "out")
    as (kg & w' & e_df & r_df & Hrun & _ & _ & _ & _ & _ & _ & Htrain & _ & _
        & _ & Hraw);
    try reflexivity.
  - intros t Ht. discriminate Ht.
  - exists kg, w'. split; [exact Hrun|]. split; [exact Htrain|exact Hraw].
Defined.

Lemma stored_run_is_reloaded_unchanged_witness :
  ∃ kg w' w'',
    Demo.KG_init (Demo.plain_args "d") Demo.empty_world = (inr kg, w') ∧
    Demo.KG_init
      (Args None (Some "out") false false true None None None None None None None)
      w' = (inr kg, w'').
Proof.
  apply (stored_run_is_reloaded_unchanged F_contiguous Demo.loader Demo.recip
           Demo.noise (Demo.plain_args "d")
           (Args None (Some "out") false false true None None None None None
              None None)
           Demo.empty_world "d" Demo.train "out"); try reflexivity.
  intros t Ht. discriminate Ht.
Defined.

Lemma stale_test_split_is_reloaded_witness :
  ∃ kg w' kg' w'',
    Demo.KG_init (Demo.plain_args "d")
      (World (<["out/idx_test_df.gzip" := IdxTriples [Triple 7%Z 7%Z 7%Z]]> ∅) [])
    = (inr kg, w') ∧
    test_set (data kg) = None ∧
    Demo.KG_init
      (Args None (Some "out") false false true None None None None None None None)
      w' = (inr kg', w'') ∧
    test_set (data kg') = Some [Triple 7%Z 7%Z 7%Z].
Proof.
  destruct (stale_test_split_is_reloaded F_contiguous Demo.loader Demo.recip
              Demo.noise (Demo.plain_args "d")
              (Args None (Some "out") false false true None None None None None
                 None None)
              (World (<["out/idx_test_df.gzip" := IdxTriples [Triple 7%Z 7%Z 7%Z]]> ∅) [])
              "d" Demo.train "out" [Triple 7%Z 7%Z 7%Z])
    as (kg & w' & kg' & w'' & Hrun & Hnone & Hback & Hstale & _);
    try reflexivity.
  - intros t Ht. discriminate Ht.
  - exists kg, w', kg', w''. done.
Defined.

End KnowledgeGraphFacts.

(** * Facts about [executer.py] *)

Module ExecuterFacts.
Import Executer.

#[local] Set Warnings "-clear-no-such-hyp".

Ltac rsimpl :=
  repeat (unfold mbind, res_bind, mret, res_ret; simpl).

(** ** The order of the scores *)

Lemma score_le_refl a : score_le a a.
Proof. destruct a; unfold score_le; simpl; [done|]. by apply bool_decide_eq_true. Qed.

Lemma score_le_trans a b c : score_le a b → score_le b c → score_le a c.
Proof.
  unfold score_le. destruct a, b, c; simpl; try done.
  rewrite !bool_decide_eq_true. lia.
Qed.

Lemma score_le_total a b : score_le a b ∨ score_le b a.
Proof.
  unfold score_le. destruct a, b; simpl; auto.
  rewrite !bool_decide_eq_true. lia.
Qed.

Lemma score_lt_not_le a b : score_lt a b ↔ ¬ score_le b a.
Proof. unfold score_lt, score_le. by destruct (score_leb b a). Qed.

(** ** Positions *)

Lemma where_first_inr o l k :
  where_first o l = inr k ↔
  ∃ pre post, l = pre ++ o :: post ∧ (o ∉ pre) ∧ k = length pre.
Proof.
  revert k. induction l as [|i l IH]; intros k; simpl.
  - split; [done|]. intros (pre & post & H & _). by destruct pre.
  - case_decide as Hi.
    + subst. split.
      * intros [= <-]. exists [], l. split_and!; [done| |done]. set_solver.
      * intros (pre & post & H & Hpre & ->).
        destruct pre as [|x pre]; [done|]. injection H as -> _. set_solver.
    + rsimpl. destruct (where_first o l) as [e|k'] eqn:Hw.
      * split; [done|]. intros (pre & post & H & Hpre & ->).
        destruct pre as [|x pre]; simplify_eq/=.
        assert (inl e = inr (length pre)) as Habs; [|done].
        apply IH. exists pre, post. split_and!; [done| |done]. set_solver.
      * split.
        -- intros [= <-]. destruct (proj1 (IH k') eq_refl) as (pre & post & -> & Hpre & ->).
           exists (i :: pre), post. split_and!; [done| |done]. set_solver.
        -- intros (pre & post & H & Hpre & ->).
           destruct pre as [|x pre]; simplify_eq/=.
           assert (@inr exn nat k' = inr (length pre)) as [= ->]; [|done].
           apply IH. exists pre, post. split_and!; [done| |done]. set_solver.
Qed.

Lemma where_first_elem o l : o ∈ l → ∃ k, where_first o l = inr k.
Proof.
  intros Ho. apply list_elem_of_split_l in Ho as (pre & post & -> & Hpre).
  exists (length pre). apply where_first_inr. eauto.
Qed.

(** ** The row that is sorted *)

Lemma length_index_put_row (mask : score) t filt :
  length (foldr (λ i acc, <[i := mask]> acc) t filt) = length t.
Proof. induction filt; simpl; [done|]. by rewrite length_insert. Qed.

Lemma lookup_index_put_row (mask : score) t filt i :
  foldr (λ i acc, <[i := mask]> acc) t filt !! i
  = if decide (i ∈ filt ∧ i < length t) then Some mask else t !! i.
Proof.
  induction filt as [|j filt IH]; cbn [foldr].
  - rewrite decide_False; [done|]. intros [H _]. by apply elem_of_nil in H.
  - destruct (decide (j = i)) as [->|Hji].
    + destruct (decide (i < length t)).
      * rewrite list_lookup_insert_eq by (by rewrite length_index_put_row).
        rewrite decide_True; [done|]. split; [set_solver|done].
      * rewrite list_insert_ge by (rewrite length_index_put_row; lia).
        rewrite IH. rewrite !decide_False; [done|tauto|tauto].
    + rewrite list_lookup_insert_ne by done. rewrite IH.
      destruct (decide (i ∈ filt ∧ i < length t)) as [[? ?]|Hn].
      * rewrite decide_True; [done|]. split; [set_solver|done].
      * rewrite decide_False; [done|]. intros [Hin ?]. apply Hn.
        split; [|done]. apply elem_of_cons in Hin as [->|?]; done.
Qed.

Lemma length_masked_row mask t filt target x :
  length (masked_row mask t filt target x) = length t.
Proof. unfold masked_row. by rewrite length_insert, length_index_put_row. Qed.

Lemma score_at_masked_target mask t filt target x :
  target < length t → score_at (masked_row mask t filt target x) target = x.
Proof.
  intros H. unfold score_at, masked_row.
  by rewrite list_lookup_insert_eq by (by rewrite length_index_put_row).
Qed.

Lemma score_at_masked_filt mask t filt target x e :
  e ≠ target → e ∈ filt → e < length t →
  score_at (masked_row mask t filt target x) e = mask.
Proof.
  intros Hne Hin Hlt. unfold score_at, masked_row.
  rewrite list_lookup_insert_ne by done.
  by rewrite lookup_index_put_row, decide_True.
Qed.

Lemma score_at_masked_other mask t filt target x e :
  e ≠ target → e ∉ filt →
  score_at (masked_row mask t filt target x) e = score_at t e.
Proof.
  intros Hne Hin. unfold score_at, masked_row.
  rewrite list_lookup_insert_ne by done.
  rewrite lookup_index_put_row, decide_False; [done|tauto].
Qed.

(** ** Rankings *)

Lemma Forall_filter_keeps {A} (P Q : A → Prop) `{∀ x, Decision (Q x)} l :
  Forall P l → Forall P (filter Q l).
Proof.
  rewrite !Forall_forall. intros HP x Hx.
  apply list_elem_of_filter in Hx as [_ Hx]. by apply HP.
Qed.

Lemma filter_none {A} (P : A → Prop) `{∀ x, Decision (P x)} l :
  Forall (λ x, ¬ P x) l → filter P l = [].
Proof.
  induction 1 as [|x l Hx _ IH]; [done|].
  by rewrite filter_cons, decide_False.
Qed.

Lemma descending_filter t (P : nat → Prop) `{∀ e, Decision (P e)} l :
  descending t l → descending t (filter P l).
Proof.
  unfold descending. induction l as [|a l IH]; [done|].
  rewrite StronglySorted_cons. intros [Ha Hl].
  rewrite filter_cons. case_decide; [|by apply IH].
  apply StronglySorted_cons. split; [|by apply IH].
  by apply Forall_filter_keeps.
Qed.

(** In a ranking of [candidates] along which the scores do not increase,
    the target stands after every candidate with a strictly higher score and
    before every candidate with a strictly lower one. *)
Lemma position_bounds t candidates ranking target k :
  ranking ≡ₚ candidates →
  descending t ranking →
  where_first target ranking = inr k →
  length (filter (λ e, score_lt (score_at t target) (score_at t e)) candidates) ≤ k ∧
  k + length (filter (λ e, score_lt (score_at t e) (score_at t target)) candidates)
    < length candidates.
Proof.
  intros Hperm Hdesc Hpos.
  apply where_first_inr in Hpos as (pre & post & -> & Hpre & ->).
  rewrite <- Hperm. rewrite !filter_app, !filter_cons, !length_app.
  unfold descending in Hdesc.
  apply StronglySorted_app in Hdesc as (Hcross & _ & Hpost).
  apply StronglySorted_cons in Hpost as [Hpost _].
  assert (¬ score_lt (score_at t target) (score_at t target)) as Hirr
    by (rewrite score_lt_not_le; intros Hn; apply Hn, score_le_refl).
  rewrite !decide_False by done.
  assert (filter (λ e, score_lt (score_at t target) (score_at t e)) post = [])
    as ->.
  { apply filter_none, Forall_forall. intros e He.
    rewrite score_lt_not_le. intros Hn. apply Hn.
    rewrite Forall_forall in Hpost. by apply Hpost. }
  assert (filter (λ e, score_lt (score_at t e) (score_at t target)) pre = [])
    as ->.
  { apply filter_none, Forall_forall. intros e He.
    rewrite score_lt_not_le. intros Hn. apply Hn.
    apply Hcross; [done|]. apply elem_of_cons. by left. }
  pose proof (length_filter
                (λ e, score_lt (score_at t target) (score_at t e)) pre).
  pose proof (length_filter
                (λ e, score_lt (score_at t e) (score_at t target)) post).
  simpl. lia.
Qed.

Lemma filter_all {A} (P : A → Prop) `{∀ x, Decision (P x)} l :
  Forall P l → filter P l = l.
Proof.
  induction 1 as [|x l Hx _ IH]; [done|].
  by rewrite filter_cons, decide_True, IH.
Qed.

Lemma descending_ext t t' l :
  Forall (λ e, score_at t e = score_at t' e) l →
  descending t l → descending t' l.
Proof.
  unfold descending. induction 1 as [|a l Ha Hl IH]; [intros; constructor|].
  rewrite !StronglySorted_cons. intros [Hall Hsorted]. split; [|by apply IH].
  rewrite Forall_forall in Hall, Hl. apply Forall_forall. intros b Hb.
  rewrite <- Ha, <- (Hl b Hb). by apply Hall.
Qed.

(** One admissible sort. *)
Lemma insert_descending_Permutation t i l : insert_descending t i l ≡ₚ i :: l.
Proof.
  induction l as [|j l IH]; simpl; [done|].
  destruct (score_leb _ _); [done|]. rewrite IH. apply Permutation_swap.
Qed.

Lemma insert_descending_descending t i l :
  descending t l → descending t (insert_descending t i l).
Proof.
  unfold descending. induction l as [|j l IH]; simpl.
  - intros _. repeat constructor.
  - rewrite StronglySorted_cons. intros [Hj Hl].
    destruct (score_leb (score_at t j) (score_at t i)) eqn:Hji.
    + apply StronglySorted_cons. split; [|by apply StronglySorted_cons].
      constructor; [exact Hji|]. eapply Forall_impl; [exact Hj|].
      intros b Hb. eapply score_le_trans; [exact Hb|exact Hji].
    + apply StronglySorted_cons. split; [|by apply IH].
      rewrite insert_descending_Permutation. constructor; [|done].
      destruct (score_le_total (score_at t i) (score_at t j)) as [?|Hle]; [done|].
      unfold score_le in Hle. congruence.
Qed.

Lemma stable_sort_descending_spec t :
  is_sort_descending t (stable_sort_descending t).
Proof.
  unfold stable_sort_descending. split.
  - induction (seq 0 (length t)) as [|i l IH]; simpl; [done|].
    by rewrite insert_descending_Permutation, IH.
  - induction (seq 0 (length t)) as [|i l IH]; simpl; [constructor|].
    by apply insert_descending_descending.
Qed.

(** ** Filtered positions *)

Section EvaluationFacts.
Context (torch_sort : list score → list nat)
        (torch_sort_spec : ∀ t, is_sort_descending t (torch_sort t)).

Lemma filtered_position_run mask t filt target x :
  t !! target = Some x →
  Forall (λ i, i < length t) filt →
  filtered_position torch_sort mask t filt target
  = where_first target (torch_sort (masked_row mask t filt target x)).
Proof.
  intros Hx Hfilt. apply lookup_lt_Some in Hx as Hlt.
  unfold filtered_position, item, index_put, setitem. rewrite Hx. rsimpl.
  rewrite decide_True by done. rsimpl.
  rewrite decide_True by (by rewrite length_index_put_row). done.
Qed.

(** A position is fixed by the scores as soon as no other candidate ties
    with the target. *)
Lemma sorted_position_determined t target k :
  target < length t →
  length (filter (λ e, score_lt (score_at t target) (score_at t e))
            (seq 0 (length t))) = k →
  k + length (filter (λ e, score_lt (score_at t e) (score_at t target))
                (seq 0 (length t))) + 1 = length t →
  where_first target (torch_sort t) = inr k.
Proof.
  intros Hlt Hgt Hless. destruct (torch_sort_spec t) as [Hperm Hdesc].
  destruct (where_first_elem target (torch_sort t)) as [k' Hk'].
  { rewrite Hperm. apply elem_of_seq. lia. }
  pose proof (position_bounds t _ _ target k' Hperm Hdesc Hk') as [H1 H2].
  rewrite length_seq in H2. rewrite Hk'. f_equal. lia.
Qed.

(** When the target scores strictly above the mask, the position found by
    [filtered_position] is the target's position in a ranking of the
    candidates that are not excluded, by their predicted scores. *)
Lemma filtered_position_among_not_excluded mask t filt target x :
  t !! target = Some x →
  Forall (λ i, i < length t) filt →
  score_lt mask x →
  ∃ k ranking,
    filtered_position torch_sort mask t filt target = inr k ∧
    ranking ≡ₚ filter (not_excluded filt target) (seq 0 (length t)) ∧
    descending t ranking ∧
    where_first target ranking = inr k.
Proof.
  intros Hx Hfilt Hmask. apply lookup_lt_Some in Hx as Hlt.
  rewrite (filtered_position_run mask t filt target x Hx Hfilt).
  set (row := masked_row mask t filt target x).
  destruct (torch_sort_spec row) as [Hperm Hdesc].
  assert (length row = length t) as Hlen by apply length_masked_row.
  rewrite Hlen in Hperm.
  destruct (where_first_elem target (torch_sort row)) as [k Hk].
  { rewrite Hperm. apply elem_of_seq. lia. }
  exists k, (filter (not_excluded filt target) (torch_sort row)).
  split; [done|]. split; [by rewrite Hperm|]. split.
  - apply (descending_ext row); [|by apply descending_filter].
    apply Forall_forall. intros e He.
    apply list_elem_of_filter in He as [[He| ->] _].
    + destruct (decide (e = target)) as [->|Hne].
      * subst row. rewrite score_at_masked_target by done.
        unfold score_at. by rewrite Hx.
      * by apply score_at_masked_other.
    + subst row. rewrite score_at_masked_target by done.
      unfold score_at. by rewrite Hx.
  - apply where_first_inr in Hk as (pre & post & Hsplit & Hpre & ->).
    rewrite Hsplit in Hdesc. rewrite Hsplit, filter_app, filter_cons.
    rewrite decide_True by (by right).
    apply where_first_inr. exists pre, (filter (not_excluded filt target) post).
    split_and!; [|done..]. f_equal. apply filter_all, Forall_forall.
    intros e He. destruct (decide (e ∈ filt)) as [Hin|]; [|by left].
    destruct (decide (e = target)) as [|Hne]; [by right|]. exfalso.
    apply StronglySorted_app in Hdesc as (Hcross & _ & _).
    specialize (Hcross e target He ltac:(by left)).
    rewrite Forall_forall in Hfilt. subst row.
    rewrite score_at_masked_target in Hcross by done.
    rewrite score_at_masked_filt in Hcross by auto.
    by apply score_lt_not_le in Hmask.
Qed.

Lemma lookup_predictions (f : nat → Z) n e :
  e < n → ((λ e, Fin (f e)) <$> seq 0 n) !! e = Some (Fin (f e)).
Proof. intros H. by rewrite list_lookup_fmap, lookup_seq_lt. Qed.

(** The part of C1 that [evaluate_lp] satisfies: for every triple with its
    ids in range, each of the two reported ranks is one plus the position
    of the target in a ranking, by predicted score, of the candidates that
    are not excluded: all entities except the other known completions. *)
Lemma evaluate_lp_ranks_among_not_excluded d m s p o :
  s < num_entities d → o < num_entities d →
  Forall (λ i, i < num_entities d) (er_idx_vocab d (s, p)) →
  Forall (λ i, i < num_entities d) (po_idx_vocab d (p, o)) →
  ∃ kh kt heads tails,
    evaluate_lp_triple torch_sort d m (s, p, o) = inr (kh + 1, kt + 1) ∧
    tails ≡ₚ filter (not_excluded (er_idx_vocab d (s, p)) o)
               (seq 0 (num_entities d)) ∧
    descending ((λ e, Fin (forward_triples m s p e)) <$> seq 0 (num_entities d))
      tails ∧
    where_first o tails = inr kt ∧
    heads ≡ₚ filter (not_excluded (po_idx_vocab d (p, o)) s)
               (seq 0 (num_entities d)) ∧
    descending ((λ e, Fin (forward_triples m e p o)) <$> seq 0 (num_entities d))
      heads ∧
    where_first s heads = inr kh.
Proof.
  intros Hs Ho Her Hpo.
  destruct (filtered_position_among_not_excluded NegInf
              ((λ e, Fin (forward_triples m s p e)) <$> seq 0 (num_entities d))
              (er_idx_vocab d (s, p)) o (Fin (forward_triples m s p o)))
    as (kt & tails & Hkt & Htails);
    [by apply (lookup_predictions (λ e, forward_triples m s p e))| |done|].
  { by rewrite length_fmap, length_seq. }
  destruct (filtered_position_among_not_excluded NegInf
              ((λ e, Fin (forward_triples m e p o)) <$> seq 0 (num_entities d))
              (po_idx_vocab d (p, o)) s (Fin (forward_triples m s p o)))
    as (kh & heads & Hkh & Hheads);
    [by apply (lookup_predictions (λ e, forward_triples m e p o))| |done|].
  { by rewrite length_fmap, length_seq. }
  rewrite length_fmap, length_seq in Htails, Hheads.
  exists kh, kt, heads, tails. unfold evaluate_lp_triple.
  rewrite Hkt. rsimpl. rewrite Hkh. rsimpl. naive_solver.
Qed.

(** C1, at the failing input. Known triples (1, 0, 2) and (1, 0, 3), query
    (1, 0, ?) with true object 2, scores -2, -3, -1, -5 for the four
    candidates. Candidate 3 is the other known completion and must not take
    part; among the remaining candidates the target has the best score, so
    its rank is 1, and [evaluate_lp], which masks with [-np.Inf], reports 1.
    [evaluate_lp_k_vs_all] overwrites candidate 3 with [0.0], which is above
    the target's score, and reports rank 2. *)
Theorem k_vs_all_ranks_filtered_candidate_above_target :
  evaluate_lp_k_vs_all_row torch_sort Demo.d Demo.m "EntityPrediction" (1, 0, 2)
    = inr 2 ∧
  evaluate_lp_triple torch_sort Demo.d Demo.m (1, 0, 2) = inr (1, 1) ∧
  ∀ ranking,
    ranking ≡ₚ filter (not_excluded (er_idx_vocab Demo.d (1, 0)) 2) (seq 0 4) →
    descending (Fin <$> Demo.scores) ranking →
    where_first 2 ranking = inr 0.
Proof.
  split_and!.
  - unfold evaluate_lp_k_vs_all_row. simpl.
    rewrite (filtered_position_run (Fin 0) _ _ 2 (Fin (-1)));
      [|reflexivity|repeat constructor; simpl; lia].
    rewrite (sorted_position_determined _ 2 1);
      [reflexivity|simpl; lia|vm_compute; reflexivity..].
  - unfold evaluate_lp_triple. simpl.
    rewrite (filtered_position_run NegInf _ _ 2 (Fin (-1)));
      [|reflexivity|repeat constructor; simpl; lia].
    rewrite (sorted_position_determined _ 2 0);
      [|simpl; lia|vm_compute; reflexivity..].
    rsimpl.
    rewrite (filtered_position_run NegInf _ _ 1 (Fin (-1)));
      [|reflexivity|repeat constructor; simpl; lia].
    rewrite (sorted_position_determined _ 1 0);
      [reflexivity|simpl; lia|vm_compute; reflexivity..].
  - intros ranking Hperm Hdesc.
    destruct (where_first_elem 2 ranking) as [k Hk].
    { rewrite Hperm. vm_compute. set_solver. }
    pose proof (position_bounds _ _ _ 2 k Hperm Hdesc Hk) as [_ H2].
    match type of H2 with
    | _ + ?c < ?n =>
        replace c with 2 in H2 by (vm_compute; reflexivity);
        replace n with 3 in H2 by (vm_compute; reflexivity)
    end.
    rewrite Hk. f_equal. lia.
Qed.

(** ** Ranks and failures of [evaluate_lp] *)

Lemma filtered_position_in_range mask t filt target :
  target < length t → Forall (λ i, i < length t) filt →
  ∃ k, filtered_position torch_sort mask t filt target = inr k ∧ k < length t.
Proof.
  intros Hlt Hfilt. destruct (lookup_lt_is_Some_2 t target Hlt) as [x Hx].
  rewrite (filtered_position_run mask t filt target x Hx Hfilt).
  set (row := masked_row mask t filt target x).
  destruct (torch_sort_spec row) as [Hperm _].
  assert (length row = length t) as Hlen by apply length_masked_row.
  destruct (where_first_elem target (torch_sort row)) as [k Hk].
  { rewrite Hperm, Hlen. apply elem_of_seq. lia. }
  exists k. split; [done|].
  apply where_first_inr in Hk as (pre & post & Hsplit & _ & ->).
  apply Permutation_length in Hperm.
  rewrite Hsplit, length_app, length_seq, Hlen in Hperm. simpl in Hperm. lia.
Qed.

Lemma filtered_position_out_of_range mask t filt target :
  ¬ (target < length t ∧ Forall (λ i, i < length t) filt) →
  filtered_position torch_sort mask t filt target = inl IndexError.
Proof.
  intros Hn. unfold filtered_position, item, index_put.
  destruct (t !! target) as [x|] eqn:Hx; [|done]. rsimpl.
  apply lookup_lt_Some in Hx.
  destruct (decide (Forall (λ i, i < length t) filt)); [|done].
  by destruct Hn.
Qed.

Lemma evaluate_lp_triple_in_range d m t :
  ids_in_range d t →
  ∃ h tl, evaluate_lp_triple torch_sort d m t = inr (h, tl) ∧
          1 ≤ h ≤ num_entities d ∧ 1 ≤ tl ≤ num_entities d.
Proof.
  destruct t as [[s p] o]. intros (Hs & Ho & Her & Hpo). simpl in *.
  destruct (filtered_position_in_range NegInf
              ((λ e, Fin (forward_triples m s p e)) <$> seq 0 (num_entities d))
              (er_idx_vocab d (s, p)) o) as (kt & Hkt & Hktlt);
    [by rewrite length_fmap, length_seq..|].
  destruct (filtered_position_in_range NegInf
              ((λ e, Fin (forward_triples m e p o)) <$> seq 0 (num_entities d))
              (po_idx_vocab d (p, o)) s) as (kh & Hkh & Hkhlt);
    [by rewrite length_fmap, length_seq..|].
  rewrite length_fmap, length_seq in Hktlt, Hkhlt.
  exists (kh + 1), (kt + 1). unfold evaluate_lp_triple.
  rewrite Hkt. rsimpl. rewrite Hkh. rsimpl. split; [done|]. lia.
Qed.

Lemma evaluate_lp_triple_out_of_range d m t :
  ¬ ids_in_range d t → evaluate_lp_triple torch_sort d m t = inl IndexError.
Proof.
  destruct t as [[s p] o]. unfold ids_in_range. simpl. intros Hn.
  unfold evaluate_lp_triple.
  destruct (decide (o < num_entities d
                    ∧ Forall (λ i, i < num_entities d) (er_idx_vocab d (s, p))))
    as [[Ho Her]|Htail].
  - destruct (filtered_position_in_range NegInf
                ((λ e, Fin (forward_triples m s p e)) <$> seq 0 (num_entities d))
                (er_idx_vocab d (s, p)) o) as (kt & Hkt & _);
      [by rewrite length_fmap, length_seq..|].
    rewrite Hkt. rsimpl.
    rewrite filtered_position_out_of_range; [by rsimpl|].
    rewrite length_fmap, length_seq. tauto.
  - rewrite (filtered_position_out_of_range NegInf _ (er_idx_vocab d (s, p)) o);
      [by rsimpl|].
    by rewrite length_fmap, length_seq.
Qed.

(** [evaluate_lp] reaches its list of ranks exactly when every id it uses
    as a position is below [num_entities]: then there is one pair of ranks
    per triple, each rank between 1 and [num_entities]; otherwise the first
    triple with an id out of range ends the evaluation in an [IndexError],
    whatever the scores are. *)
Theorem evaluate_lp_ranks_or_IndexError d m triple_idx :
  (Forall (ids_in_range d) triple_idx →
   ∃ ranks,
     evaluate_lp torch_sort d m triple_idx = inr ranks ∧
     length ranks = length triple_idx ∧
     Forall (λ r, 1 ≤ r.1 ≤ num_entities d ∧ 1 ≤ r.2 ≤ num_entities d) ranks) ∧
  (¬ Forall (ids_in_range d) triple_idx →
   evaluate_lp torch_sort d m triple_idx = inl IndexError).
Proof.
  induction triple_idx as [|t rest [IHok IHbad]]; simpl.
  - split; [|intros Hn; destruct Hn; constructor].
    intros _. exists []. by repeat split.
  - split.
    + intros [Ht Hrest]%Forall_cons.
      destruct (evaluate_lp_triple_in_range d m t Ht) as (h & tl & -> & Hh & Htl).
      destruct (IHok Hrest) as (ranks & -> & Hlen & Hall). rsimpl.
      exists ((h, tl) :: ranks). split_and!; [done|simpl; by rewrite Hlen|].
      by constructor.
    + intros Hn. destruct (decide (ids_in_range d t)) as [Ht|Ht].
      * destruct (evaluate_lp_triple_in_range d m t Ht) as (h & tl & -> & _).
        rsimpl. rewrite IHbad; [done|]. intros Hrest. apply Hn. by constructor.
      * by rewrite evaluate_lp_triple_out_of_range.
Qed.

(** Where [evaluate_lp_k_vs_all] agrees with the filtered ranking: when the
    target's own score is above [0.0], the value written over the
    filtered candidates, the reported rank is one plus the target's position
    in a ranking, by predicted score, of the candidates that are not
    excluded. This holds for the ranking of entities and for the ranking of
    relations. *)
Theorem k_vs_all_rank_among_not_excluded_when_target_positive d m
    form_of_labelling e1 r e2 :
  let relation_prediction := bool_decide (form_of_labelling = "RelationPrediction") in
  let row := if relation_prediction then forward_k_vs_all m e1 e2
             else forward_k_vs_all m e1 r in
  let filt := if relation_prediction then ee_idx_vocab d (e1, r)
              else er_idx_vocab d (e1, r) in
  let target := if relation_prediction then r else e2 in
  ∀ x, row !! target = Some x → (0 < x)%Z →
  Forall (λ i, i < length row) filt →
  ∃ k ranking,
    evaluate_lp_k_vs_all_row torch_sort d m form_of_labelling (e1, r, e2)
      = inr (k + 1) ∧
    ranking ≡ₚ filter (not_excluded filt target) (seq 0 (length row)) ∧
    descending (Fin <$> row) ranking ∧
    where_first target ranking = inr k.
Proof.
  intros relation_prediction row filt target x Hx Hpos Hfilt.
  destruct (filtered_position_among_not_excluded (Fin 0) (Fin <$> row) filt
              target (Fin x)) as (k & ranking & Hk & Hperm & Hdesc & Hpos').
  { by rewrite list_lookup_fmap, Hx. }
  { by rewrite length_fmap. }
  { unfold score_lt. simpl. apply bool_decide_eq_false. lia. }
  rewrite length_fmap in Hperm.
  exists k, ranking. split; [|done].
  unfold evaluate_lp_k_vs_all_row. subst relation_prediction row filt target.
  destruct (decide (form_of_labelling = "RelationPrediction")) as [Hf|Hf].
  - rewrite bool_decide_true in Hk by done. by rewrite Hk.
  - rewrite bool_decide_false in Hk by done. by rewrite Hk.
Qed.

End EvaluationFacts.

Lemma evaluate_lp_ranks_or_IndexError_witness :
  (∀ t, is_sort_descending t (stable_sort_descending t)) ∧
  (∃ ranks,
     evaluate_lp stable_sort_descending Demo.d Demo.m [(1, 0, 2)] = inr ranks ∧
     length ranks = 1) ∧
  evaluate_lp stable_sort_descending Demo.d Demo.m [(1, 0, 2); (1, 0, 4)]
    = inl IndexError.
Proof.
  split; [exact stable_sort_descending_spec|]. split.
  - destruct (proj1 (evaluate_lp_ranks_or_IndexError stable_sort_descending
                       stable_sort_descending_spec Demo.d Demo.m [(1, 0, 2)]))
      as (ranks & Hrun & Hlen & _).
    + apply (bool_decide_unpack _). vm_compute. exact I.
    + exists ranks. split; [exact Hrun|exact Hlen].
  - apply (proj2 (evaluate_lp_ranks_or_IndexError stable_sort_descending
                    stable_sort_descending_spec Demo.d Demo.m
                    [(1, 0, 2); (1, 0, 4)])).
    apply (bool_decide_unpack _). vm_compute. exact I.
Defined.

Lemma k_vs_all_rank_among_not_excluded_when_target_positive_witness :
  (∀ t, is_sort_descending t (stable_sort_descending t)) ∧
  ∃ k,
    evaluate_lp_k_vs_all_row stable_sort_descending Demo.d
      (Model "DistMult" (λ _ _ _, 0%Z) (λ _ _, [5; 1; 7; 9]%Z))
      "EntityPrediction" (1, 0, 2) = inr (k + 1).
Proof.
  split; [exact stable_sort_descending_spec|].
  destruct (k_vs_all_rank_among_not_excluded_when_target_positive
              stable_sort_descending stable_sort_descending_spec Demo.d
              (Model "DistMult" (λ _ _ _, 0%Z) (λ _ _, [5; 1; 7; 9]%Z))
              "EntityPrediction" 1 0 2 7%Z)
    as (k & ranking & Hrun & _).
  - reflexivity.
  - lia.
  - apply (bool_decide_unpack _). vm_compute. exact I.
  - exists k. exact Hrun.
Defined.

(** ** Hits@N *)

Lemma record_levels_lookup r levels (hits : gmap nat (list nat)) level :
  NoDup levels →
  foldl (λ hits hits_level,
           let I := hits_increment r hits_level in
           if decide (0 < I)
           then <[hits_level := default [] (hits !! hits_level) ++ [I]]> hits
           else hits) hits levels !! level
  = if decide (level ∈ levels ∧ 0 < hits_increment r level)
    then Some (default [] (hits !! level) ++ [hits_increment r level])
    else hits !! level.
Proof.
  intros Hnd. revert hits. induction Hnd as [|l ls Hl Hnd IH]; intros hits.
  - cbn [foldl]. rewrite decide_False; [done|]. intros [H _].
    by apply elem_of_nil in H.
  - cbn [foldl]. rewrite IH. cbv zeta.
    destruct (decide (level = l)) as [->|Hne].
    + rewrite (decide_False (P := l ∈ ls ∧ _)) by tauto.
      destruct (decide (0 < hits_increment r l)) as [Hpos|Hpos].
      * rewrite lookup_insert_eq, decide_True; [done|]. split; [set_solver|done].
      * rewrite decide_False; [done|tauto].
    + assert ((if decide (0 < hits_increment r l)
               then <[l := default [] (hits !! l) ++ [hits_increment r l]]> hits
               else hits) !! level = hits !! level) as ->.
      { destruct (decide (0 < hits_increment r l)); [|done].
        by rewrite lookup_insert_ne. }
      destruct (decide (level ∈ ls ∧ 0 < hits_increment r level)) as [[? ?]|Hn].
      * rewrite decide_True; [done|]. split; [set_solver|done].
      * rewrite decide_False; [done|]. intros [Hin ?]. apply Hn. split; [|done].
        apply elem_of_cons in Hin as [?|?]; done.
Qed.

Lemma record_hits_lookup hits r level :
  1 ≤ level ≤ 10 →
  record_hits hits r !! level
  = if decide (0 < hits_increment r level)
    then Some (default [] (hits !! level) ++ [hits_increment r level])
    else hits !! level.
Proof.
  intros Hlevel. unfold record_hits.
  rewrite record_levels_lookup by apply NoDup_seq.
  destruct (decide (0 < hits_increment r level)).
  - rewrite decide_True; [done|]. split; [|done]. apply elem_of_seq. lia.
  - rewrite decide_False; [done|tauto].
Qed.

Lemma hits_lookup ranks hits level :
  1 ≤ level ≤ 10 →
  foldl record_hits hits ranks !! level
  = match filter (λ I, 0 < I) ((λ r, hits_increment r level) <$> ranks) with
    | [] => hits !! level
    | l => Some (default [] (hits !! level) ++ l)
    end.
Proof.
  intros Hlevel. revert hits. induction ranks as [|r ranks IH]; intros hits.
  - done.
  - cbn [foldl]. rewrite IH, record_hits_lookup by done.
    rewrite fmap_cons, filter_cons.
    destruct (decide (0 < hits_increment r level)); [|done].
    simpl. destruct (filter _ _); [done|]. by rewrite <- app_assoc.
Qed.

Lemma hits_increment_cases r level :
  (r.1 ≤ level ∧ r.2 ≤ level ∧ hits_increment r level = 2) ∨
  (r.1 ≤ level ∧ level < r.2 ∧ hits_increment r level = 1) ∨
  (level < r.1 ∧ r.2 ≤ level ∧ hits_increment r level = 1) ∨
  (level < r.1 ∧ level < r.2 ∧ hits_increment r level = 0).
Proof.
  unfold hits_increment.
  destruct (decide (r.1 ≤ level)), (decide (r.2 ≤ level)); simpl; lia.
Qed.

Lemma sum_hits_increments level ranks :
  sum_list (filter (λ I, 0 < I) ((λ r, hits_increment r level) <$> ranks))
  = hits_within level ranks.
Proof.
  unfold hits_within. induction ranks as [|r ranks IH]; [done|].
  rewrite fmap_cons, !filter_cons.
  destruct (hits_increment_cases r level) as [H|[H|[H|H]]];
    destruct H as (H1 & H2 & ->);
    destruct (decide (r.1 ≤ level)), (decide (r.2 ≤ level)); try lia;
    simpl; rewrite ?IH; lia.
Qed.

Lemma no_hits_increments level ranks :
  filter (λ I, 0 < I) ((λ r, hits_increment r level) <$> ranks) = []
  ↔ Forall (λ r, level < r.1 ∧ level < r.2) ranks.
Proof.
  induction ranks as [|r ranks IH]; [by split; [constructor|]|].
  rewrite fmap_cons, filter_cons, Forall_cons.
  destruct (hits_increment_cases r level) as [H|[H|[H|H]]];
    destruct H as (H1 & H2 & ->); simpl;
    try (split; [done|lia]).
  rewrite IH. split; [|tauto]. intros ?. split; [lia|done].
Qed.

Lemma sum_hits_run ranks level :
  1 ≤ level ≤ 10 →
  sum_hits (foldl record_hits ∅ ranks) level
  = if decide (Forall (λ r, level < r.1 ∧ level < r.2) ranks)
    then inl (KeyError level)
    else inr (hits_within level ranks).
Proof.
  intros Hlevel. unfold sum_hits. rewrite hits_lookup by done.
  rewrite lookup_empty. simpl.
  pose proof (no_hits_increments level ranks) as Hnone.
  pose proof (sum_hits_increments level ranks) as Hsum.
  destruct (filter _ _) as [|I l].
  - rewrite decide_True; [done|]. by apply Hnone.
  - rewrite decide_False; [by rewrite Hsum|]. intros H. by apply Hnone in H.
Qed.

(** [evaluate_lp] keeps its hits in a dictionary that gets a key only when
    some rank is within the level. With at least one triple: if some head or
    tail rank is 1, the three numerators are the numbers of ranks (head and
    tail ranks together) that are at most 1, 3 and 10; if no rank is 1, the
    lookup [hits[1]] ends the evaluation in a [KeyError] instead of
    reporting zero hits. *)
Theorem evaluate_lp_hits_counts_or_KeyError (ranks : list (nat * nat)) :
  ranks ≠ [] →
  (Exists (λ r, r.1 ≤ 1 ∨ r.2 ≤ 1) ranks →
   evaluate_lp_hits ranks
   = inr (hits_within 1 ranks, hits_within 3 ranks, hits_within 10 ranks)) ∧
  (Forall (λ r, 1 < r.1 ∧ 1 < r.2) ranks →
   evaluate_lp_hits ranks = inl (KeyError 1)).
Proof.
  intros Hne. unfold evaluate_lp_hits. cbv zeta.
  rewrite decide_False by done.
  rewrite !sum_hits_run by lia. split.
  - intros Hex.
    assert (∀ level, 1 ≤ level →
              ¬ Forall (λ r, level < r.1 ∧ level < r.2) ranks) as Hno.
    { intros level Hlevel Hall. apply Exists_exists in Hex as (r & Hr & Hone).
      rewrite Forall_forall in Hall. specialize (Hall r Hr). lia. }
    by rewrite !decide_False by (apply Hno; lia).
  - intros Hall. by rewrite decide_True.
Qed.

Lemma evaluate_lp_hits_counts_or_KeyError_witness :
  evaluate_lp_hits [(2, 5); (3, 2)] = inl (KeyError 1) ∧
  evaluate_lp_hits [(1, 5); (3, 2)] = inr (1, 3, 4).
Proof.
  split.
  - apply (evaluate_lp_hits_counts_or_KeyError [(2, 5); (3, 2)]); [done|].
    repeat constructor; simpl; lia.
  - apply (evaluate_lp_hits_counts_or_KeyError [(1, 5); (3, 2)]); [done|].
    apply Exists_cons_hd. simpl. lia.
Defined.

(** Without a triple the division for the mean reciprocal rank comes first
    and fails. *)
Lemma evaluate_lp_hits_nil : evaluate_lp_hits [] = inl ZeroDivisionError.
Proof. reflexivity. Qed.

Lemma k_vs_all_ranks_filtered_candidate_above_target_witness :
  (∀ t, is_sort_descending t (stable_sort_descending t)) ∧
  evaluate_lp_k_vs_all_row stable_sort_descending Demo.d Demo.m
    "EntityPrediction" (1, 0, 2) = inr 2.
Proof.
  split; [exact stable_sort_descending_spec|].
  exact (proj1 (k_vs_all_ranks_filtered_candidate_above_target
                  stable_sort_descending stable_sort_descending_spec)).
Defined.

(** ** Configuration errors *)

Section RunFacts.
Context (preprocesses_input_args : args → args)
        (KG : string → bool → dataset)
        (select_model : args → kge_model * string).

(** C9. A scoring technique name other than [NegSample] and [KvsAll] makes
    the construction of [Execute], and so the whole run, fail with a message
    that names it, before the dataset is built, a folder is created or a
    model is fitted: no step has been taken. *)
Theorem unrecognized_scoring_technique_fails_fast (a : args) (log : list event) :
  scoring_technique (preprocesses_input_args a) ≠ "NegSample" →
  scoring_technique (preprocesses_input_args a) ≠ "KvsAll" →
  let msg := "Invalid scoring technique: "
               +:+ scoring_technique (preprocesses_input_args a) in
  Execute_init preprocesses_input_args KG a log
    = (inl (ConfigurationError msg), log) ∧
  run preprocesses_input_args KG select_model a log
    = (inl (ConfigurationError msg), log).
Proof.
  intros H1 H2 msg.
  assert (Execute_init preprocesses_input_args KG a log
          = (inl (ConfigurationError msg), log)) as Hinit.
  { unfold Execute_init, sanity_checking_with_arguments.
    destruct (decide (scoring_technique (preprocesses_input_args a) = "NegSample"
                      ∨ scoring_technique (preprocesses_input_args a) = "KvsAll"))
      as [[?|?]|_]; [done|done|reflexivity]. }
  split; [done|]. unfold run, mbind at 1, E_bind. by rewrite Hinit.
Qed.

(** The check that [train_and_eval] itself makes comes after the trainer is
    created, and only when valid and test data are available. *)
Lemma train_and_eval_rejects_unrecognized_technique (self : Execute) log :
  is_valid_test_available (self_dataset self) = true →
  self_scoring_technique self ≠ "NegSample" →
  self_scoring_technique self ≠ "KvsAll" →
  train_and_eval select_model self log
  = (inl (ValueError ("Invalid argument: " +:+ self_scoring_technique self)),
     log ++ [create_trainer]).
Proof.
  intros Hav H1 H2. unfold train_and_eval. rewrite Hav.
  rewrite !decide_False by done. reflexivity.
Qed.

End RunFacts.

Lemma unrecognized_scoring_technique_fails_fast_witness :
  ∃ msg,
    run (λ a, a) (λ _ _, Demo.d) (λ _, (Demo.m, "EntityPrediction"))
      (Demo.args_with "Foo") []
    = (inl (ConfigurationError msg), []).
Proof.
  eexists.
  apply (unrecognized_scoring_technique_fails_fast (λ a, a) (λ _ _, Demo.d)
           (λ _, (Demo.m, "EntityPrediction")) (Demo.args_with "Foo") []);
    simpl; discriminate.
Defined.

(** ** Batches *)

Lemma lookup_put_ones_row row ids j :
  foldr (λ i acc, <[i := true]> acc) row ids !! j
  = if decide (j ∈ ids ∧ j < length row) then Some true else row !! j.
Proof.
  assert (∀ ids, length (foldr (λ i acc, <[i := true]> acc) row ids) = length row)
    as Hlen.
  { intros l. induction l; simpl; [done|]. by rewrite length_insert. }
  induction ids as [|i ids IH]; cbn [foldr].
  - rewrite decide_False; [done|]. intros [H _]. by apply elem_of_nil in H.
  - destruct (decide (i = j)) as [->|Hij].
    + destruct (decide (j < length row)).
      * rewrite list_lookup_insert_eq by (by rewrite Hlen).
        rewrite decide_True; [done|]. split; [set_solver|done].
      * rewrite list_insert_ge by (rewrite Hlen; lia).
        rewrite IH. rewrite !decide_False; [done|tauto|tauto].
    + rewrite list_lookup_insert_ne by done. rewrite IH.
      destruct (decide (j ∈ ids ∧ j < length row)) as [[? ?]|Hn].
      * rewrite decide_True; [done|]. split; [set_solver|done].
      * rewrite decide_False; [done|]. intros [Hin ?]. apply Hn.
        split; [|done]. apply elem_of_cons in Hin as [->|?]; done.
Qed.

Lemma put_ones_inr output_dim ids row :
  put_ones (replicate output_dim false) ids = inr row ↔
  Forall (λ i, i < output_dim) ids ∧ length row = output_dim ∧
  ∀ j, row !! j = Some true ↔ j ∈ ids.
Proof.
  unfold put_ones. rewrite length_replicate.
  destruct (decide (Forall (λ i, i < output_dim) ids)) as [Hids|Hids];
    [|split; [done|tauto]].
  rsimpl. split.
  - intros [= <-]. split; [done|]. split.
    + induction ids; simpl; [by rewrite length_replicate|].
      rewrite length_insert. apply IHids. by eapply Forall_inv_tail.
    + intros j. rewrite lookup_put_ones_row, length_replicate.
      rewrite Forall_forall in Hids.
      destruct (decide (j ∈ ids ∧ j < output_dim)) as [[? ?]|Hn]; [done|].
      split; [|intros Hj; destruct Hn; auto].
      intros Hj. apply lookup_replicate in Hj as [? _]. done.
  - intros (_ & Hlen & Hrow). f_equal. apply list_eq. intros j.
    rewrite lookup_put_ones_row, length_replicate.
    rewrite Forall_forall in Hids.
    destruct (decide (j ∈ ids ∧ j < output_dim)) as [[Hj ?]|Hn].
    + symmetry. by apply Hrow.
    + destruct (row !! j) as [[|]|] eqn:Hj.
      * apply Hrow in Hj as Hin. destruct Hn. auto.
      * apply lookup_lt_Some in Hj as Hlt. rewrite Hlen in Hlt.
        by rewrite lookup_replicate_2.
      * apply lookup_ge_None in Hj. rewrite Hlen in Hj.
        by apply lookup_replicate_None.
Qed.

Lemma multi_hot_rows_inr {K} (er_vocab : K → res (list nat)) output_dim batch rows :
  multi_hot_rows er_vocab output_dim batch = inr rows ↔
  Forall2 (multi_hot er_vocab output_dim) batch rows ∧
  Forall (λ key, ∀ ids, er_vocab key = inr ids →
                         Forall (λ i, i < output_dim) ids) batch.
Proof.
  revert rows. induction batch as [|key batch IH]; intros rows; simpl.
  - split.
    + intros [= <-]. split; constructor.
    + intros [H _]. by apply Forall2_nil_inv_l in H as ->.
  - destruct (er_vocab key) as [e|ids] eqn:Hids; rsimpl.
    { split; [done|]. intros [H _].
      apply Forall2_cons_inv_l in H as (row & rows' & (ids & Hids' & _) & _).
      congruence. }
    destruct (put_ones (replicate output_dim false) ids) as [e|row] eqn:Hrow;
      rsimpl.
    { split; [done|]. intros [H Hall].
      apply Forall2_cons_inv_l in H as (row & rows' & (ids' & Hids' & Hlen & Hr)
                                        & _ & ->).
      apply Forall_cons in Hall as [Hall _]. simplify_eq.
      assert (put_ones (replicate (length row) false) ids' = inr row) as Habs
        by (apply put_ones_inr; auto).
      congruence. }
    pose proof (proj1 (put_ones_inr _ _ _) Hrow) as (Hin & Hlen & Hr).
    destruct (multi_hot_rows er_vocab output_dim batch) as [e|rows'] eqn:Hrest.
    { split; [done|]. intros [H Hall].
      apply Forall2_cons_inv_l in H as (row' & rows' & _ & Hrows & ->).
      apply Forall_cons in Hall as [_ Hall].
      assert (@inl exn (list (list bool)) e = inr rows') as Habs; [|done].
      apply IH. done. }
    destruct (proj1 (IH rows') eq_refl) as [Hrows Hall]. split.
    + intros [= <-]. split.
      * constructor; [|done]. by exists ids.
      * constructor; [|done]. intros ids' Hids'.
        rewrite Hids in Hids'. by injection Hids' as <-.
    + intros [H _].
      apply Forall2_cons_inv_l in H as (row' & rows'' & (ids' & Hids' & Hlen' & Hr')
                                        & Hrows' & ->).
      rewrite Hids in Hids'. injection Hids' as <-.
      assert (put_ones (replicate output_dim false) ids = inr row') as Hrow'
        by (by apply put_ones_inr).
      assert (@inr exn _ rows' = inr rows'') as Hrows'' by (by apply IH).
      congruence.
Qed.

(** [get_batch_1_to_N] returns the keys from position [idx] on, at most
    [batch_size] of them, and for each key a row of [output_dim] cells that
    holds a one exactly at the ids the vocabulary gives for the key. It
    returns only if every lookup succeeds and every id found is below
    [output_dim]. *)
Theorem get_batch_1_to_N_multi_hot {K} batch_size (er_vocab : K → res (list nat))
    er_vocab_pairs idx output_dim batch targets :
  get_batch_1_to_N batch_size er_vocab er_vocab_pairs idx output_dim
    = inr (batch, targets) →
  batch = take batch_size (drop idx er_vocab_pairs) ∧
  length batch = batch_size `min` (length er_vocab_pairs - idx) ∧
  Forall2 (multi_hot er_vocab output_dim) batch targets ∧
  ∀ key ids, key ∈ batch → er_vocab key = inr ids →
              Forall (λ i, i < output_dim) ids.
Proof.
  unfold get_batch_1_to_N. cbv zeta.
  destruct (multi_hot_rows _ _ _) as [e|rows] eqn:Hrows; rsimpl; [done|].
  intros [= <- <-]. apply multi_hot_rows_inr in Hrows as [Hrows Hall].
  split; [done|]. split; [by rewrite length_take, length_drop|].
  split; [done|]. intros key ids Hin. rewrite Forall_forall in Hall.
  by apply Hall.
Qed.

Lemma get_batch_1_to_N_multi_hot_witness :
  ∃ batch targets,
    get_batch_1_to_N 2 (λ k, inr (er_idx_vocab Demo.d k)) [(0, 0); (1, 0); (2, 0)]
      1 4 = inr (batch, targets) ∧
    batch = [(1, 0); (2, 0)] ∧ length targets = 2.
Proof.
  eexists _, _. split; [reflexivity|].
  destruct (get_batch_1_to_N_multi_hot 2 (λ k, inr (er_idx_vocab Demo.d k))
              [(0, 0); (1, 0); (2, 0)] 1 4 _ _ eq_refl) as (Hbatch & _ & _ & _).
  split; [exact Hbatch|reflexivity].
Defined.

(** ** The steps of a run *)

Ltac esimpl :=
  repeat (unfold mbind, E_bind, mret, E_ret, emit, throw; simpl).

Tactic Notation "esimpl" "in" hyp(H) :=
  repeat (unfold mbind, E_bind, mret, E_ret, emit, throw in H; simpl in H).


Section RunSteps.
Context (preprocesses_input_args : args → args)
        (KG : string → bool → dataset)
        (select_model : args → kge_model * string).

Local Abbreviation Execute_init := (Execute_init preprocesses_input_args KG).
Local Abbreviation run := (run preprocesses_input_args KG select_model).

(** What the constructor leaves behind when it returns ([a0] is the result
    of [preprocesses_input_args], accepted by the check of the arguments):
    the dataset is built and the experiment folder created, in this order;
    the batch size is capped by the number of training triples; [Shallom]
    with [NegSample] is switched to [KvsAll]; and the negative sampling
    ratio is dropped exactly for [KvsAll]. *)
Theorem Execute_init_normalises (a : args) (log : list event) self log' :
  Execute_init a log = (inr self, log') →
  let a0 := preprocesses_input_args a in
  let dataset := KG (path_dataset_folder a0) (add_reciprical a0) in
  log' = log ++ [build_dataset (path_dataset_folder a0);
                 create_experiment_folder (storage_path a0)] ∧
  self_dataset self = dataset ∧
  batch_size (self_args self)
    = batch_size a0 `min` length (train_set_idx dataset) ∧
  model (self_args self) = model a0 ∧
  num_folds_for_cv (self_args self) = num_folds_for_cv a0 ∧
  (self_scoring_technique self = "KvsAll"
     ↔ scoring_technique a0 = "KvsAll"
       ∨ (model a0 = "Shallom" ∧ scoring_technique a0 = "NegSample")) ∧
  (self_scoring_technique self ≠ "KvsAll"
     → self_scoring_technique self = scoring_technique a0) ∧
  neg_ratio self
    = (if decide (self_scoring_technique self = "KvsAll") then None
       else Some (negative_sample_ratio a0)) ∧
  ¬ (model (self_args self) = "Shallom"
     ∧ self_scoring_technique self = "NegSample").
Proof using Type.
  clear select_model. intros H a0 dataset.
  unfold Executer.Execute_init, sanity_checking_with_arguments in H.
  fold a0 in H. fold dataset in H.
  destruct (decide (scoring_technique a0 = "NegSample"
                    ∨ scoring_technique a0 = "KvsAll")) as [Hok|]; [|done].
  esimpl in H. injection H as <- <-. simpl.
  rewrite <- app_assoc. split; [done|]. split; [done|].
  destruct (decide (length (train_set_idx dataset) < batch_size a0)); simpl;
    (split; [lia|]); (split; [done|]); (split; [done|]);
    destruct (decide (model a0 = "Shallom" ∧ scoring_technique a0 = "NegSample"))
      as [[Hm Hs]|Hn]; simpl;
    destruct (decide (scoring_technique a0 = "KvsAll")) as [Hk|Hk]; simpl;
    try rewrite Hs in *; try rewrite Hk in *; try done;
    split_and!; try done; try tauto; try (intros [? ?]; done).
Qed.



(** With any other scoring technique neither evaluation is called in the
    first fold, and the use of [res] that follows ends the cross-validation
    in an [UnboundLocalError], after one model has been fitted. *)
Theorem k_fold_cross_validation_unbound_result (self : Execute) log m labelling :
  select_model (self_args self) = (m, labelling) →
  self_scoring_technique self ≠ "KvsAll" → name m ≠ "Shallom" →
  self_scoring_technique self ≠ "NegSample" →
  2 ≤ num_folds_for_cv (self_args self)
    ≤ length (train_set_idx (self_dataset self)) →
  k_fold_cross_validation select_model self log
  = (inl (UnboundLocalError "res"), log ++ [create_trainer; fit]).
Proof using Type.
  clear preprocesses_input_args KG. intros Hm H1 H2 H3 Hk. unfold k_fold_cross_validation.
  destruct (num_folds_for_cv (self_args self)) as [|k]; [lia|].
  simpl. rewrite Hm. esimpl.
  rewrite !decide_False by tauto. esimpl. by rewrite <- app_assoc.
Qed.







End RunSteps.

Lemma Execute_init_normalises_witness :
  ∃ self log',
    Execute_init (λ a, a) (λ _ _, Demo.d) (Demo.args_with "NegSample") []
      = (inr self, log') ∧
    batch_size (self_args self) = 2 ∧ neg_ratio self = Some 1%Z.
Proof.
  assert (Execute_init (λ a, a) (λ _ _, Demo.d) (Demo.args_with "NegSample") []
          = (inr (MkExecute (Args "d" false "out" "DistMult" "NegSample" 1%Z 2 0)
                    Demo.d "NegSample" (Some 1%Z)),
             [build_dataset "d"; create_experiment_folder "out"])) as Hrun
    by (vm_compute; reflexivity).
  pose proof (Execute_init_normalises (λ a, a) (λ _ _, Demo.d)
                (Demo.args_with "NegSample") [] _ _ Hrun)
    as (_ & _ & Hbatch & _ & _ & _ & _ & Hneg & _).
  eexists _, _. split; [exact Hrun|]. split; [exact Hbatch|exact Hneg].
Defined.


Lemma k_fold_cross_validation_unbound_result_witness :
  k_fold_cross_validation (λ _, (Demo.m, "EntityPrediction"))
    (MkExecute (Args "d" false "out" "DistMult" "Foo" 1%Z 2 2) Demo.d "Foo"
       (Some 1%Z)) []
  = (inl (UnboundLocalError "res"), [create_trainer; fit]).
Proof.
  apply (k_fold_cross_validation_unbound_result
           (λ _, (Demo.m, "EntityPrediction"))
           (MkExecute (Args "d" false "out" "DistMult" "Foo" 1%Z 2 2) Demo.d
              "Foo" (Some 1%Z)) [] Demo.m "EntityPrediction");
    [reflexivity|discriminate|discriminate|discriminate|simpl; lia].
Defined.


End ExecuterFacts.
